(** * obsidian-better-graph-3d: graph synchronizer and growable render buffers

  A shallow embedding of
    - [Graph3DLayout] (src/src/Graph3DView.ts): the label-to-handle map and
      the ngraph graph it drives ([addOrGetNode], [link], [addLinks],
      [fromMetadataCache], [syncWithCache], [createRandomGraph]), and the
      handlers of [Graph3DView.onOpen] (module [View]);
    - [Graph3DRenderer] (src/src/Graph3DRenderer.ts): the instanced sphere
      buffer and the link vertex buffer with their doubling growth
      ([updateNodePositions], [updateLinkPositions], [setNodeLabel]), and
      the class of the same name that the view calls, which replaces its
      buffers without copying and makes all labels at once (module
      [RendererV1]);
    - [NodeLabel] (src/src/renderer/NodeLabel.ts): label rasterisation
      ([setText] and the constructor).

  The two third-party libraries the code calls, ngraph.graph and three.js,
  are modelled by the operations the code uses, with the behaviour their
  documentation gives (module [NGraph] and the buffer part of [Renderer]). *)

From stdpp Require Import gmap strings list fin_maps pretty.
From Stdlib Require Import ZArith Lia.

Set Default Proof Using "Type".
Open Scope string_scope.
Open Scope list_scope.
Open Scope nat_scope.

(** ** JavaScript records used as maps *)

Module JS.

(** A [Record<string, V>]: the own enumerable properties in the order
    [Object.entries] / [Object.keys] enumerate them. *)
Definition record (V : Type) : Type := list (string * V).

(** Own-property read [o[k]]. *)
Fixpoint get {V : Type} (o : record V) (k : string) : option V :=
  match o with
  | [] => None
  | (k', v) :: o' => if decide (k' = k) then Some v else get o' k
  end.

Definition keys {V : Type} (o : record V) : list string := o.*1.

(** [o[k] || {}] for a record of records.  A name that is only inherited
    from [Object.prototype] reads as a function or as the prototype object;
    both have no own enumerable property, so they enumerate and spread like
    the empty record. *)
Definition get_or_empty {V : Type} (o : record (record V)) (k : string) : record V :=
  default [] (get o k).

(** The property names every object literal inherits from
    [Object.prototype].  Reading one of them on an object that has no own
    property of that name yields a function (or the prototype object), which
    is truthy. *)
Definition objectPrototypeNames : list string :=
  [ "constructor"; "__defineGetter__"; "__defineSetter__"; "hasOwnProperty";
    "__lookupGetter__"; "__lookupSetter__"; "isPrototypeOf";
    "propertyIsEnumerable"; "toString"; "valueOf"; "__proto__";
    "toLocaleString" ].

Definition inherited (k : string) : bool :=
  bool_decide (k ∈ objectPrototypeNames).

(** Truthiness of a number: [0] is falsy (weights are link counts, modelled
    as integers; [NaN], the other falsy number, is not a count). *)
Definition truthy_number (w : Z) : bool := negb (w =? 0)%Z.

(** Truthiness of a string: only the empty string is falsy. *)
Definition truthy_string (s : string) : bool := negb (bool_decide (s = "")).

(** Own-property read on the spread [{...a, ...b}]: the later spread wins. *)
Definition spread_get {V : Type} (a b : record V) (k : string) : option V :=
  match get b k with
  | Some v => Some v
  | None => get a k
  end.

(** Truthiness of the read [({...a, ...b})[k]] on a record of numbers. *)
Definition spread_truthy (a b : record Z) (k : string) : bool :=
  match spread_get a b k with
  | Some w => truthy_number w
  | None => inherited k
  end.

End JS.

(** ** ngraph.graph, as far as the program uses it

    The graph of ngraph.graph 20: the nodes and the links are kept in
    JavaScript [Map]s, the links of a node in a [Set]; all three iterate in
    insertion order, and deleting the entry being visited does not disturb
    the iteration. *)

Module NGraph.

(** The node payload of the vault graph ([GraphNode] in Graph3DView.ts). *)
Record GraphNode : Type := mkGraphNode { label : string; resolved : bool }.

(** A node: its id and its data; [None] is a node created without data
    (JavaScript [undefined]). *)
Record Node : Type := mkNode { id : nat; data : option GraphNode }.

(** A link; its id is the pair of its end points (ngraph's [makeLinkId]),
    its data is the slot number the renderer writes to. *)
Record Link : Type := mkLink { fromId : nat; toId : nat; ldata : nat }.

(** The graph: the node map and the link map, each as the list of its
    values in insertion order (the order in which a JavaScript [Map]
    iterates). *)
Record Graph : Type := mkGraph { nodes : list Node; links : list Link }.

#[global] Instance GraphNode_eq_dec : EqDecision GraphNode.
Proof. solve_decision. Defined.
#[global] Instance Node_eq_dec : EqDecision Node.
Proof. solve_decision. Defined.
#[global] Instance Link_eq_dec : EqDecision Link.
Proof. solve_decision. Defined.
#[global] Instance Graph_eq_dec : EqDecision Graph.
Proof. solve_decision. Defined.

Definition createGraph : Graph := mkGraph [] [].

Definition getNodeCount (g : Graph) : nat := length (nodes g).
Definition getLinkCount (g : Graph) : nat := length (links g).

Definition getNode (g : Graph) (i : nat) : option Node :=
  List.find (λ n, bool_decide (id n = i)) (nodes g).

(** [addNode(id, data)]: a node that exists gets the new data (its place in
    the map is kept), a new one is appended. *)
Definition addNode (g : Graph) (i : nat) (d : option GraphNode) : Graph :=
  match getNode g i with
  | Some _ =>
      mkGraph (map (λ n, if decide (id n = i) then mkNode i d else n) (nodes g))
              (links g)
  | None => mkGraph (nodes g ++ [mkNode i d]) (links g)
  end.

(** The end points of a link, which make its id. *)
Definition ends (l : Link) : nat * nat := (fromId l, toId l).

Definition sameEnds (a b : nat) (l : Link) : Prop := fromId l = a ∧ toId l = b.

#[global] Instance sameEnds_dec a b l : Decision (sameEnds a b l).
Proof. unfold sameEnds. apply _. Defined.

(** [getLink(from, to)]; [hasLink] is the same function. *)
Definition getLink (g : Graph) (a b : nat) : option Link :=
  List.find (λ l, bool_decide (sameEnds a b l)) (links g).

Definition hasLink := getLink.

(** [getNode(id) || addNode(id)]. *)
Definition ensureNode (g : Graph) (i : nat) : Graph :=
  match getNode g i with
  | Some _ => g
  | None => addNode g i None
  end.

(** [addLink(from, to, data)] of a graph that is not a multigraph: missing
    end points are created without data; a link with these end points that
    exists gets the new data, a new one is appended. *)
Definition addLink (g : Graph) (a b : nat) (d : nat) : Graph :=
  let g1 := ensureNode (ensureNode g a) b in
  match getLink g1 a b with
  | Some _ =>
      mkGraph (nodes g1)
              (map (λ l, if decide (sameEnds a b l) then mkLink a b d else l) (links g1))
  | None => mkGraph (nodes g1) (links g1 ++ [mkLink a b d])
  end.

(** [removeLink(link)]: the entry with the link's id leaves the link map
    (and the link sets of its end points, which are derived here). *)
Definition removeLink (g : Graph) (l : Link) : Graph :=
  mkGraph (nodes g) (filter (λ l', ¬ sameEnds (fromId l) (toId l) l') (links g)).

(** The links [forEachLinkedNode(id, cb, true)] visits: those that leave
    the node, in insertion order. *)
Definition outgoing (g : Graph) (s : nat) : list Link :=
  filter (λ l, fromId l = s) (links g).

End NGraph.

Import NGraph.

(** ** Graph3DLayout (src/src/Graph3DView.ts) *)

Module Layout.

(** The snapshot of the metadata cache: [resolvedLinks] and
    [unresolvedLinks], each a record from source file to a record from target
    file to the number of links. *)
Record MetadataCache : Type := mkMetadataCache {
  resolvedLinks : JS.record (JS.record Z);
  unresolvedLinks : JS.record (JS.record Z)
}.

(** The two fields of [Graph3DLayout] the synchronizer writes; the force
    layout only observes [graph]. *)
Record Graph3DLayout : Type := mkLayout {
  nameToId : gmap string nat;
  graph : Graph
}.

(** [new Graph3DLayout()]. *)
Definition empty : Graph3DLayout := mkLayout ∅ createGraph.

(** [addOrGetNode(node)]: the handle of the label, or the node count for a
    label without one; the node data is written in both cases. *)
Definition addOrGetNode (node : GraphNode) (L : Graph3DLayout) : nat * Graph3DLayout :=
  let nodeId :=
    match nameToId L !! label node with
    | Some i => i
    | None => getNodeCount (graph L)
    end in
  (nodeId,
   mkLayout (<[label node := nodeId]> (nameToId L))
            (addNode (graph L) nodeId (Some node))).

(** [link(sourceId, targetIndex)]. *)
Definition link (sourceId targetIndex : nat) (L : Graph3DLayout) : Graph3DLayout :=
  match hasLink (graph L) sourceId targetIndex with
  | Some _ => L
  | None =>
      mkLayout (nameToId L)
               (addLink (graph L) sourceId targetIndex (2 * getLinkCount (graph L)))
  end.

(** The body of the inner loop of [addLinks]. *)
Definition addTarget (resolved : bool) (sourceId : nat)
    (L : Graph3DLayout) (targetFile : string) : Graph3DLayout :=
  let '(targetIndex, L1) := addOrGetNode (mkGraphNode targetFile resolved) L in
  link sourceId targetIndex L1.

(** The body of the outer loop of [addLinks]. *)
Definition addSource (resolved : bool) (L : Graph3DLayout)
    (entry : string * JS.record Z) : Graph3DLayout :=
  let '(sourceFile, targets) := entry in
  let '(sourceId, L1) := addOrGetNode (mkGraphNode sourceFile true) L in
  foldl (addTarget resolved sourceId) L1 (JS.keys targets).

Definition addLinks (lnks : JS.record (JS.record Z)) (resolved : bool)
    (L : Graph3DLayout) : Graph3DLayout :=
  foldl (addSource resolved) L lnks.

Definition fromMetadataCache (mc : MetadataCache) (L : Graph3DLayout) : Graph3DLayout :=
  addLinks (unresolvedLinks mc) false (addLinks (resolvedLinks mc) true L).

(** The body of the two target loops of [syncWithCache]. *)
Definition syncTarget (resolved : bool) (sourceId : nat)
    (L : Graph3DLayout) (targetFile : string) : Graph3DLayout :=
  let '(targetId, L1) := addOrGetNode (mkGraphNode targetFile resolved) L in
  match hasLink (graph L1) sourceId targetId with
  | Some _ => L1
  | None => link sourceId targetId L1
  end.

(** [nodeHandler(target, link)] of [syncWithCache], called by
    [forEachLinkedNode] with [target = nodes.get(link.toId)].  [None] is the
    [TypeError] of reading [target.id] on a missing node, or [.data.label] on
    a node without data. *)
Definition nodeHandler (resolvedTargets unresolvedTargets : JS.record Z)
    (L : Graph3DLayout) (l : Link) : option Graph3DLayout :=
  target ← getNode (graph L) (toId l);
  match getNode (graph L) (id target) with
  | None => Some L
  | Some n =>
      d ← data n;
      let targetFile := label d in
      if JS.truthy_string targetFile
         && negb (JS.spread_truthy resolvedTargets unresolvedTargets targetFile)
      then Some (mkLayout (nameToId L) (removeLink (graph L) l))
      else Some L
  end.

(** A loop whose body can throw. *)
Fixpoint forEachM {A S : Type} (f : S → A → option S) (s : S) (xs : list A) : option S :=
  match xs with
  | [] => Some s
  | x :: xs' => s' ← f s x; forEachM f s' xs'
  end.

(** The callback [syncWithCache] passes to [forEachNode], for the node with
    id [sourceId].  [source] is the live node object, so its data is read
    from the current graph (the node is in it: nothing removes a node).  The
    links of the source are those it has when the removal pass starts; the
    handler removes only the link it is called with, so each of them is still
    in the graph when it is visited. *)
Definition syncNode (mc : MetadataCache) (L : Graph3DLayout) (sourceId : nat)
    : option Graph3DLayout :=
  source ← getNode (graph L) sourceId;
  d ← data source;
  let sourceFile := label d in
  let resolvedTargets := JS.get_or_empty (resolvedLinks mc) sourceFile in
  let unresolvedTargets := JS.get_or_empty (unresolvedLinks mc) sourceFile in
  let L1 := foldl (syncTarget true (id source)) L (JS.keys resolvedTargets) in
  let L2 := foldl (syncTarget false (id source)) L1 (JS.keys unresolvedTargets) in
  forEachM (nodeHandler resolvedTargets unresolvedTargets) L2
           (outgoing (graph L2) (id source)).

(** [syncWithCache(metadataCache)].  [forEachNode] walks the node map; no
    callback adds a node once [fromMetadataCache] has run (lemma
    [syncNode_step] below: the handles are the same after each callback), so
    the nodes it visits are the ones the map holds when the walk starts. *)
Definition syncWithCache (mc : MetadataCache) (L : Graph3DLayout) : option Graph3DLayout :=
  let L1 := fromMetadataCache mc L in
  forEachM (syncNode mc) L1 (id <$> nodes (graph L1)).

(** *** Observations *)

(** The label of the node with handle [i]. *)
Definition labelOf (L : Graph3DLayout) (i : nat) : option string :=
  n ← getNode (graph L) i; d ← data n; Some (label d).

(** The resolved flag of the node with handle [i]. *)
Definition resolvedOf (L : Graph3DLayout) (i : nat) : option bool :=
  n ← getNode (graph L) i; d ← data n; Some (resolved d).

(** [createRandomGraph(numNodes, desiredAverageDegree, allConnected)].
    [random k] is the [k]-th number that [Math.random()] returns, [below u]
    is the test [u < connectionProbability] and [scaled u] is
    [Math.floor(u * numNodes)]; the state of the loops is the layout and the
    number of calls of [Math.random] so far.  In every layout the class builds
    both handles passed to [link] are nodes of the graph, so that [link] adds
    no node and a loop visits the nodes the graph has at its start. *)
Section random.
Context {U : Type} (random : nat → U) (below : U → bool) (scaled : U → nat).

(** The body of the first loop: [index.toString()] is the decimal numeral. *)
Definition addIndexNode (L : Graph3DLayout) (index : nat) : Graph3DLayout :=
  (addOrGetNode (mkGraphNode (pretty index) true) L).2.

(** The callback of the inner [forEachNode]. *)
Definition connect (source : Node) (st : Graph3DLayout * nat) (target : Node)
    : Graph3DLayout * nat :=
  let '(L, k) := st in
  if decide (id source = id target) then (L, k)
  else if below (random k) then (link (id source) (id target) L, S k)
  else (L, S k).

(** The callback of the outer [forEachNode]. *)
Definition connectSource (allConnected : bool) (st : Graph3DLayout * nat) (source : Node)
    : Graph3DLayout * nat :=
  let '(L, k) := st in
  let count := getLinkCount (graph L) in
  let '(L1, k1) := foldl (connect source) (L, k) (nodes (graph L)) in
  if allConnected && (getLinkCount (graph L1) - count =? 0) then
    let targetId := scaled (random k1) in
    if decide (id source = targetId) then (L1, S k1)
    else (link (id source) targetId L1, S k1)
  else (L1, k1).

Definition createRandomGraph (numNodes : nat) (allConnected : bool)
    (L : Graph3DLayout) (k : nat) : Graph3DLayout * nat :=
  let L0 := foldl addIndexNode L (seq 0 numNodes) in
  foldl (connectSource allConnected) (L0, k) (nodes (graph L0)).

End random.

End Layout.

Import Layout.

(** ** NodeLabel (src/src/renderer/NodeLabel.ts) *)

Module Label.

Section label.
(** [P] is a point of the scene (a [THREE.Vector3]). *)
Context {P : Type}.

(** The fields of a [NodeLabel] that its methods write: [text] ([None] is
    [undefined], its value until a text has been drawn), the size of its
    canvas, the scale of its sprite in hundredths, and the position of its
    sprite. *)
Record NodeLabel : Type := mkNodeLabel {
  text : option string;
  canvasWidth : nat;
  canvasHeight : nat;
  spriteScale : nat * nat;
  spritePosition : P
}.

(** What the host answers to [canvas.getContext("2d")] (whether there is a
    context) and to [ctx.measureText(text).width] (in whole pixels, as the
    canvas stores its width). *)
Record Host : Type := mkHost {
  getContext : bool;
  measureText : string → nat
}.

Definition contextError : string :=
  "Could not get 2D context for [object HTMLCanvasElement]".

(** [setText(text)]; the second component is the console, to which
    [console.error] appends. *)
Definition setText (h : Host) (t : string) (lbl : NodeLabel) (console : list string)
    : NodeLabel * list string :=
  if decide (text lbl = Some t) then (lbl, console)
  else if getContext h then
    let w := measureText h t + 20 in
    (mkNodeLabel (Some t) w 68 (w, 68) (spritePosition lbl), console)
  else (lbl, console ++ [contextError]).

(** [new NodeLabel(text)]: a fresh canvas has the default size 300 x 150, a
    fresh sprite has scale 1 and sits at [origin]. *)
Definition newNodeLabel (origin : P) (h : Host) (t : string) (console : list string)
    : NodeLabel * list string :=
  setText h t (mkNodeLabel None 300 150 (100, 100) origin) console.

End label.

Arguments NodeLabel : clear implicits.

End Label.

(** ** Graph3DRenderer (src/src/Graph3DRenderer.ts) *)

Module Renderer.

Import Label.

Section renderer.
(** [P] is a point (three [Float32] coordinates), [M] a 4 x 4 matrix
    (sixteen), [C] a colour (three). *)
Context {P M C : Type}.
Context (origin : P) (identity : M) (white : C) (makeTranslation : P → M).

(** A [THREE.InstancedMesh]: [instanceMatrix] with one matrix per instance
    (its length is [instanceMatrix.count], the capacity), [instanceColor]
    ([None] is [null]) and [count], the number of instances drawn. *)
Record InstancedMesh : Type := mkInstancedMesh {
  instanceMatrix : list M;
  instanceColor : option (list C);
  count : nat
}.

(** A [THREE.LineSegments]: the [position] attribute of its geometry, one
    point per vertex, and the draw range ([None] is the initial range, from 0
    without end). *)
Record LineSegments : Type := mkLineSegments {
  position : list P;
  drawRange : option (nat * nat)
}.

(** The force layout as the renderer reads it: the graph, the body position
    of every node ([forEachBody]) and the end points of a link
    ([getLinkPosition]). *)
Record ForceLayout : Type := mkForceLayout {
  lgraph : Graph;
  bodies : list (nat * P);
  getLinkPosition : Link → P * P
}.

(** The renderer: the two meshes, [nodesData] (a sparse array), the handles
    whose label sprite has been added to the scene, and the console. *)
Record Graph3DRenderer : Type := mkRenderer {
  instancedSpheres : InstancedMesh;
  linkMesh : LineSegments;
  nodesData : gmap nat (NodeLabel P);
  sceneSprites : list nat;
  console : list string
}.

(** [new THREE.InstancedMesh(geometry, material, count)]: every matrix is
    the identity and there is no colour attribute yet. *)
Definition createSphereMesh (n : nat) : InstancedMesh :=
  mkInstancedMesh (replicate n identity) None n.

(** [new Float32Array(linkCount * 6)] as a position attribute: two vertices
    per link, all zero. *)
Definition createLinkMesh (linkCount : nat) : LineSegments :=
  mkLineSegments (replicate (2 * linkCount) origin) None.

Definition initializeBuffers (nodeCount linkCount : nat) (r : Graph3DRenderer)
    : Graph3DRenderer :=
  mkRenderer (createSphereMesh nodeCount) (createLinkMesh linkCount) ∅
             (sceneSprites r) (console r).

(** [attribute.set(source)]: the source is copied to the start of the
    attribute's array, the rest of the array is kept.  (A source longer than
    the array would raise a [RangeError]; the two calls pass an array of half
    the length of the target.) *)
Definition attributeSet {A : Type} (source target : list A) : list A :=
  source ++ drop (length source) target.

(** [setColorAt(index, color)]: the colour attribute is created, all white,
    by the first call. *)
Definition setColorAt (i : nat) (c : C) (m : InstancedMesh) : InstancedMesh :=
  let colors := default (replicate (length (instanceMatrix m)) white) (instanceColor m) in
  mkInstancedMesh (instanceMatrix m) (Some (<[i := c]> colors)) (count m).

Definition setNodeColor (nodeId : nat) (c : C) (r : Graph3DRenderer) : Graph3DRenderer :=
  mkRenderer (setColorAt nodeId c (instancedSpheres r)) (linkMesh r) (nodesData r)
             (sceneSprites r) (console r).

(** [setNodeLabel(nodeId, labelText)]. *)
Definition setNodeLabel (h : Host) (nodeId : nat) (labelText : string)
    (r : Graph3DRenderer) : Graph3DRenderer :=
  match nodesData r !! nodeId with
  | Some lbl =>
      mkRenderer (instancedSpheres r) (linkMesh r) (<[nodeId := lbl]> (nodesData r))
                 (sceneSprites r) (console r)
  | None =>
      let '(lbl, console') := newNodeLabel origin h labelText (console r) in
      mkRenderer (instancedSpheres r) (linkMesh r) (<[nodeId := lbl]> (nodesData r))
                 (sceneSprites r ++ [nodeId]) console'
  end.

(** [setNodePosition(body, nodeId)]: a write past the end of the matrix
    array is dropped, as typed arrays do. *)
Definition setNodePosition (r : Graph3DRenderer) (body : nat * P) : Graph3DRenderer :=
  let '(nodeId, pos) := body in
  let m := instancedSpheres r in
  mkRenderer
    (mkInstancedMesh (<[nodeId := makeTranslation pos]> (instanceMatrix m))
                     (instanceColor m) (count m))
    (linkMesh r)
    (match nodesData r !! nodeId with
     | Some lbl =>
         <[nodeId := mkNodeLabel (text lbl) (canvasWidth lbl) (canvasHeight lbl)
                                 (spriteScale lbl) pos]> (nodesData r)
     | None => nodesData r
     end)
    (sceneSprites r) (console r).

(** The growth step of [updateNodePositions]: a mesh of twice the capacity
    that receives the old matrices, and the old colours when both meshes have
    a colour attribute. *)
Definition growSpheres (old : InstancedMesh) : InstancedMesh :=
  let newSize := 2 * length (instanceMatrix old) in
  let newInstances := createSphereMesh newSize in
  mkInstancedMesh
    (attributeSet (instanceMatrix old) (instanceMatrix newInstances))
    (match instanceColor old, instanceColor newInstances with
     | Some oldColors, Some newColors => Some (attributeSet oldColors newColors)
     | _, _ => instanceColor newInstances
     end)
    (count newInstances).

Definition updateNodePositions (layout : ForceLayout) (r : Graph3DRenderer)
    : Graph3DRenderer :=
  let sphereBufferCapacity := length (instanceMatrix (instancedSpheres r)) in
  let r1 :=
    if decide (sphereBufferCapacity < getNodeCount (lgraph layout))
    then mkRenderer (growSpheres (instancedSpheres r)) (linkMesh r) (nodesData r)
                    (sceneSprites r) (console r)
    else r in
  let r2 := foldl setNodePosition r1 (bodies layout) in
  let m := instancedSpheres r2 in
  mkRenderer
    (mkInstancedMesh (instanceMatrix m) (instanceColor m) (getNodeCount (lgraph layout)))
    (linkMesh r2) (nodesData r2) (sceneSprites r2) (console r2).

(** The capacity of the link buffer in links: [position.count / 2]. *)
Definition linkBufferCapacity (lm : LineSegments) : nat := length (position lm) / 2.

(** The growth step of [updateLinkPositions]. *)
Definition growLinks (old : LineSegments) : LineSegments :=
  let newMesh := createLinkMesh (2 * linkBufferCapacity old) in
  mkLineSegments (attributeSet (position old) (position newMesh)) (drawRange newMesh).

(** The callback of [forEachLink]: the two end points are written at the
    link's slot and the one after it. *)
Definition setLinkPosition (getPos : Link → P * P) (ps : list P) (l : Link) : list P :=
  let '(from, to) := getPos l in
  <[ldata l + 1 := to]> (<[ldata l := from]> ps).

Definition updateLinkPositions (layout : ForceLayout) (r : Graph3DRenderer)
    : Graph3DRenderer :=
  let lm1 :=
    if decide (linkBufferCapacity (linkMesh r) < getLinkCount (lgraph layout))
    then growLinks (linkMesh r)
    else linkMesh r in
  let ps := foldl (setLinkPosition (getLinkPosition layout)) (position lm1)
                  (links (lgraph layout)) in
  mkRenderer (instancedSpheres r)
             (mkLineSegments ps (Some (0, 2 * getLinkCount (lgraph layout))))
             (nodesData r) (sceneSprites r) (console r).

(** [updateNodeColors(graph)]: every node is given a colour, a random one
    when it is marked resolved and [0x404040] ([grey]) when it is not;
    [draw k] is the colour drawn for the [k]-th node visited.  [None] is the
    [TypeError] of reading [.resolved] on a node without data. *)
Fixpoint updateNodeColorsFrom (draw : nat → C) (grey : C) (k : nat) (ns : list Node)
    (r : Graph3DRenderer) : option Graph3DRenderer :=
  match ns with
  | [] => Some r
  | n :: ns' =>
      d ← data n;
      updateNodeColorsFrom draw grey (S k) ns'
        (setNodeColor (id n) (if resolved d then draw k else grey) r)
  end.

Definition updateNodeColors (draw : nat → C) (grey : C) (g : Graph)
    (r : Graph3DRenderer) : option Graph3DRenderer :=
  updateNodeColorsFrom draw grey 0 (nodes g) r.

(** The drawing part of one turn of [animate] (Graph3DView.ts), after
    [layout.step()]: [updateNodePositions], then [updateLinkPositions]. *)
Definition frame (r : Graph3DRenderer) (layout : ForceLayout) : Graph3DRenderer :=
  updateLinkPositions layout (updateNodePositions layout r).

(** The frames of [animate], one for each state of the force layout. *)
Definition animate (layouts : list ForceLayout) (r : Graph3DRenderer) : Graph3DRenderer :=
  foldl frame r layouts.

(** One call of the renderer after [initializeBuffers]. *)
Inductive renderStep : Graph3DRenderer → Graph3DRenderer → Prop :=
| renderStep_setNodeLabel h nodeId labelText r :
    renderStep r (setNodeLabel h nodeId labelText r)
| renderStep_setNodeColor nodeId c r :
    renderStep r (setNodeColor nodeId c r)
| renderStep_updateNodePositions layout r :
    renderStep r (updateNodePositions layout r)
| renderStep_updateLinkPositions layout r :
    renderStep r (updateLinkPositions layout r).

End renderer.

Arguments InstancedMesh : clear implicits.
Arguments LineSegments : clear implicits.
Arguments ForceLayout : clear implicits.
Arguments Graph3DRenderer : clear implicits.

End Renderer.

Import Label Renderer.

(** ** The renderer the view calls (src/src/Graph3DRenderer.ts, first class)

    The class of the same name that [Graph3DView.ts] drives: the buffers are
    replaced, not copied, when they grow, and the labels are made for the whole
    graph at once by [createNodeLabels]. *)

Module RendererV1.

Section renderer.
Context {P M C : Type}.
Context (origin : P) (identity : M) (white : C) (makeTranslation : P → M).

Definition canvasError : string := "Could not get 2D context for canvas".

Definition createNodeMesh (n : nat) : InstancedMesh M C :=
  mkInstancedMesh (replicate n identity) None n.

Definition createLinkGeometry (linkCount : nat) : LineSegments P :=
  mkLineSegments (replicate (2 * linkCount) origin) None.

(** [makeLabelCanvas(text)]: the width and the height of the canvas returned,
    and the console; a canvas without a context keeps its default size. *)
Definition makeLabelCanvas (h : Host) (t : string) (console : list string)
    : (nat * nat) * list string :=
  if getContext h then ((measureText h t + 20, 68), console)
  else ((300, 150), console ++ [canvasError]).

(** [createLabelMesh(canvas)]: the scale of the sprite in hundredths, and its
    position. *)
Definition createLabelMesh (canvas : nat * nat) : (nat * nat) * P :=
  (canvas, origin).

Definition initializeMeshes (nodeCount linkCount : nat) (r : Graph3DRenderer P M C)
    : Graph3DRenderer P M C :=
  mkRenderer (createNodeMesh nodeCount) (createLinkGeometry linkCount) ∅
             (sceneSprites r) (console r).

(** The callback of [createNodeLabels]: a canvas and a sprite are made for
    the node, the sprite is added to the scene and the entry of the node in
    [nodesData] is replaced.  [h i] is what the host answers while the canvas
    of the node [i] is made.  [None] is the [TypeError] of reading [.label]
    on a node without data. *)
Definition createNodeLabel (h : nat → Host) (r : Graph3DRenderer P M C) (node : Node)
    : option (Graph3DRenderer P M C) :=
  d ← data node;
  let '(labelCanvas, console') := makeLabelCanvas (h (id node)) (label d) (console r) in
  let '(scale, pos) := createLabelMesh labelCanvas in
  let nodeData := mkNodeLabel (Some (label d)) labelCanvas.1 labelCanvas.2 scale pos in
  Some (mkRenderer (instancedSpheres r) (linkMesh r)
                   (<[id node := nodeData]> (nodesData r))
                   (sceneSprites r ++ [id node]) console').

Definition createNodeLabels (h : nat → Host) (g : Graph) (r : Graph3DRenderer P M C)
    : option (Graph3DRenderer P M C) :=
  forEachM (createNodeLabel h) r (nodes g).

(** [updateNodePositions]: the mesh that replaces a full one is new, with
    identity matrices and no colours; the callback of [forEachBody] is the
    body of [setNodePosition]. *)
Definition updateNodePositions (layout : ForceLayout P) (r : Graph3DRenderer P M C)
    : Graph3DRenderer P M C :=
  let sphereBufferCapacity := length (instanceMatrix (instancedSpheres r)) in
  let r1 :=
    if decide (sphereBufferCapacity < getNodeCount (lgraph layout))
    then mkRenderer (createNodeMesh (2 * sphereBufferCapacity)) (linkMesh r) (nodesData r)
                    (sceneSprites r) (console r)
    else r in
  let r2 := foldl (setNodePosition makeTranslation) r1 (bodies layout) in
  let m := instancedSpheres r2 in
  mkRenderer
    (mkInstancedMesh (instanceMatrix m) (instanceColor m) (getNodeCount (lgraph layout)))
    (linkMesh r2) (nodesData r2) (sceneSprites r2) (console r2).

Definition updateLinkPositions (layout : ForceLayout P) (r : Graph3DRenderer P M C)
    : Graph3DRenderer P M C :=
  let lm1 :=
    if decide (linkBufferCapacity (linkMesh r) < getLinkCount (lgraph layout))
    then createLinkGeometry (2 * linkBufferCapacity (linkMesh r))
    else linkMesh r in
  let ps := foldl (setLinkPosition (getLinkPosition layout)) (position lm1)
                  (links (lgraph layout)) in
  mkRenderer (instancedSpheres r)
             (mkLineSegments ps (Some (0, 2 * getLinkCount (lgraph layout))))
             (nodesData r) (sceneSprites r) (console r).

End renderer.

End RendererV1.

(** ** Graph3DView (src/src/Graph3DView.ts) *)

Module View.

Section view.
Context {P M C : Type}.
Context (origin : P) (identity : M) (white : C) (makeTranslation : P → M).
(** The grey [0x404040]. *)
Context (grey : C).

Record Graph3DView : Type := mkView {
  layout : Graph3DLayout;
  renderer : Graph3DRenderer P M C
}.

(** The colours and the labels are set up, as [onOpen] and the handler of
    ["resolved"] do; [h] is the host of the canvases and [draw] gives the
    colours of [Math.random] during the call. *)
Definition setup (h : nat → Host) (draw : nat → C) (L : Graph3DLayout)
    (r : Graph3DRenderer P M C) : option Graph3DView :=
  r1 ← updateNodeColors white draw grey (graph L) r;
  r2 ← RendererV1.createNodeLabels origin h (graph L) r1;
  Some (mkView L r2).

(** [onOpen], up to the first frame; [r] is the renderer as its constructor
    leaves it. *)
Definition onOpen (mc : MetadataCache) (h : nat → Host) (draw : nat → C)
    (r : Graph3DRenderer P M C) : option Graph3DView :=
  let L := fromMetadataCache mc Layout.empty in
  setup h draw L (RendererV1.initializeMeshes origin identity (getNodeCount (graph L))
                                       (getLinkCount (graph L)) r).

(** The handler of ["resolved"]. *)
Definition onResolved (mc : MetadataCache) (h : nat → Host) (draw : nat → C)
    (v : Graph3DView) : option Graph3DView :=
  L ← syncWithCache mc (layout v);
  setup h draw L (renderer v).

(** The handler of ["resolve"]; its two [console.log] lines are left out. *)
Definition onResolve (mc : MetadataCache) (v : Graph3DView) : option Graph3DView :=
  L ← syncWithCache mc (layout v);
  Some (mkView L (renderer v)).

(** One turn of [animate]: [bodies] and [getPos] are what the force layout
    gives after its step; the resize of the canvas and the drawing of the
    scene are left out. *)
Definition animate (bodies : list (nat * P)) (getPos : Link → P * P) (v : Graph3DView)
    : Graph3DView :=
  let forces := mkForceLayout (graph (layout v)) bodies getPos in
  mkView (layout v)
         (RendererV1.updateLinkPositions origin forces
            (RendererV1.updateNodePositions identity makeTranslation forces (renderer v))).

(** What happens to an open view: the two events of the metadata cache and
    the animation frame. *)
Inductive Event : Type :=
| Resolved (mc : MetadataCache) (h : nat → Host) (draw : nat → C)
| Resolve (mc : MetadataCache)
| Frame (bodies : list (nat * P)) (getPos : Link → P * P).

Definition handle (v : Graph3DView) (e : Event) : option Graph3DView :=
  match e with
  | Resolved mc h draw => onResolved mc h draw v
  | Resolve mc => onResolve mc v
  | Frame bodies getPos => Some (animate bodies getPos v)
  end.

(** The events in turn; [None] when a handler has raised an exception. *)
Definition run (es : list Event) (v : Graph3DView) : option Graph3DView :=
  forEachM handle v es.

(** The number of ["resolved"] events among [es]. *)
Fixpoint resolvedEvents (es : list Event) : nat :=
  match es with
  | [] => 0
  | Resolved _ _ _ :: es' => S (resolvedEvents es')
  | _ :: es' => resolvedEvents es'
  end.

End view.

Arguments Graph3DView : clear implicits.
Arguments Event : clear implicits.

End View.

(** ** Vocabulary of the specification *)

(** The well-formed layouts: handles are dense and in allocation order, every
    node carries data, [nameToId] maps a label to the handle of the node that
    carries it, links join existing nodes, and no two links have the same
    end points. *)
Record wf (L : Graph3DLayout) : Prop := mkWf {
  wf_ids : id <$> nodes (graph L) = seq 0 (getNodeCount (graph L));
  wf_names : ∀ lbl i, nameToId L !! lbl = Some i ↔ labelOf L i = Some lbl;
  wf_data : ∀ i, i < getNodeCount (graph L) → is_Some (labelOf L i);
  wf_closed : ∀ l, l ∈ links (graph L) →
    fromId l < getNodeCount (graph L) ∧ toId l < getNodeCount (graph L);
  wf_nodup : NoDup (ends <$> links (graph L))
}.

(** [L'] has the handles, the labels and the label-to-handle map of [L];
    resolved flags and links may differ. *)
Record sameNodes (L L' : Graph3DLayout) : Prop := mkSameNodes {
  same_names : nameToId L' = nameToId L;
  same_ids : id <$> nodes (graph L') = id <$> nodes (graph L);
  same_labels : ∀ i, labelOf L' i = labelOf L i
}.

(** There is a link from handle [a] to handle [b]. *)
Definition linked (L : Graph3DLayout) (a b : nat) : Prop :=
  is_Some (getLink (graph L) a b).

(** [S] is a source of the snapshot. *)
Definition sourceIn (mc : MetadataCache) (S : string) : Prop :=
  ∃ targets, (S, targets) ∈ resolvedLinks mc ∨ (S, targets) ∈ unresolvedLinks mc.

(** [T] is a resolved target somewhere in the snapshot. *)
Definition resolvedTargetIn (mc : MetadataCache) (T : string) : Prop :=
  ∃ S targets, (S, targets) ∈ resolvedLinks mc ∧ T ∈ JS.keys targets.

(** [T] is an unresolved target somewhere in the snapshot. *)
Definition unresolvedTargetIn (mc : MetadataCache) (T : string) : Prop :=
  ∃ S targets, (S, targets) ∈ unresolvedLinks mc ∧ T ∈ JS.keys targets.

(** The snapshot has an entry for [S] that lists [T]. *)
Definition pairIn (mc : MetadataCache) (S T : string) : Prop :=
  ∃ targets,
    ((S, targets) ∈ resolvedLinks mc ∨ (S, targets) ∈ unresolvedLinks mc)
    ∧ T ∈ JS.keys targets.

(** The test of [nodeHandler] for the source label [S] and the target label
    [T]: the link is removed. *)
Definition stale (mc : MetadataCache) (S T : string) : bool :=
  JS.truthy_string T
  && negb (JS.spread_truthy (JS.get_or_empty (resolvedLinks mc) S)
                            (JS.get_or_empty (unresolvedLinks mc) S) T).

(** The test of [nodeHandler] on a link, given the label of every handle. *)
Definition staleLink (mc : MetadataCache) (lab : nat → option string) (l : Link) : bool :=
  match lab (fromId l), lab (toId l) with
  | Some src, Some tgt => stale mc src tgt
  | _, _ => false
  end.

(** The links the removal passes of [syncWithCache] keep. *)
Definition kept (mc : MetadataCache) (lab : nat → option string) (l : Link) : Prop :=
  staleLink mc lab l = false.

#[global] Instance kept_dec mc lab l : Decision (kept mc lab l).
Proof. unfold kept. apply _. Defined.

(** The test of [nodeHandler] as it reads it: from the two target records of
    the source and the label of the link's target. *)
Definition staleTarget (rt ut : JS.record Z) (lab : nat → option string) (l : Link) : bool :=
  match lab (toId l) with
  | Some tgt => JS.truthy_string tgt && negb (JS.spread_truthy rt ut tgt)
  | None => false
  end.

(** The labels [S] and [T] have handles and there is a link between them. *)
Definition linkedNames (L : Graph3DLayout) (S T : string) : Prop :=
  ∃ s t, nameToId L !! S = Some s ∧ nameToId L !! T = Some t ∧ linked L s t.

(** [lbl] is a source or a target of the snapshot. *)
Definition labelIn (mc : MetadataCache) (lbl : string) : Prop :=
  ∃ S targets,
    ((S, targets) ∈ resolvedLinks mc ∨ (S, targets) ∈ unresolvedLinks mc)
    ∧ (lbl = S ∨ lbl ∈ JS.keys targets).

(** [L'] extends [L]: handles are kept, nodes are only added, links are only
    appended, each with an even slot and for a pair of labels in [Pr]; and
    nothing but flags and links changes when every label in [Lab] has a handle
    already. *)
Record ext (Lab : string → Prop) (Pr : string → string → Prop)
    (L L' : Graph3DLayout) : Prop := mkExt {
  ext_names : nameToId L ⊆ nameToId L';
  ext_count : getNodeCount (graph L) ≤ getNodeCount (graph L');
  ext_links : ∃ R, links (graph L') = links (graph L) ++ R
    ∧ ∀ r, r ∈ R → Nat.Even (ldata r) ∧ ∃ S T, Pr S T
        ∧ nameToId L' !! S = Some (fromId r) ∧ nameToId L' !! T = Some (toId r);
  ext_stable : (∀ lbl, Lab lbl → is_Some (nameToId L !! lbl)) → sameNodes L L'
}.

(** The label has a handle and the node with that handle is marked
    resolved. *)
Definition marked (L : Graph3DLayout) (lbl : string) : Prop :=
  ∃ i, nameToId L !! lbl = Some i ∧ resolvedOf L i = Some true.

(** The state of the loop of [syncWithCache] after the nodes in [visited],
    when [L1] is the layout [fromMetadataCache] has left. *)
Definition loopInv (mc : MetadataCache) (L1 : Graph3DLayout)
    (visited : list nat) (L : Graph3DLayout) : Prop :=
  wf L ∧ sameNodes L1 L
  ∧ links (graph L) =
    filter (λ l, fromId l ∈ visited → kept mc (labelOf L1) l) (links (graph L1))
  ∧ ∀ lbl, ¬ unresolvedTargetIn mc lbl → marked L1 lbl → marked L lbl.

(** One call of the synchronizer, or of [link] on two handles of the graph
    (as [createRandomGraph] does). *)
Inductive step : Graph3DLayout → Graph3DLayout → Prop :=
| step_addOrGetNode node L :
    step L (addOrGetNode node L).2
| step_link a b L :
    a < getNodeCount (graph L) → b < getNodeCount (graph L) →
    step L (link a b L)
| step_fromMetadataCache mc L :
    step L (fromMetadataCache mc L)
| step_syncWithCache mc L L' :
    syncWithCache mc L = Some L' →
    step L L'.

(** The layouts a sequence of calls builds from [new Graph3DLayout()]. *)
Definition reachable (L : Graph3DLayout) : Prop := rtc step Layout.empty L.

(** The slots are handed out in order: the link at place [i] of the link map
    has the slot [2 * i]. *)
Definition slotsInOrder (L : Graph3DLayout) : Prop :=
  ∀ i l, links (graph L) !! i = Some l → ldata l = 2 * i.

(** One call that only adds: [addOrGetNode], [link] or [fromMetadataCache]. *)
Inductive growStep : Graph3DLayout → Graph3DLayout → Prop :=
| growStep_addOrGetNode node L :
    growStep L (addOrGetNode node L).2
| growStep_link a b L :
    growStep L (link a b L)
| growStep_fromMetadataCache mc L :
    growStep L (fromMetadataCache mc L).

(** The label has a handle and the node with that handle has the resolved
    flag [b]. *)
Definition flagged (b : bool) (L : Graph3DLayout) (lbl : string) : Prop :=
  ∃ i, nameToId L !! lbl = Some i ∧ resolvedOf L i = Some b.

(** [S] is a source of the unresolved links of the snapshot. *)
Definition unresolvedSourceIn (mc : MetadataCache) (S : string) : Prop :=
  ∃ targets, (S, targets) ∈ unresolvedLinks mc.

(** The label [lbl] with its sprite at [pos]. *)
Definition movedTo {P : Type} (pos : P) (lbl : NodeLabel P) : NodeLabel P :=
  mkNodeLabel (text lbl) (canvasWidth lbl) (canvasHeight lbl) (spriteScale lbl) pos.

(** The scene holds one label sprite for every node that has a label in
    [nodesData], and no other. *)
Definition spritesOnce {P M C : Type} (r : Graph3DRenderer P M C) : Prop :=
  NoDup (sceneSprites r) ∧ ∀ i, i ∈ sceneSprites r ↔ is_Some (nodesData r !! i).

(** The two shapes of a label: drawn (a text, a canvas 68 pixels high and at
    least 20 wide, the sprite a hundredth of the canvas) or blank (no text,
    the default canvas of 300 x 150 and the default scale 1). *)
Definition labelShape {P : Type} (lbl : NodeLabel P) : Prop :=
  match text lbl with
  | Some _ =>
      20 ≤ canvasWidth lbl ∧ canvasHeight lbl = 68
      ∧ spriteScale lbl = (canvasWidth lbl, canvasHeight lbl)
  | None =>
      canvasWidth lbl = 300 ∧ canvasHeight lbl = 150 ∧ spriteScale lbl = (100, 100)
  end.

(** The colour attribute as [setColorAt] reads it: the one of the mesh, or
    the all-white one it creates when the mesh has none. *)
Definition colorsOf {M C : Type} (white : C) (mesh : InstancedMesh M C) : list C :=
  default (replicate (length (instanceMatrix mesh)) white) (instanceColor mesh).

(** The entry of [nodesData] that [createNodeLabels] makes for a node
    labelled [lbl]: the canvas is as wide as the text and 20 more and 68
    high, or has the default size when there is no context; the sprite has a
    hundredth of the size of the canvas. *)
Definition labelV1 {P : Type} (origin : P) (h : Host) (lbl : string) : NodeLabel P :=
  let canvas := if getContext h then (measureText h lbl + 20, 68) else (300, 150) in
  mkNodeLabel (Some lbl) canvas.1 canvas.2 canvas origin.

(** The number of label sprites of the node [i] in the scene. *)
Definition spritesOf {P M C : Type} (i : nat) (r : Graph3DRenderer P M C) : nat :=
  length (filter (λ j, j = i) (sceneSprites r)).

(** The vertices [updateLinkPositions] writes for the links [ls]. *)
Definition slotsOf (ls : list Link) : list nat :=
  ls ≫= λ l, [ldata l; ldata l + 1].

(** [L] is [L0] with links added between distinct nodes of [L0], and nothing
    else: the nodes and the handles of the labels are those of [L0]. *)
Definition linksAdded (L0 L : Graph3DLayout) : Prop :=
  reachable L ∧ rtc growStep L0 L
  ∧ nodes (graph L) = nodes (graph L0) ∧ nameToId L = nameToId L0
  ∧ ∃ R, links (graph L) = links (graph L0) ++ R ∧ ∀ l, l ∈ R → fromId l ≠ toId l.

(** ** Example snapshots and layouts *)

Module Examples.

(** [A] links to [B] and [C]. *)
Definition snapABC : MetadataCache :=
  mkMetadataCache [("A", [("B", 1%Z); ("C", 1%Z)])] [].

(** [A] links to [C] only. *)
Definition snapAC : MetadataCache :=
  mkMetadataCache [("A", [("C", 1%Z)])] [].

(** [A] links to [C] and [D]. *)
Definition snapACD : MetadataCache :=
  mkMetadataCache [("A", [("C", 1%Z); ("D", 1%Z)])] [].

(** [A] links to the file [B]; [C] has a link to [B] that does not resolve. *)
Definition snapMixed : MetadataCache :=
  mkMetadataCache [("A", [("B", 1%Z)])] [("C", [("B", 1%Z)])].

(** [A] links to the file [D]; [C] has a link to [B] that does not resolve,
    and nothing else names [B]. *)
Definition snapApart : MetadataCache :=
  mkMetadataCache [("A", [("D", 1%Z)])] [("C", [("B", 1%Z)])].

(** [A] links to [B]. *)
Definition snapAB : MetadataCache :=
  mkMetadataCache [("A", [("B", 1%Z)])] [].

(** The layout of a vault in which [A] links to [B]. *)
Definition layoutAB : Graph3DLayout := fromMetadataCache snapAB Layout.empty.

(** The same vault after a synchronization in which [A] links to [C] only;
    [Layout.empty] stands for an exception, which does not occur. *)
Definition layoutAC : Graph3DLayout :=
  default Layout.empty (syncWithCache snapAC layoutAB).

(** [A] has a link to [constructor] that does not resolve. *)
Definition snapCtor : MetadataCache :=
  mkMetadataCache [("A", [])] [("A", [("constructor", 1%Z)])].

(** [A] has no link. *)
Definition snapNone : MetadataCache :=
  mkMetadataCache [("A", [])] [("A", [])].

(** The layout of a vault in which [A] has the unresolved link to
    [constructor]. *)
Definition layoutCtor : Graph3DLayout := fromMetadataCache snapCtor Layout.empty.

(** The layout of a vault in which [A] links to [B] and [C]. *)
Definition layoutABC : Graph3DLayout := fromMetadataCache snapABC Layout.empty.

(** A renderer before [initializeBuffers]; points, matrices and colours are
    numbers in the examples, the origin is 0, the identity matrix 1 and
    white 255. *)
Definition blank : Graph3DRenderer nat nat nat :=
  mkRenderer (mkInstancedMesh [] None 0) (mkLineSegments [] None) ∅ [] [].

(** A renderer with room for one node and one link, in which node 0 has been
    given the colour 64. *)
Definition rendererOne : Graph3DRenderer nat nat nat :=
  setNodeColor 255 0 64 (initializeBuffers 0 1 1 1 blank).

(** The force layout of [layoutAB]: two bodies. *)
Definition forcesAB : ForceLayout nat :=
  mkForceLayout (graph layoutAB) [(0, 10); (1, 11)] (λ l, (fromId l + 10, toId l + 10)).

(** The force layout of [layoutABC]: three bodies. *)
Definition forcesABC : ForceLayout nat :=
  mkForceLayout (graph layoutABC) [(0, 10); (1, 11); (2, 12)]
                (λ l, (fromId l + 10, toId l + 10)).

(** A host that has no 2D context left. *)
Definition noContext : Host := mkHost false String.length.

(** A host with a 2D context, in which every character is 24 pixels wide. *)
Definition okHost : Host := mkHost true (λ t, 24 * String.length t).

(** A host that has a 2D context for the canvases of the first two nodes
    only. *)
Definition hostOfTwo (i : nat) : Host := if decide (i < 2) then okHost else noContext.

(** A renderer with room for three nodes and two links. *)
Definition rendererABC : Graph3DRenderer nat nat nat := initializeBuffers 0 1 3 2 blank.

End Examples.

(** ** Facts about the graph operations *)

Section graph_facts.
Implicit Types (g : Graph) (n : Node) (l : Link) (i j a b : nat).

Lemma getNode_Some g i n : getNode g i = Some n → n ∈ nodes g ∧ id n = i.
Proof.
  unfold getNode. intros [Hin Hb]%List.find_some.
  apply list_elem_of_In in Hin. by apply bool_decide_eq_true in Hb.
Qed.

Lemma getNode_None g i n : getNode g i = None → n ∈ nodes g → id n ≠ i.
Proof.
  unfold getNode. intros Hnone Hin%list_elem_of_In.
  by apply (List.find_none _ _ Hnone), bool_decide_eq_false in Hin.
Qed.

Lemma getNode_is_Some g i : is_Some (getNode g i) ↔ i ∈ id <$> nodes g.
Proof.
  rewrite list_elem_of_fmap. split.
  - intros [n [??]%getNode_Some]. eauto.
  - intros (n & -> & Hin). destruct (getNode g (id n)) eqn:E; [eauto|].
    by destruct (getNode_None _ _ _ E Hin).
Qed.

Lemma find_app_last {A} (f : A → bool) (xs : list A) (x : A) :
  List.find f (xs ++ [x]) =
  match List.find f xs with Some y => Some y | None => if f x then Some x else None end.
Proof. induction xs as [|y xs IH]; simpl; [done|]. by destruct (f y). Qed.

Lemma find_setData_ne (ns : list Node) i d j :
  j ≠ i →
  find (λ n, bool_decide (id n = j))
       (map (λ n, if decide (id n = i) then mkNode i d else n) ns)
  = find (λ n, bool_decide (id n = j)) ns.
Proof.
  intros Hj. induction ns as [|n ns IH]; simpl; [done|].
  destruct (decide (id n = i)) as [Hn|Hn]; simpl; rewrite IH; [|done].
  by rewrite !(bool_decide_eq_false_2 (_ = j)) by congruence.
Qed.

Lemma find_setData_eq (ns : list Node) i d :
  is_Some (find (λ n, bool_decide (id n = i)) ns) →
  find (λ n, bool_decide (id n = i))
       (map (λ n, if decide (id n = i) then mkNode i d else n) ns)
  = Some (mkNode i d).
Proof.
  induction ns as [|n ns IH]; simpl; [by intros [? [=]]|].
  destruct (decide (id n = i)) as [Hn|Hn]; simpl.
  - intros _. by rewrite bool_decide_eq_true_2.
  - rewrite !bool_decide_eq_false_2 by done. apply IH.
Qed.

Lemma getNode_addNode g i d j :
  getNode (addNode g i d) j = if decide (j = i) then Some (mkNode i d) else getNode g j.
Proof.
  unfold addNode. destruct (getNode g i) as [n0|] eqn:E; unfold getNode in *; simpl.
  - destruct (decide (j = i)) as [->|Hj].
    + apply find_setData_eq. by rewrite E.
    + by apply find_setData_ne.
  - rewrite find_app_last. simpl. destruct (decide (j = i)) as [->|Hj].
    + rewrite E. by rewrite bool_decide_eq_true_2.
    + rewrite bool_decide_eq_false_2 by congruence. by case_match.
Qed.

Lemma ids_addNode g i d :
  id <$> nodes (addNode g i d) =
  if getNode g i is Some _ then id <$> nodes g else (id <$> nodes g) ++ [i].
Proof.
  unfold addNode. destruct (getNode g i); simpl.
  - rewrite <-list_fmap_compose. apply list_fmap_ext. intros ? n' ?. simpl.
    by case_decide.
  - by rewrite fmap_app.
Qed.

Lemma links_addNode g i d : links (addNode g i d) = links g.
Proof. unfold addNode. by destruct (getNode g i). Qed.

Lemma getNodeCount_addNode g i d :
  getNodeCount (addNode g i d) =
  if getNode g i is Some _ then getNodeCount g else S (getNodeCount g).
Proof.
  unfold getNodeCount. rewrite <-(length_fmap id), ids_addNode.
  destruct (getNode g i); rewrite ?length_app, length_fmap; simpl; lia.
Qed.

Lemma ensureNode_id g i : is_Some (getNode g i) → ensureNode g i = g.
Proof. unfold ensureNode. by intros [n ->]. Qed.

Lemma getLink_Some g a b l : getLink g a b = Some l → l ∈ links g ∧ ends l = (a, b).
Proof.
  unfold getLink. intros [Hin Hb]%List.find_some.
  apply list_elem_of_In in Hin. apply bool_decide_eq_true in Hb as [??].
  unfold ends. split; [done|congruence].
Qed.

Lemma getLink_None g a b l : getLink g a b = None → l ∈ links g → ends l ≠ (a, b).
Proof.
  unfold getLink. intros Hnone Hin%list_elem_of_In.
  apply (List.find_none _ _ Hnone), bool_decide_eq_false in Hin.
  unfold sameEnds, ends in *. intros [= ??]. tauto.
Qed.

Lemma getLink_is_Some g a b : is_Some (getLink g a b) ↔ (a, b) ∈ ends <$> links g.
Proof.
  rewrite list_elem_of_fmap. split.
  - intros [l [??]%getLink_Some]. eauto.
  - intros (l & Hl & Hin). destruct (getLink g a b) eqn:E; [eauto|].
    by destruct (getLink_None _ _ _ _ E Hin).
Qed.

Lemma addLink_fresh g a b d :
  is_Some (getNode g a) → is_Some (getNode g b) → getLink g a b = None →
  addLink g a b d = mkGraph (nodes g) (links g ++ [mkLink a b d]).
Proof.
  intros Ha Hb Hl. unfold addLink.
  rewrite (ensureNode_id g a Ha), (ensureNode_id g b Hb), Hl. done.
Qed.

End graph_facts.

(** ** Facts about the layout operations *)

Section layout_facts.
Implicit Types (L : Graph3DLayout) (mc : MetadataCache) (i j a b s t : nat).
Implicit Types (S T lbl : string).

Lemma labelOf_Some L i lbl :
  labelOf L i = Some lbl ↔
  ∃ n d, getNode (graph L) i = Some n ∧ data n = Some d ∧ label d = lbl.
Proof.
  unfold labelOf. split.
  - destruct (getNode (graph L) i) as [n|]; simpl; [|done].
    destruct (data n) as [d|] eqn:E; simpl; [|done]. intros [= <-]. eauto.
  - intros (n & d & -> & Hd & <-). simpl. by rewrite Hd.
Qed.

Lemma labelOf_addOrGetNode node L j :
  labelOf (addOrGetNode node L).2 j =
  if decide (j = (addOrGetNode node L).1) then Some (label node) else labelOf L j.
Proof.
  unfold labelOf, addOrGetNode. simpl. rewrite getNode_addNode.
  by case_decide.
Qed.

Lemma resolvedOf_addOrGetNode node L j :
  resolvedOf (addOrGetNode node L).2 j =
  if decide (j = (addOrGetNode node L).1) then Some (resolved node) else resolvedOf L j.
Proof.
  unfold resolvedOf, addOrGetNode. simpl. rewrite getNode_addNode.
  by case_decide.
Qed.

Lemma links_addOrGetNode node L :
  links (graph (addOrGetNode node L).2) = links (graph L).
Proof. unfold addOrGetNode. simpl. apply links_addNode. Qed.

Lemma ids_addOrGetNode node L :
  id <$> nodes (graph (addOrGetNode node L).2) =
  if getNode (graph L) (addOrGetNode node L).1 is Some _
  then id <$> nodes (graph L)
  else (id <$> nodes (graph L)) ++ [(addOrGetNode node L).1].
Proof. unfold addOrGetNode. simpl. apply ids_addNode. Qed.

Lemma nameToId_addOrGetNode node L :
  nameToId (addOrGetNode node L).2 = <[label node := (addOrGetNode node L).1]> (nameToId L).
Proof. done. Qed.

Lemma wf_getNode L i : wf L → is_Some (getNode (graph L) i) ↔ i < getNodeCount (graph L).
Proof.
  intros HL. rewrite getNode_is_Some, (wf_ids _ HL), elem_of_seq. lia.
Qed.

Lemma wf_labelOf_lt L i lbl : wf L → labelOf L i = Some lbl → i < getNodeCount (graph L).
Proof.
  intros HL (n & d & Hn & _)%labelOf_Some. apply (wf_getNode _ _ HL). eauto.
Qed.

Lemma wf_name_lt L i lbl : wf L → nameToId L !! lbl = Some i → i < getNodeCount (graph L).
Proof. intros HL Hn. eapply wf_labelOf_lt; [done|]. by apply (wf_names _ HL). Qed.

Lemma wf_name_inj L i lbl lbl' :
  wf L → nameToId L !! lbl = Some i → nameToId L !! lbl' = Some i → lbl = lbl'.
Proof.
  intros HL H1%(wf_names _ HL) H2%(wf_names _ HL). congruence.
Qed.

Lemma wf_empty : wf Layout.empty.
Proof.
  split; simpl.
  - done.
  - intros lbl i. rewrite lookup_empty. unfold labelOf. simpl. split; discriminate.
  - unfold getNodeCount. simpl. lia.
  - intros l Hl. by apply elem_of_nil in Hl.
  - constructor.
Qed.

(** A label with a handle: only the flag of its node is written. *)
Lemma addOrGetNode_present node L i :
  wf L → nameToId L !! label node = Some i →
  (addOrGetNode node L).1 = i ∧ sameNodes L (addOrGetNode node L).2.
Proof.
  intros HL Hi.
  assert ((addOrGetNode node L).1 = i) as Hfst by (unfold addOrGetNode; by rewrite Hi).
  split; [done|]. split.
  - rewrite nameToId_addOrGetNode, Hfst. by apply insert_id.
  - unfold addOrGetNode. rewrite Hi. simpl. rewrite ids_addNode.
    assert (is_Some (getNode (graph L) i)) as [n ->]; [|done].
    apply (wf_getNode _ _ HL). by eapply wf_name_lt.
  - intros j. rewrite labelOf_addOrGetNode, Hfst. case_decide; [|done].
    subst. symmetry. by apply (wf_names _ HL).
Qed.

(** A label without a handle gets the node count. *)
Lemma addOrGetNode_absent node L :
  nameToId L !! label node = None →
  (addOrGetNode node L).1 = getNodeCount (graph L).
Proof. intros Hi. unfold addOrGetNode. by rewrite Hi. Qed.

Lemma getNodeCount_addOrGetNode node L :
  wf L →
  getNodeCount (graph (addOrGetNode node L).2) =
  if nameToId L !! label node is Some _ then getNodeCount (graph L)
  else S (getNodeCount (graph L)).
Proof.
  intros HL. unfold addOrGetNode. simpl. rewrite getNodeCount_addNode.
  destruct (nameToId L !! label node) as [i|] eqn:Hi.
  - assert (is_Some (getNode (graph L) i)) as [n ->]; [|done].
    apply (wf_getNode _ _ HL). by eapply wf_name_lt.
  - destruct (getNode (graph L) (getNodeCount (graph L))) eqn:E; [|done].
    assert (getNodeCount (graph L) < getNodeCount (graph L)); [|lia].
    apply (wf_getNode _ _ HL). eauto.
Qed.

Lemma sameNodes_count L L' :
  sameNodes L L' → getNodeCount (graph L') = getNodeCount (graph L).
Proof.
  intros H. unfold getNodeCount.
  by rewrite <-(length_fmap id (nodes (graph L'))), (same_ids _ _ H), length_fmap.
Qed.

Lemma sameNodes_refl L : sameNodes L L.
Proof. by split. Qed.

Lemma sameNodes_trans L1 L2 L3 : sameNodes L1 L2 → sameNodes L2 L3 → sameNodes L1 L3.
Proof.
  intros [H1 H2 H3] [H4 H5 H6]. split; [congruence..|]. intros i. by rewrite H6, H3.
Qed.

(** Well-formedness only depends on the handles, the labels and the links. *)
Lemma wf_sameNodes L L' :
  wf L → sameNodes L L' →
  (∀ l, l ∈ links (graph L') →
     fromId l < getNodeCount (graph L) ∧ toId l < getNodeCount (graph L)) →
  NoDup (ends <$> links (graph L')) →
  wf L'.
Proof.
  intros HL HS Hcl Hnd. pose proof (sameNodes_count _ _ HS) as Hc.
  split.
  - rewrite Hc, (same_ids _ _ HS). apply (wf_ids _ HL).
  - intros lbl i. rewrite (same_names _ _ HS), (same_labels _ _ HS). apply (wf_names _ HL).
  - intros i. rewrite Hc, (same_labels _ _ HS). apply (wf_data _ HL).
  - rewrite Hc. done.
  - done.
Qed.

Lemma addOrGetNode_wf node L : wf L → wf (addOrGetNode node L).2.
Proof.
  intros HL. destruct (nameToId L !! label node) as [i|] eqn:Hi.
  - destruct (addOrGetNode_present _ _ _ HL Hi) as [_ HS].
    apply (wf_sameNodes L); [done..| | ]; rewrite links_addOrGetNode;
      [apply (wf_closed _ HL) | apply (wf_nodup _ HL)].
  - pose proof (addOrGetNode_absent _ _ Hi) as Hfst.
    pose proof (getNodeCount_addOrGetNode node L HL) as Hc. rewrite Hi in Hc.
    split.
    + rewrite Hc, ids_addOrGetNode, Hfst.
      destruct (getNode (graph L) (getNodeCount (graph L))) eqn:E.
      * assert (getNodeCount (graph L) < getNodeCount (graph L)); [|lia].
        apply (wf_getNode _ _ HL). eauto.
      * rewrite (wf_ids _ HL). by rewrite seq_S.
    + intros lbl j. rewrite nameToId_addOrGetNode, labelOf_addOrGetNode, Hfst.
      rewrite lookup_insert_Some. case_decide as Hj.
      * subst j. split.
        -- intros [[-> _]|[_ Hlt%(wf_name_lt _ _ _ HL)]]; [done|lia].
        -- intros [= ->]. by left.
      * rewrite <-(wf_names _ HL). split.
        -- intros [[_ ?]|[_ ?]]; [done|done].
        -- intros Hn. right. split; [|done]. intros Heq. congruence.
    + intros j Hj. rewrite labelOf_addOrGetNode, Hfst. case_decide; [done|].
      apply (wf_data _ HL). lia.
    + rewrite links_addOrGetNode, Hc. intros l Hl.
      destruct (wf_closed _ HL l Hl). lia.
    + rewrite links_addOrGetNode. apply (wf_nodup _ HL).
Qed.

Lemma link_spec a b L :
  wf L → a < getNodeCount (graph L) → b < getNodeCount (graph L) →
  link a b L =
  if getLink (graph L) a b is Some _ then L
  else mkLayout (nameToId L)
         (mkGraph (nodes (graph L))
                  (links (graph L) ++ [mkLink a b (2 * getLinkCount (graph L))])).
Proof.
  intros HL Ha Hb. unfold link, hasLink.
  destruct (getLink (graph L) a b) eqn:E; [done|].
  rewrite addLink_fresh; [done|by apply (wf_getNode _ _ HL)..|done].
Qed.

Lemma link_sameNodes a b L :
  wf L → a < getNodeCount (graph L) → b < getNodeCount (graph L) →
  sameNodes L (link a b L).
Proof.
  intros HL Ha Hb. rewrite link_spec by done.
  destruct (getLink (graph L) a b); by split.
Qed.

Lemma link_links a b L :
  wf L → a < getNodeCount (graph L) → b < getNodeCount (graph L) →
  links (graph (link a b L)) =
  links (graph L) ++
  (if getLink (graph L) a b is Some _ then []
   else [mkLink a b (2 * getLinkCount (graph L))]).
Proof.
  intros HL Ha Hb. rewrite link_spec by done.
  destruct (getLink (graph L) a b); simpl; by rewrite ?app_nil_r.
Qed.

Lemma link_wf a b L :
  wf L → a < getNodeCount (graph L) → b < getNodeCount (graph L) →
  wf (link a b L).
Proof.
  intros HL Ha Hb. apply (wf_sameNodes L); [done|by apply link_sameNodes|..].
  - rewrite link_links by done. intros l [Hl|Hl]%elem_of_app.
    + by apply (wf_closed _ HL).
    + destruct (getLink (graph L) a b); [by apply elem_of_nil in Hl|].
      apply list_elem_of_singleton in Hl as ->. done.
  - rewrite link_links by done. destruct (getLink (graph L) a b) eqn:E.
    + rewrite app_nil_r. apply (wf_nodup _ HL).
    + rewrite fmap_app. apply NoDup_app. split; [apply (wf_nodup _ HL)|].
      split; [|apply NoDup_singleton].
      intros e (l & -> & Hl)%list_elem_of_fmap Hin.
      apply list_elem_of_singleton in Hin. by eapply getLink_None.
Qed.

Lemma link_linked a b L :
  wf L → a < getNodeCount (graph L) → b < getNodeCount (graph L) →
  linked (link a b L) a b.
Proof.
  intros HL Ha Hb. unfold linked. destruct (getLink (graph L) a b) eqn:E.
  - rewrite link_spec, E by done. by rewrite E.
  - apply getLink_is_Some. rewrite link_links, E, fmap_app by done.
    apply elem_of_app. right. by apply list_elem_of_singleton.
Qed.

Lemma linked_app L L' R a b :
  links (graph L') = links (graph L) ++ R → linked L a b → linked L' a b.
Proof.
  unfold linked. rewrite !getLink_is_Some. intros ->. rewrite fmap_app, elem_of_app. auto.
Qed.

Lemma ext_refl Lab Pr L : ext Lab Pr L L.
Proof.
  split; [done|done| |intros _; apply sameNodes_refl].
  exists []. split; [by rewrite app_nil_r|]. intros r Hr. by apply elem_of_nil in Hr.
Qed.

Lemma ext_trans (Lab1 Lab2 Lab : string → Prop) (Pr1 Pr2 Pr : string → string → Prop)
    L1 L2 L3 :
  (∀ x, Lab1 x → Lab x) → (∀ x, Lab2 x → Lab x) →
  (∀ x y, Pr1 x y → Pr x y) → (∀ x y, Pr2 x y → Pr x y) →
  ext Lab1 Pr1 L1 L2 → ext Lab2 Pr2 L2 L3 → ext Lab Pr L1 L3.
Proof.
  intros HLab1 HLab2 HPr1 HPr2 [Hn1 Hc1 (R1 & Hl1 & HR1) Hs1] [Hn2 Hc2 (R2 & Hl2 & HR2) Hs2].
  split.
  - by etrans.
  - lia.
  - exists (R1 ++ R2). split; [by rewrite Hl2, Hl1, app_assoc|].
    intros r [Hr|Hr]%elem_of_app.
    + destruct (HR1 r Hr) as [Hev (S & T & HP & HS & HT)]. split; [done|].
      exists S, T. split; [auto|]. split; by eapply lookup_weaken.
    + destruct (HR2 r Hr) as [Hev (S & T & HP & HS & HT)]. split; [done|].
      exists S, T. auto.
  - intros Hall. assert (sameNodes L1 L2) as H12 by auto.
    apply (sameNodes_trans _ L2); [done|]. apply Hs2.
    intros lbl Hlbl. rewrite (same_names _ _ H12). auto.
Qed.

Lemma linkedNames_ext Lab Pr L L' S T :
  ext Lab Pr L L' → linkedNames L S T → linkedNames L' S T.
Proof.
  intros [Hn _ (R & Hl & _) _] (s & t & HS & HT & Hlk).
  exists s, t. split; [by eapply lookup_weaken|]. split; [by eapply lookup_weaken|].
  by eapply linked_app.
Qed.

Lemma addOrGetNode_ext node L :
  wf L → ext (λ x, x = label node) (λ _ _, False) L (addOrGetNode node L).2.
Proof.
  intros HL. split.
  - rewrite nameToId_addOrGetNode. destruct (nameToId L !! label node) as [i|] eqn:Hi.
    + destruct (addOrGetNode_present _ _ _ HL Hi) as [-> _]. by rewrite insert_id.
    + by apply insert_subseteq.
  - rewrite getNodeCount_addOrGetNode by done. case_match; lia.
  - exists []. rewrite links_addOrGetNode, app_nil_r. split; [done|].
    intros r Hr. by apply elem_of_nil in Hr.
  - intros Hall. destruct (Hall (label node) eq_refl) as [i Hi].
    by destruct (addOrGetNode_present _ _ _ HL Hi).
Qed.

Lemma link_ext a b L S T :
  wf L → nameToId L !! S = Some a → nameToId L !! T = Some b →
  ext (λ _, False) (λ S' T', S' = S ∧ T' = T) L (link a b L).
Proof.
  intros HL HS HT.
  pose proof (wf_name_lt _ _ _ HL HS) as Ha. pose proof (wf_name_lt _ _ _ HL HT) as Hb.
  pose proof (link_sameNodes a b L HL Ha Hb) as Hsame.
  split.
  - by rewrite (same_names _ _ Hsame).
  - by rewrite (sameNodes_count _ _ Hsame).
  - eexists. split; [by apply link_links|].
    intros r Hr. destruct (getLink (graph L) a b); [by apply elem_of_nil in Hr|].
    apply list_elem_of_singleton in Hr as ->. split; [by eexists|].
    exists S, T. by rewrite (same_names _ _ Hsame).
  - done.
Qed.

(** *** Resolved flags *)

Lemma marked_addOrGetNode_same node L :
  resolved node = true → marked (addOrGetNode node L).2 (label node).
Proof.
  intros Hr. exists (addOrGetNode node L).1. split.
  - rewrite nameToId_addOrGetNode. apply lookup_insert_eq.
  - rewrite resolvedOf_addOrGetNode, decide_True by done. by rewrite Hr.
Qed.

Lemma marked_addOrGetNode_other node L lbl :
  wf L → label node ≠ lbl → marked L lbl → marked (addOrGetNode node L).2 lbl.
Proof.
  intros HL Hne (i & Hi & Hr). exists i. split.
  - rewrite nameToId_addOrGetNode. by rewrite lookup_insert_ne.
  - rewrite resolvedOf_addOrGetNode. case_decide as Hfst; [|done]. exfalso.
    destruct (nameToId L !! label node) as [j|] eqn:Hj.
    + destruct (addOrGetNode_present _ _ _ HL Hj) as [Hj' _].
      apply Hne. eapply wf_name_inj; [done..|]. congruence.
    + rewrite (addOrGetNode_absent _ _ Hj) in Hfst.
      pose proof (wf_name_lt _ _ _ HL Hi). lia.
Qed.

Lemma marked_addOrGetNode node L lbl :
  wf L → resolved node = true ∨ label node ≠ lbl →
  marked L lbl → marked (addOrGetNode node L).2 lbl.
Proof.
  intros HL Hok Hm. destruct (decide (label node = lbl)) as [<-|Hne].
  - destruct Hok as [Hr|?]; [|done]. by apply marked_addOrGetNode_same.
  - by apply marked_addOrGetNode_other.
Qed.

Lemma marked_same_graph L L' lbl :
  nameToId L' = nameToId L → nodes (graph L') = nodes (graph L) →
  marked L lbl → marked L' lbl.
Proof.
  intros Hn Hg (i & Hi & Hr). exists i. rewrite Hn. split; [done|].
  unfold resolvedOf, getNode in *. by rewrite Hg.
Qed.

Lemma marked_link a b L lbl :
  wf L → a < getNodeCount (graph L) → b < getNodeCount (graph L) →
  marked L lbl → marked (link a b L) lbl.
Proof.
  intros HL Ha Hb. rewrite link_spec by done.
  destruct (getLink (graph L) a b); [done|]. by apply marked_same_graph.
Qed.

(** *** The loops of [addLinks] *)

Lemma addTarget_spec r s L S T :
  wf L → nameToId L !! S = Some s →
  wf (addTarget r s L T)
  ∧ ext (λ x, x = T) (λ S' T', S' = S ∧ T' = T) L (addTarget r s L T)
  ∧ linkedNames (addTarget r s L T) S T
  ∧ (r = true → marked (addTarget r s L T) T)
  ∧ (∀ lbl, r = true ∨ T ≠ lbl → marked L lbl → marked (addTarget r s L T) lbl).
Proof.
  intros HL HS.
  change (addTarget r s L T) with
    (link s (addOrGetNode (mkGraphNode T r) L).1 (addOrGetNode (mkGraphNode T r) L).2).
  set (node := mkGraphNode T r).
  pose proof (addOrGetNode_wf node L HL) as HL1.
  pose proof (addOrGetNode_ext node L HL) as He1.
  assert (nameToId (addOrGetNode node L).2 !! S = Some s) as HS1
    by (eapply lookup_weaken; [done|apply He1]).
  assert (nameToId (addOrGetNode node L).2 !! T = Some (addOrGetNode node L).1) as HT1
    by (rewrite nameToId_addOrGetNode; apply lookup_insert_eq).
  pose proof (wf_name_lt _ _ _ HL1 HS1) as Hs. pose proof (wf_name_lt _ _ _ HL1 HT1) as Ht.
  pose proof (link_ext _ _ _ _ _ HL1 HS1 HT1) as He2.
  split; [by apply link_wf|]. split; [|split; [|split]].
  - eapply ext_trans; [| | | |apply He1|apply He2]; simpl; tauto.
  - exists s, (addOrGetNode node L).1.
    split; [by eapply lookup_weaken; [|apply He2]|].
    split; [by eapply lookup_weaken; [|apply He2]|].
    by apply link_linked.
  - intros Hr. apply marked_link; [done..|]. by apply (marked_addOrGetNode_same node).
  - intros lbl Hok Hm. apply marked_link; [done..|]. by apply marked_addOrGetNode.
Qed.

Lemma addTargets_spec r s S Ts L :
  wf L → nameToId L !! S = Some s →
  wf (foldl (addTarget r s) L Ts)
  ∧ ext (λ x, x ∈ Ts) (λ S' T', S' = S ∧ T' ∈ Ts) L (foldl (addTarget r s) L Ts)
  ∧ (∀ T, T ∈ Ts → linkedNames (foldl (addTarget r s) L Ts) S T)
  ∧ (∀ lbl, r = true ∨ lbl ∉ Ts → marked L lbl ∨ lbl ∈ Ts →
       marked (foldl (addTarget r s) L Ts) lbl).
Proof.
  revert L. induction Ts as [|T Ts IH]; intros L HL HS; simpl.
  - split; [done|]. split; [apply ext_refl|]. split.
    + intros T HT. by apply elem_of_nil in HT.
    + intros lbl _ [?|HT]; [done|]. by apply elem_of_nil in HT.
  - destruct (addTarget_spec r s L S T HL HS) as (HL1 & He1 & Hk1 & Hm1 & Hm1').
    assert (nameToId (addTarget r s L T) !! S = Some s) as HS1
      by (eapply lookup_weaken; [done|apply He1]).
    destruct (IH _ HL1 HS1) as (HL2 & He2 & Hk2 & Hm2).
    split; [done|]. split; [|split].
    + eapply ext_trans; [| | | |apply He1|apply He2]; simpl.
      * intros x ->. apply elem_of_cons. by left.
      * intros x ?. apply elem_of_cons. by right.
      * intros x y [-> ->]. split; [done|]. apply elem_of_cons. by left.
      * intros x y [-> ?]. split; [done|]. apply elem_of_cons. by right.
    + intros T' [->|HT']%elem_of_cons; [|auto]. by eapply linkedNames_ext.
    + intros lbl Hok Hm. apply Hm2.
      * destruct Hok as [?|Hnot]; [by left|]. right. intros ?. apply Hnot, elem_of_cons. by right.
      * destruct Hm as [Hm|[->|Hin]%elem_of_cons]; [| |by right].
        -- left. apply Hm1'; [|done]. destruct Hok as [?|Hnot]; [by left|].
           right. intros ->. apply Hnot, elem_of_cons. by left.
        -- destruct Hok as [Hr|Hnot]; [left; auto|].
           exfalso. apply Hnot, elem_of_cons. by left.
Qed.

Lemma addSource_spec r L S ts :
  wf L →
  wf (addSource r L (S, ts))
  ∧ ext (λ x, x = S ∨ x ∈ JS.keys ts) (λ S' T', S' = S ∧ T' ∈ JS.keys ts)
        L (addSource r L (S, ts))
  ∧ is_Some (nameToId (addSource r L (S, ts)) !! S)
  ∧ (∀ T, T ∈ JS.keys ts → linkedNames (addSource r L (S, ts)) S T)
  ∧ (∀ lbl, r = true ∨ lbl ∉ JS.keys ts →
       marked L lbl ∨ lbl = S ∨ lbl ∈ JS.keys ts →
       marked (addSource r L (S, ts)) lbl).
Proof.
  intros HL.
  change (addSource r L (S, ts)) with
    (foldl (addTarget r (addOrGetNode (mkGraphNode S true) L).1)
           (addOrGetNode (mkGraphNode S true) L).2 (JS.keys ts)).
  set (node := mkGraphNode S true).
  pose proof (addOrGetNode_wf node L HL) as HL1.
  pose proof (addOrGetNode_ext node L HL) as He1.
  assert (nameToId (addOrGetNode node L).2 !! S = Some (addOrGetNode node L).1) as HS1
    by (rewrite nameToId_addOrGetNode; apply lookup_insert_eq).
  destruct (addTargets_spec r _ S (JS.keys ts) _ HL1 HS1) as (HL2 & He2 & Hk2 & Hm2).
  split; [done|]. split; [|split; [|split; [done|]]].
  - eapply ext_trans; [| | | |apply He1|apply He2]; simpl; tauto.
  - exists (addOrGetNode node L).1. eapply lookup_weaken; [done|apply He2].
  - intros lbl Hok Hm. apply Hm2; [done|].
    destruct Hm as [Hm|[->|Hin]]; [| |by right].
    + left. apply marked_addOrGetNode; [done|by left|done].
    + left. by apply (marked_addOrGetNode_same node).
Qed.

Lemma addLinks_spec r lnks L :
  wf L →
  wf (addLinks lnks r L)
  ∧ ext (λ x, ∃ S ts, (S, ts) ∈ lnks ∧ (x = S ∨ x ∈ JS.keys ts))
        (λ S T, ∃ ts, (S, ts) ∈ lnks ∧ T ∈ JS.keys ts)
        L (addLinks lnks r L)
  ∧ (∀ S ts, (S, ts) ∈ lnks →
      is_Some (nameToId (addLinks lnks r L) !! S)
      ∧ ∀ T, T ∈ JS.keys ts → linkedNames (addLinks lnks r L) S T)
  ∧ (∀ lbl, (r = true ∨ ∀ S ts, (S, ts) ∈ lnks → lbl ∉ JS.keys ts) →
       (marked L lbl ∨ ∃ S ts, (S, ts) ∈ lnks ∧ (lbl = S ∨ lbl ∈ JS.keys ts)) →
       marked (addLinks lnks r L) lbl).
Proof.
  unfold addLinks. revert L. induction lnks as [|[S0 ts0] lnks IH]; intros L HL; simpl.
  - split; [done|]. split; [apply ext_refl|]. split.
    + intros S ts H. by apply elem_of_nil in H.
    + intros lbl _ [?|(S & ts & H & _)]; [done|]. by apply elem_of_nil in H.
  - destruct (addSource_spec r L S0 ts0 HL) as (HL1 & He1 & Hs1 & Hk1 & Hm1).
    destruct (IH _ HL1) as (HL2 & He2 & Hk2 & Hm2).
    split; [done|]. split; [|split].
    + eapply ext_trans; [| | | |apply He1|apply He2]; simpl.
      * intros x Hx. exists S0, ts0. split; [apply elem_of_cons; by left|done].
      * intros x (S & ts & Hin & Hx). exists S, ts. split; [apply elem_of_cons; by right|done].
      * intros x y [-> Hy]. exists ts0. split; [apply elem_of_cons; by left|done].
      * intros x y (ts & Hin & Hy). exists ts. split; [apply elem_of_cons; by right|done].
    + intros S ts [[= -> ->]|Hin]%elem_of_cons; [|by apply Hk2]. split.
      * destruct Hs1 as [s Hs]. exists s. eapply lookup_weaken; [done|apply He2].
      * intros T HT. eapply linkedNames_ext; [done|auto].
    + intros lbl Hok Hm. apply Hm2.
      { destruct Hok as [?|Hnot]; [by left|].
        right. intros S ts Hin. apply (Hnot S ts), elem_of_cons. by right. }
      assert (r = true ∨ lbl ∉ JS.keys ts0) as Hok0.
      { destruct Hok as [?|Hnot]; [by left|].
        right. apply (Hnot S0 ts0), elem_of_cons. by left. }
      destruct Hm as [Hm|(S & ts & [[= -> ->]|Hin]%elem_of_cons & Hlbl)].
      * left. apply Hm1; auto.
      * left. apply Hm1; auto.
      * right. eauto.
Qed.

Lemma fromMetadataCache_spec mc L :
  wf L →
  wf (fromMetadataCache mc L)
  ∧ ext (labelIn mc) (pairIn mc) L (fromMetadataCache mc L)
  ∧ (∀ lbl, labelIn mc lbl → is_Some (nameToId (fromMetadataCache mc L) !! lbl))
  ∧ (∀ S T, pairIn mc S T → linkedNames (fromMetadataCache mc L) S T)
  ∧ (∀ lbl, ¬ unresolvedTargetIn mc lbl →
       marked L lbl ∨ resolvedTargetIn mc lbl ∨ sourceIn mc lbl →
       marked (fromMetadataCache mc L) lbl).
Proof.
  intros HL. unfold fromMetadataCache.
  destruct (addLinks_spec true (resolvedLinks mc) L HL) as (HL1 & He1 & Hk1 & Hm1).
  destruct (addLinks_spec false (unresolvedLinks mc) _ HL1) as (HL2 & He2 & Hk2 & Hm2).
  set (L1 := addLinks (resolvedLinks mc) true L) in *.
  set (L2 := addLinks (unresolvedLinks mc) false L1) in *.
  assert (∀ S T, pairIn mc S T → linkedNames L2 S T) as Hpairs.
  { intros S T (ts & [Hin|Hin] & HT).
    - eapply linkedNames_ext; [done|]. by apply (Hk1 S ts).
    - by apply (Hk2 S ts). }
  split; [done|]. split; [|split; [|split; [done|]]].
  - eapply ext_trans; [| | | |apply He1|apply He2]; simpl.
    + intros x (S & ts & ? & ?). exists S, ts. auto.
    + intros x (S & ts & ? & ?). exists S, ts. auto.
    + intros x y (ts & ? & ?). exists ts. auto.
    + intros x y (ts & ? & ?). exists ts. auto.
  - intros lbl (S & ts & Hin & [->|HT]).
    + destruct Hin as [Hin|Hin].
      * destruct (Hk1 S ts Hin) as [[s Hs] _]. exists s.
        eapply lookup_weaken; [done|apply He2].
      * by destruct (Hk2 S ts Hin) as [? _].
    + destruct (Hpairs S lbl) as (s & t & _ & Ht & _); [by exists ts|]. eauto.
  - intros lbl Hun Hm. apply Hm2.
    + right. intros S ts Hin HT. apply Hun. by exists S, ts.
    + destruct Hm as [Hm|[(S & ts & Hin & HT)|(ts & [Hin|Hin])]].
      * left. apply Hm1; auto.
      * left. apply Hm1; [by left|]. right. exists S, ts. auto.
      * left. apply Hm1; [by left|]. right. exists lbl, ts. auto.
      * right. exists lbl, ts. auto.
Qed.

(** *** The loop of [syncWithCache] *)

Lemma filter_ext_in {A} (P Q : A → Prop) `{!∀ x, Decision (P x), !∀ x, Decision (Q x)}
    (xs : list A) :
  (∀ x, x ∈ xs → P x ↔ Q x) → filter P xs = filter Q xs.
Proof.
  induction xs as [|x xs IH]; intros HPQ; [done|].
  rewrite !filter_cons.
  rewrite IH by (intros y Hy; apply HPQ, elem_of_cons; by right).
  assert (P x ↔ Q x) as Hx by (apply HPQ, elem_of_cons; by left).
  destruct (decide (P x)) as [HP|HP], (decide (Q x)) as [HQ|HQ]; tauto.
Qed.

Lemma NoDup_fmap_filter {A B} (f : A → B) (P : A → Prop) `{!∀ x, Decision (P x)}
    (xs : list A) :
  NoDup (f <$> xs) → NoDup (f <$> filter P xs).
Proof.
  induction xs as [|x xs IH]; [done|]. rewrite filter_cons. simpl.
  intros [Hx Hxs]%NoDup_cons. case_decide; [|auto]. simpl.
  apply NoDup_cons. split; [|auto].
  intros (y & Hy & [_ Hin]%list_elem_of_filter)%list_elem_of_fmap.
  apply Hx, list_elem_of_fmap. eauto.
Qed.

Lemma JS_get_Some {V} (o : JS.record V) k v : JS.get o k = Some v → (k, v) ∈ o.
Proof.
  induction o as [|[k' v'] o IH]; simpl; [done|]. case_decide.
  - intros [= ->]. subst. apply elem_of_cons. by left.
  - intros ?. apply elem_of_cons. right. auto.
Qed.

Lemma JS_get_or_empty_keys {V} (o : JS.record (JS.record V)) S T :
  T ∈ JS.keys (JS.get_or_empty o S) → ∃ ts, (S, ts) ∈ o ∧ T ∈ JS.keys ts.
Proof.
  unfold JS.get_or_empty. destruct (JS.get o S) as [ts|] eqn:E; simpl.
  - intros ?. exists ts. split; [by apply JS_get_Some|done].
  - intros H. by apply elem_of_nil in H.
Qed.

Lemma nodeHandler_spec rt ut L l T :
  labelOf L (toId l) = Some T →
  nodeHandler rt ut L l =
  Some (if JS.truthy_string T && negb (JS.spread_truthy rt ut T)
        then mkLayout (nameToId L) (removeLink (graph L) l) else L).
Proof.
  intros (n & d & Hn & Hd & <-)%labelOf_Some. unfold nodeHandler.
  rewrite Hn. simpl. destruct (getNode_Some _ _ _ Hn) as [_ ->].
  rewrite Hn, Hd. simpl. by case_match.
Qed.

(** The removal pass: the links it is run on leave the graph when they are
    stale, nothing else changes. *)
Lemma removal_spec rt ut lab xs L :
  (∀ i, labelOf L i = lab i) →
  (∀ x, x ∈ xs → is_Some (lab (toId x))) →
  ∃ L', forEachM (nodeHandler rt ut) L xs = Some L'
    ∧ nameToId L' = nameToId L
    ∧ nodes (graph L') = nodes (graph L)
    ∧ links (graph L') =
      filter (λ l', Forall (λ x, staleTarget rt ut lab x = true
                                 → ¬ sameEnds (fromId x) (toId x) l') xs)
             (links (graph L)).
Proof.
  revert L. induction xs as [|x xs IH]; intros L Hlab Hxs; simpl.
  - exists L. split; [done|]. split; [done|]. split; [done|].
    symmetry. rewrite (filter_ext_in _ (λ _, True)); [|by split].
    induction (links (graph L)) as [|l ls IHl]; [done|].
    by rewrite filter_cons_True, IHl.
  - destruct (Hxs x) as [T HT]; [apply elem_of_cons; by left|].
    rewrite (nodeHandler_spec rt ut L x T) by (by rewrite Hlab). simpl.
    set (L1 := if JS.truthy_string T && negb (JS.spread_truthy rt ut T)
               then mkLayout (nameToId L) (removeLink (graph L) x) else L).
    assert (nameToId L1 = nameToId L ∧ nodes (graph L1) = nodes (graph L)) as [Hn1 Hg1]
      by (unfold L1; by case_match).
    destruct (IH L1) as (L' & Hrun & Hn & Hg & Hl).
    { intros i. rewrite <-Hlab. unfold labelOf, getNode. by rewrite Hg1. }
    { intros y Hy. apply Hxs, elem_of_cons. by right. }
    exists L'. split; [done|]. split; [congruence|]. split; [congruence|].
    assert (staleTarget rt ut lab x
            = JS.truthy_string T && negb (JS.spread_truthy rt ut T)) as Hst
      by (unfold staleTarget; by rewrite HT).
    rewrite Hl. unfold L1.
    destruct (JS.truthy_string T && negb (JS.spread_truthy rt ut T)); simpl.
    + rewrite list_filter_filter. apply list_filter_iff. intros l'.
      rewrite Forall_cons, Hst. split.
      * intros [HF Hne]. split; [by intros _|done].
      * intros [Hx HF]. split; [done|by apply Hx].
    + apply list_filter_iff. intros l'. rewrite Forall_cons, Hst. split.
      * intros HF. split; [intros [=]|done].
      * by intros [_ HF].
Qed.

Lemma getLink_addOrGetNode node L a b :
  getLink (graph (addOrGetNode node L).2) a b = getLink (graph L) a b.
Proof. unfold getLink. by rewrite links_addOrGetNode. Qed.

(** A target that has a handle and a link from the source: only its flag is
    written. *)
Lemma syncTarget_present r s L T t :
  wf L → nameToId L !! T = Some t → linked L s t →
  syncTarget r s L T = (addOrGetNode (mkGraphNode T r) L).2.
Proof.
  intros HL HT [l Hl].
  set (node := mkGraphNode T r).
  change (syncTarget r s L T) with
    (match hasLink (graph (addOrGetNode node L).2) s (addOrGetNode node L).1 with
     | Some _ => (addOrGetNode node L).2
     | None => link s (addOrGetNode node L).1 (addOrGetNode node L).2
     end).
  destruct (addOrGetNode_present node L t HL HT) as [-> _].
  unfold hasLink. by rewrite getLink_addOrGetNode, Hl.
Qed.

Lemma syncTargets_present r s Ts L :
  wf L → (∀ T, T ∈ Ts → ∃ t, nameToId L !! T = Some t ∧ linked L s t) →
  wf (foldl (syncTarget r s) L Ts)
  ∧ sameNodes L (foldl (syncTarget r s) L Ts)
  ∧ links (graph (foldl (syncTarget r s) L Ts)) = links (graph L)
  ∧ (∀ lbl, r = true ∨ lbl ∉ Ts → marked L lbl →
       marked (foldl (syncTarget r s) L Ts) lbl).
Proof.
  revert L. induction Ts as [|T Ts IH]; intros L HL HTs; simpl.
  - split; [done|]. split; [apply sameNodes_refl|done].
  - destruct (HTs T) as (t & HT & Hlk); [apply elem_of_cons; by left|].
    rewrite (syncTarget_present r s L T t) by done.
    set (node := mkGraphNode T r).
    pose proof (addOrGetNode_wf node L HL) as HL1.
    destruct (addOrGetNode_present node L t HL HT) as [_ Hsame].
    destruct (IH (addOrGetNode node L).2) as (HL2 & Hsame2 & Hlinks & Hm2); [done| |].
    { intros T' HT'. destruct (HTs T') as (t' & Ht' & Hlk'); [apply elem_of_cons; by right|].
      exists t'. rewrite (same_names _ _ Hsame). split; [done|].
      unfold linked. by rewrite getLink_addOrGetNode. }
    split; [done|]. split; [by eapply sameNodes_trans|]. split.
    + by rewrite Hlinks, links_addOrGetNode.
    + intros lbl Hok Hm. apply Hm2.
      * destruct Hok as [?|Hnot]; [by left|].
        right. intros ?. apply Hnot, elem_of_cons. by right.
      * apply marked_addOrGetNode; [done| |done].
        destruct Hok as [?|Hnot]; [by left|].
        right. simpl. intros ->. apply Hnot, elem_of_cons. by left.
Qed.

Section sync_loop.
Context (mc : MetadataCache) (L1 : Graph3DLayout).
Context (HL1 : wf L1).
Context (Hpairs : ∀ S T, pairIn mc S T → linkedNames L1 S T).

Lemma syncNode_step visited L s :
  loopInv mc L1 visited L → s < getNodeCount (graph L1) → s ∉ visited →
  ∃ L', syncNode mc L s = Some L' ∧ loopInv mc L1 (s :: visited) L'.
Proof using HL1 Hpairs.
  intros (HL & Hsame & Hlinks & Hmark) Hs Hnew.
  destruct (wf_data _ HL1 s Hs) as [S HS].
  assert (labelOf L s = Some S) as HSL by (by rewrite (same_labels _ _ Hsame)).
  destruct (proj1 (labelOf_Some _ _ _) HSL) as (source & d & Hsrc & Hd & Hlbl).
  destruct (getNode_Some _ _ _ Hsrc) as [_ Hid].
  unfold syncNode. rewrite Hsrc. simpl. rewrite Hd. simpl. rewrite Hlbl, Hid.
  set (rt := JS.get_or_empty (resolvedLinks mc) S).
  set (ut := JS.get_or_empty (unresolvedLinks mc) S).
  assert (∀ L0 T, sameNodes L1 L0 → links (graph L0) = links (graph L) →
            T ∈ JS.keys rt ∨ T ∈ JS.keys ut →
            ∃ t, nameToId L0 !! T = Some t ∧ linked L0 s t) as Hpresent.
  { intros L0 T Hsame0 Hlinks0 HT.
    assert (pairIn mc S T) as HP.
    { destruct HT as [(ts & ? & ?)%JS_get_or_empty_keys|(ts & ? & ?)%JS_get_or_empty_keys];
        exists ts; auto. }
    destruct (Hpairs S T HP) as (s' & t & Hs' & Ht & Hlk).
    assert (s' = s) as -> by (apply (wf_names _ HL1) in HS; congruence).
    exists t. rewrite (same_names _ _ Hsame0). split; [done|].
    unfold linked in *. apply getLink_is_Some. rewrite Hlinks0, Hlinks.
    destruct Hlk as [l [Hl Hends]%getLink_Some].
    apply list_elem_of_fmap. exists l. split; [done|].
    apply list_elem_of_filter. split; [|done].
    intros Hin. inversion Hends. congruence. }
  destruct (syncTargets_present true s (JS.keys rt) L HL) as (HLa & Hsa & Hla & Hma).
  { intros T HT. apply Hpresent; auto. }
  set (La := foldl (syncTarget true s) L (JS.keys rt)) in *.
  destruct (syncTargets_present false s (JS.keys ut) La HLa) as (HLb & Hsb & Hlb & Hmb).
  { intros T HT. apply Hpresent; [by eapply sameNodes_trans|done|auto]. }
  set (Lb := foldl (syncTarget false s) La (JS.keys ut)) in *.
  assert (sameNodes L1 Lb) as Hsame_b
    by (eapply sameNodes_trans; [|done]; by eapply sameNodes_trans).
  assert (links (graph Lb) = links (graph L)) as Hlinks_b by congruence.
  assert (getNodeCount (graph Lb) = getNodeCount (graph L1)) as Hcount_b
    by (by apply sameNodes_count).
  destruct (removal_spec rt ut (labelOf L1) (outgoing (graph Lb) s) Lb)
    as (L' & Hrun & Hn & Hg & Hl).
  { intros i. apply (same_labels _ _ Hsame_b). }
  { intros x [_ Hx]%list_elem_of_filter. apply (wf_data _ HL1).
    rewrite <-Hcount_b. by apply (wf_closed _ HLb). }
  exists L'. split; [done|].
  assert (sameNodes Lb L') as Hsame'.
  { split; [done|by rewrite Hg|]. intros i. unfold labelOf, getNode. by rewrite Hg. }
  assert (links (graph L') =
          filter (λ l, fromId l ∈ s :: visited → kept mc (labelOf L1) l)
                 (links (graph L1))) as Hlinks'.
  { rewrite Hl, Hlinks_b, Hlinks, list_filter_filter.
    apply filter_ext_in. intros l Hl1.
    assert (fromId l = s → staleTarget rt ut (labelOf L1) l = staleLink mc (labelOf L1) l)
      as Hstale.
    { intros Hf. unfold staleTarget, staleLink. rewrite Hf, HS. done. }
    rewrite Forall_forall. unfold kept. split.
    - intros [Hall Hvis] [Heq|Hin]%elem_of_cons; [|auto].
      destruct (staleLink mc (labelOf L1) l) eqn:E; [|done]. exfalso.
      apply (Hall l); [|by rewrite Hstale|by split].
      unfold outgoing. apply list_elem_of_filter. split; [done|].
      rewrite Hlinks_b, Hlinks. apply list_elem_of_filter. split; [|done].
      intros Hin. by rewrite Heq in Hin.
    - intros Hk. split.
      + intros x [Hfrom _]%list_elem_of_filter Hst [Hf Ht].
        assert (staleLink mc (labelOf L1) l = true) as Hst'.
        { rewrite <-Hstale by congruence. unfold staleTarget in *. by rewrite Ht. }
        rewrite Hk in Hst'; [done|]. apply elem_of_cons. left. congruence.
      + intros Hin. apply Hk, elem_of_cons. by right. }
  split; [|split; [by eapply sameNodes_trans|split; [done|]]].
  - apply (wf_sameNodes L1); [done|by eapply sameNodes_trans|..].
    + rewrite Hlinks'. intros l [_ Hin]%list_elem_of_filter. by apply (wf_closed _ HL1).
    + rewrite Hlinks'. apply NoDup_fmap_filter, (wf_nodup _ HL1).
  - intros lbl Hun Hm. apply (marked_same_graph Lb); [done..|].
    apply Hmb.
    + right. intros (ts & Hin & HT)%JS_get_or_empty_keys. apply Hun. by exists S, ts.
    + apply Hma; [by left|]. by apply Hmark.
Qed.

Lemma syncLoop_spec todo visited L :
  loopInv mc L1 visited L → NoDup todo →
  (∀ s, s ∈ todo → s < getNodeCount (graph L1) ∧ s ∉ visited) →
  ∃ L' visited', forEachM (syncNode mc) L todo = Some L'
    ∧ loopInv mc L1 visited' L'
    ∧ ∀ s, s ∈ visited' ↔ s ∈ todo ∨ s ∈ visited.
Proof using HL1 Hpairs.
  revert visited L. induction todo as [|s todo IH]; intros visited L Hinv Hnd Htodo; simpl.
  - exists L, visited. split; [done|]. split; [done|].
    intros s. rewrite elem_of_nil. tauto.
  - apply NoDup_cons in Hnd as [Hs Hnd].
    destruct (Htodo s) as [Hlt Hnew]; [apply elem_of_cons; by left|].
    destruct (syncNode_step visited L s Hinv Hlt Hnew) as (La & -> & Hinv_a). simpl.
    destruct (IH (s :: visited) La Hinv_a Hnd) as (L' & visited' & Hrun & Hinv' & Hvis).
    { intros s' Hs'. destruct (Htodo s') as [? ?]; [apply elem_of_cons; by right|].
      split; [done|]. intros [->|?]%elem_of_cons; done. }
    exists L', visited'. split; [done|]. split; [done|].
    intros s'. rewrite Hvis, !elem_of_cons. tauto.
Qed.

End sync_loop.

(** [syncWithCache] returns, and what it returns is [fromMetadataCache]
    without the stale links. *)
Lemma syncWithCache_spec mc L :
  wf L →
  ∃ L', syncWithCache mc L = Some L'
    ∧ wf L'
    ∧ sameNodes (fromMetadataCache mc L) L'
    ∧ links (graph L') =
      filter (kept mc (labelOf (fromMetadataCache mc L)))
             (links (graph (fromMetadataCache mc L)))
    ∧ ∀ lbl, ¬ unresolvedTargetIn mc lbl →
        marked (fromMetadataCache mc L) lbl → marked L' lbl.
Proof.
  intros HL. destruct (fromMetadataCache_spec mc L HL) as (HL1 & He & Hpres & Hpairs & _).
  unfold syncWithCache. set (L1 := fromMetadataCache mc L) in *.
  destruct (syncLoop_spec mc L1 HL1 Hpairs (id <$> nodes (graph L1)) [] L1)
    as (L' & visited & Hrun & (HL' & Hsame & Hlinks & Hmark) & Hvis).
  - split; [done|]. split; [apply sameNodes_refl|]. split; [|done].
    rewrite (filter_ext_in _ (λ _, True)).
    + induction (links (graph L1)) as [|l ls IHl]; [done|].
      by rewrite filter_cons_True, <-IHl.
    + intros l _. split; [done|]. intros _ Hin. by apply elem_of_nil in Hin.
  - rewrite (wf_ids _ HL1). apply NoDup_seq.
  - intros s. rewrite (wf_ids _ HL1), elem_of_seq, elem_of_nil. lia.
  - exists L'. split; [done|]. split; [done|]. split; [done|]. split; [|done].
    rewrite Hlinks. apply filter_ext_in. intros l Hl. split; [|auto].
    intros Hk. apply Hk, Hvis. left. rewrite (wf_ids _ HL1), elem_of_seq.
    destruct (wf_closed _ HL1 l Hl). lia.
Qed.

(** *** Sequences of calls *)

Lemma step_spec L L' :
  wf L → step L L' →
  wf L' ∧ nameToId L ⊆ nameToId L'
  ∧ getNodeCount (graph L) ≤ getNodeCount (graph L').
Proof.
  intros HL Hstep. destruct Hstep as [node L|a b L Ha Hb|mc L|mc L L' Hsync].
  - pose proof (addOrGetNode_ext node L HL) as He.
    split; [by apply addOrGetNode_wf|]. split; [apply He|apply He].
  - pose proof (link_sameNodes a b L HL Ha Hb) as Hsame.
    split; [by apply link_wf|].
    by rewrite (same_names _ _ Hsame), (sameNodes_count _ _ Hsame).
  - destruct (fromMetadataCache_spec mc L HL) as (HL' & He & _).
    split; [done|]. split; [apply He|apply He].
  - destruct (fromMetadataCache_spec mc L HL) as (_ & He & _).
    destruct (syncWithCache_spec mc L HL) as (L'' & Hsync' & HL' & Hsame & _).
    assert (L'' = L') as -> by congruence.
    split; [done|].
    rewrite (same_names _ _ Hsame), (sameNodes_count _ _ Hsame).
    split; [apply He|apply He].
Qed.

Lemma steps_spec L L' :
  wf L → rtc step L L' →
  wf L' ∧ nameToId L ⊆ nameToId L'
  ∧ getNodeCount (graph L) ≤ getNodeCount (graph L').
Proof.
  intros HL Hsteps. induction Hsteps as [L|L L1 L2 Hstep Hsteps IH]; [done|].
  destruct (step_spec _ _ HL Hstep) as (HL1 & Hn1 & Hc1).
  destruct (IH HL1) as (HL2 & Hn2 & Hc2).
  split; [done|]. split; [by etrans|lia].
Qed.

Lemma reachable_wf L : reachable L → wf L.
Proof. intros H. by destruct (steps_spec _ _ wf_empty H). Qed.

(** Every slot is even: a link is created with twice the link count. *)
Lemma step_even L L' :
  wf L → step L L' →
  (∀ l, l ∈ links (graph L) → Nat.Even (ldata l)) →
  ∀ l, l ∈ links (graph L') → Nat.Even (ldata l).
Proof.
  intros HL Hstep Hev. destruct Hstep as [node L|a b L Ha Hb|mc L|mc L L' Hsync].
  - by rewrite links_addOrGetNode.
  - rewrite link_links by done. intros l [Hl|Hl]%elem_of_app; [auto|].
    destruct (getLink (graph L) a b); [by apply elem_of_nil in Hl|].
    apply list_elem_of_singleton in Hl as ->. by eexists.
  - destruct (fromMetadataCache_spec mc L HL) as (_ & He & _).
    destruct (ext_links _ _ _ _ He) as (R & -> & HR).
    intros l [Hl|Hl]%elem_of_app; [auto|]. by apply HR.
  - destruct (fromMetadataCache_spec mc L HL) as (_ & He & _).
    destruct (syncWithCache_spec mc L HL) as (L'' & Hsync' & _ & _ & Hlinks & _).
    assert (L'' = L') as -> by congruence.
    destruct (ext_links _ _ _ _ He) as (R & HR & HRev).
    rewrite Hlinks, HR. intros l [_ [Hl|Hl]%elem_of_app]%list_elem_of_filter; [auto|].
    by apply HRev.
Qed.

(** X10. Every slot is even, also after links have been removed: in every
    layout built from the empty one the payload of every link is an even
    number. *)
Lemma slots_even L l : reachable L → l ∈ links (graph L) → Nat.Even (ldata l).
Proof.
  unfold reachable. intros Hsteps. revert l. revert L Hsteps.
  apply (rtc_ind_r (λ L, ∀ l, l ∈ links (graph L) → Nat.Even (ldata l))).
  - intros l Hl. by apply elem_of_nil in Hl.
  - intros L1 L2 Hsteps Hstep IH. apply (step_even L1); [by apply reachable_wf|done..].
Qed.

Lemma filter_nil_all {A} (P : A → Prop) `{!∀ x, Decision (P x)} (xs : list A) :
  (∀ x, x ∈ xs → ¬ P x) → filter P xs = [].
Proof.
  induction xs as [|x xs IH]; intros Hno; [done|].
  rewrite filter_cons_False by (apply Hno, elem_of_cons; by left).
  apply IH. intros y Hy. apply Hno, elem_of_cons. by right.
Qed.

Lemma NoDup_fmap_inj_in {A B} (f : A → B) (xs : list A) x y :
  NoDup (f <$> xs) → x ∈ xs → y ∈ xs → f x = f y → x = y.
Proof.
  induction xs as [|z xs IH]; simpl; [by intros _ ?%elem_of_nil|].
  intros [Hz Hnd]%NoDup_cons [->|Hx]%elem_of_cons [->|Hy]%elem_of_cons Hf; [done| | |auto].
  - exfalso. apply Hz. rewrite Hf. by apply list_elem_of_fmap_2.
  - exfalso. apply Hz. rewrite <-Hf. by apply list_elem_of_fmap_2.
Qed.

Lemma kept_labels mc lab lab' l :
  (∀ i, lab i = lab' i) → kept mc lab l ↔ kept mc lab' l.
Proof. intros H. unfold kept, staleLink. by rewrite !H. Qed.

Lemma kept_ends mc lab l l' : ends l = ends l' → kept mc lab l ↔ kept mc lab l'.
Proof. intros [= Hf Ht]. unfold kept, staleLink. by rewrite Hf, Ht. Qed.

Lemma kept_stale mc L l S T :
  labelOf L (fromId l) = Some S → labelOf L (toId l) = Some T →
  kept mc (labelOf L) l ↔ stale mc S T = false.
Proof. intros HS HT. unfold kept, staleLink. by rewrite HS, HT. Qed.

(** The links between two labelled handles after [fromMetadataCache]: the old
    ones and those the snapshot lists. *)
Lemma fromMetadataCache_linked mc L S T s t :
  wf L →
  nameToId (fromMetadataCache mc L) !! S = Some s →
  nameToId (fromMetadataCache mc L) !! T = Some t →
  linked (fromMetadataCache mc L) s t ↔ linked L s t ∨ pairIn mc S T.
Proof.
  intros HL HS HT.
  destruct (fromMetadataCache_spec mc L HL) as (HF & He & _ & Hpairs & _).
  destruct (ext_links _ _ _ _ He) as (R & HR & HRpairs). split.
  - intros [l [Hl Hends]%getLink_Some]. rewrite HR in Hl.
    apply elem_of_app in Hl as [Hl|Hl].
    + left. apply getLink_is_Some, list_elem_of_fmap. eauto.
    + right. destruct (HRpairs l Hl) as [_ (S' & T' & HP & HS' & HT')].
      inversion Hends; subst.
      by rewrite (wf_name_inj _ _ _ _ HF HS HS'), (wf_name_inj _ _ _ _ HF HT HT').
  - intros [Hl|HP]; [by eapply linked_app|].
    destruct (Hpairs S T HP) as (s' & t' & Hs' & Ht' & Hlk). congruence.
Qed.

End layout_facts.

(** ** The synchronizer: the claims *)

Section synchronizer.
Implicit Types (L : Graph3DLayout) (mc : MetadataCache) (i j a b s t : nat).
Implicit Types (S T lbl : string).

(** C10. No synchronizer operation removes a node or an entry of [nameToId]:
    across every sequence of calls of [addOrGetNode], [link],
    [fromMetadataCache] and [syncWithCache] on a layout built from the empty
    one, the node count and the domain of [nameToId] do not decrease, and
    every node of the graph stays in the graph. *)
Theorem nodes_never_removed L L' :
  reachable L → rtc step L L' →
  getNodeCount (graph L) ≤ getNodeCount (graph L')
  ∧ dom (nameToId L) ⊆ dom (nameToId L')
  ∧ (∀ i, is_Some (getNode (graph L) i) → is_Some (getNode (graph L') i)).
Proof.
  intros HL%reachable_wf Hsteps.
  destruct (steps_spec _ _ HL Hsteps) as (HL' & Hn & Hc).
  split; [done|]. split; [by apply subseteq_dom|].
  intros i. rewrite !wf_getNode by done. lia.
Qed.

Lemma nodes_never_removed_witness :
  getNodeCount (graph Examples.layoutAB) ≤ getNodeCount (graph Examples.layoutAC)
  ∧ dom (nameToId Examples.layoutAB) ⊆ dom (nameToId Examples.layoutAC)
  ∧ (∀ i, is_Some (getNode (graph Examples.layoutAB) i)
          → is_Some (getNode (graph Examples.layoutAC) i)).
Proof.
  apply nodes_never_removed.
  - apply rtc_once, step_fromMetadataCache.
  - apply rtc_once, (step_syncWithCache Examples.snapAC). vm_compute. reflexivity.
Defined.

(** C4. Every call of the synchronizer on a layout built from the empty one
    keeps the handle of every label that has one; the map from labels to
    handles stays one-to-one; a label without a handle is given the node
    count, a handle no label has, and neither [addOrGetNode] (a total
    function) nor [syncWithCache] fails. *)
Theorem handle_stability L L' :
  reachable L → step L L' →
  (∀ lbl i, nameToId L !! lbl = Some i → nameToId L' !! lbl = Some i)
  ∧ (∀ lbl lbl' i,
       nameToId L' !! lbl = Some i → nameToId L' !! lbl' = Some i → lbl = lbl')
  ∧ (∀ node, nameToId L !! label node = None →
       (addOrGetNode node L).1 = getNodeCount (graph L)
       ∧ nameToId (addOrGetNode node L).2 !! label node = Some (getNodeCount (graph L))
       ∧ ∀ lbl, nameToId L !! lbl ≠ Some (getNodeCount (graph L)))
  ∧ (∀ mc, is_Some (syncWithCache mc L)).
Proof.
  intros HL%reachable_wf Hstep.
  destruct (step_spec _ _ HL Hstep) as (HL' & Hn & Hc).
  split; [|split; [|split]].
  - intros lbl i Hi. by eapply lookup_weaken.
  - intros lbl lbl' i. by apply wf_name_inj.
  - intros node Hnone. pose proof (addOrGetNode_absent node L Hnone) as Hfst.
    split; [done|]. split.
    + rewrite nameToId_addOrGetNode, Hfst. apply lookup_insert_eq.
    + intros lbl Hlbl. pose proof (wf_name_lt _ _ _ HL Hlbl). lia.
  - intros mc. destruct (syncWithCache_spec mc L HL) as (L'' & -> & _). eauto.
Qed.

Lemma handle_stability_witness :
  (∀ lbl i, nameToId Examples.layoutAB !! lbl = Some i
            → nameToId Examples.layoutAC !! lbl = Some i)
  ∧ (∀ lbl lbl' i,
       nameToId Examples.layoutAC !! lbl = Some i →
       nameToId Examples.layoutAC !! lbl' = Some i → lbl = lbl')
  ∧ (∀ node, nameToId Examples.layoutAB !! label node = None →
       (addOrGetNode node Examples.layoutAB).1 = getNodeCount (graph Examples.layoutAB)
       ∧ nameToId (addOrGetNode node Examples.layoutAB).2 !! label node
         = Some (getNodeCount (graph Examples.layoutAB))
       ∧ ∀ lbl, nameToId Examples.layoutAB !! lbl
                ≠ Some (getNodeCount (graph Examples.layoutAB)))
  ∧ (∀ mc, is_Some (syncWithCache mc Examples.layoutAB)).
Proof.
  apply handle_stability.
  - apply rtc_once, step_fromMetadataCache.
  - apply (step_syncWithCache Examples.snapAC). vm_compute. reflexivity.
Defined.

(** C1. Incremental sync is idempotent: on a layout built from the empty one,
    a second [syncWithCache] with the same snapshot, right after the first,
    returns and leaves the node count, the link count, the map from labels to
    handles and the links (end points and slots, in order) as they are. *)
Theorem sync_idempotent mc L L1 :
  reachable L → syncWithCache mc L = Some L1 →
  ∃ L2, syncWithCache mc L1 = Some L2
    ∧ getNodeCount (graph L2) = getNodeCount (graph L1)
    ∧ getLinkCount (graph L2) = getLinkCount (graph L1)
    ∧ nameToId L2 = nameToId L1
    ∧ links (graph L2) = links (graph L1).
Proof.
  intros HL%reachable_wf Hsync.
  destruct (fromMetadataCache_spec mc L HL) as (HF & HeF & Hpres & Hpairs & _).
  destruct (syncWithCache_spec mc L HL) as (L1' & Hsync' & HL1 & Hsame1 & Hlinks1 & _).
  assert (L1' = L1) as -> by congruence.
  set (F := fromMetadataCache mc L) in *.
  destruct (fromMetadataCache_spec mc L1 HL1) as (HF2 & HeF2 & _).
  destruct (syncWithCache_spec mc L1 HL1) as (L2 & Hsync2 & HL2 & Hsame2 & Hlinks2 & _).
  set (F2 := fromMetadataCache mc L1) in *.
  assert (sameNodes L1 F2) as Hstable.
  { apply (ext_stable _ _ _ _ HeF2). intros lbl Hlbl.
    rewrite (same_names _ _ Hsame1). by apply Hpres. }
  destruct (ext_links _ _ _ _ HeF2) as (R & HR & HRpairs).
  assert (∀ l, kept mc (labelOf F2) l ↔ kept mc (labelOf F) l) as Hkept.
  { intros l. apply kept_labels. intros i.
    by rewrite (same_labels _ _ Hstable), (same_labels _ _ Hsame1). }
  assert (links (graph L2) = links (graph L1)) as Hlinks.
  { rewrite Hlinks2, (list_filter_iff _ _ _ Hkept), HR, filter_app.
    assert (filter (kept mc (labelOf F)) (links (graph L1)) = links (graph L1)) as ->.
    { rewrite Hlinks1. by apply list_filter_filter_r. }
    rewrite filter_nil_all; [by rewrite app_nil_r|].
    intros r Hr Hkr. destruct (HRpairs r Hr) as [_ (S & T & HP & HS & HT)].
    destruct (Hpairs S T HP) as (s & t & Hs & Ht & [l [Hl Hends]%getLink_Some]).
    rewrite (same_names _ _ Hstable), (same_names _ _ Hsame1) in HS, HT.
    assert (ends l = ends r) as Hlr by (unfold ends at 2; congruence).
    assert (l ∈ links (graph L1)) as Hl1.
    { rewrite Hlinks1. apply list_elem_of_filter. split; [|done].
      by apply (kept_ends _ _ _ _ Hlr). }
    pose proof (wf_nodup _ HF2) as Hnd. rewrite HR, fmap_app in Hnd.
    apply NoDup_app in Hnd as (_ & Hdisj & _).
    apply (Hdisj (ends l)); [by apply list_elem_of_fmap_2|].
    rewrite Hlr. by apply list_elem_of_fmap_2. }
  exists L2. split; [done|]. split; [|split; [|split; [|done]]].
  - by rewrite (sameNodes_count _ _ Hsame2), (sameNodes_count _ _ Hstable).
  - unfold getLinkCount. by rewrite Hlinks.
  - by rewrite (same_names _ _ Hsame2), (same_names _ _ Hstable).
Qed.

Lemma sync_idempotent_witness :
  ∃ L2, syncWithCache Examples.snapAC Examples.layoutAC = Some L2
    ∧ getNodeCount (graph L2) = getNodeCount (graph Examples.layoutAC)
    ∧ getLinkCount (graph L2) = getLinkCount (graph Examples.layoutAC)
    ∧ nameToId L2 = nameToId Examples.layoutAC
    ∧ links (graph L2) = links (graph Examples.layoutAC).
Proof.
  apply (sync_idempotent Examples.snapAC Examples.layoutAB).
  - apply rtc_once, step_fromMetadataCache.
  - vm_compute. reflexivity.
Defined.

(** The scenario of the specification: [A] links to [B] and [C]; after a
    synchronization in which [A] links to [B] and [B] to [C], the graph has
    the three nodes, all resolved, and the two links. *)
Example spec_scenario :
  graph <$> (L1 ← syncWithCache Examples.snapABC Layout.empty;
             syncWithCache
               (mkMetadataCache [("A", [("B", 1%Z)]); ("B", [("C", 1%Z)])] []) L1)
  = Some (mkGraph
            [ mkNode 0 (Some (mkGraphNode "A" true));
              mkNode 1 (Some (mkGraphNode "B" true));
              mkNode 2 (Some (mkGraphNode "C" true)) ]
            [ mkLink 0 1 0; mkLink 1 2 4 ]).
Proof. vm_compute. reflexivity. Qed.

(** C2, as the code has it.  The flag of a node is the one of the last write
    to its label, and the unresolved targets are written after the resolved
    ones; so on a layout built from the empty one, after [fromMetadataCache]
    or [syncWithCache], a label that is a source or a resolved target of the
    snapshot and nowhere an unresolved target has a node marked resolved. *)
Theorem resolved_precedence mc L L' lbl :
  reachable L →
  L' = fromMetadataCache mc L ∨ syncWithCache mc L = Some L' →
  resolvedTargetIn mc lbl ∨ sourceIn mc lbl →
  ¬ unresolvedTargetIn mc lbl →
  ∃ i, nameToId L' !! lbl = Some i ∧ resolvedOf L' i = Some true.
Proof.
  intros HL%reachable_wf HL' Hin Hun.
  destruct (fromMetadataCache_spec mc L HL) as (_ & _ & _ & _ & Hmark).
  assert (marked (fromMetadataCache mc L) lbl) as Hm by (apply Hmark; auto).
  destruct HL' as [->|Hsync]; [done|].
  destruct (syncWithCache_spec mc L HL) as (L'' & Hsync' & _ & _ & _ & Hmark').
  assert (L'' = L') as -> by congruence. by apply Hmark'.
Qed.

Lemma resolved_precedence_witness :
  ∃ i, nameToId Examples.layoutAB !! "B" = Some i
       ∧ resolvedOf Examples.layoutAB i = Some true.
Proof.
  apply (resolved_precedence Examples.snapAB Layout.empty).
  - apply rtc_refl.
  - by left.
  - left. exists "A", [("B", 1%Z)]. split; apply elem_of_cons; by left.
  - intros (S & ts & Hin & _). by apply elem_of_nil in Hin.
Defined.

(** C2 as stated fails: in [snapMixed] the label [B] is a resolved target of
    [A] and an unresolved target of [C], and [fromMetadataCache] leaves its
    node marked unresolved. *)
Lemma resolved_precedence_counterexample :
  resolvedTargetIn Examples.snapMixed "B"
  ∧ nameToId (fromMetadataCache Examples.snapMixed Layout.empty) !! "B" = Some 1
  ∧ resolvedOf (fromMetadataCache Examples.snapMixed Layout.empty) 1 = Some false.
Proof.
  split; [|split; vm_compute; reflexivity].
  exists "A", [("B", 1%Z)]. split; apply elem_of_cons; by left.
Qed.

(** What the removal pass leaves.  On a layout built from the empty one,
    after [syncWithCache]:
    - there is a link between two labelled handles exactly when there was one
      before the call or the snapshot lists the target for the source, and
      the removal test of [nodeHandler] does not fire;
    - for a target whose label is not empty and is not a name inherited from
      [Object.prototype], that is exactly when the label has a non-zero
      weight in the merged record of the source;
    - a link of the old graph whose end points are still linked is still in
      the graph, with its slot. *)
Theorem pruning_correct mc L L' :
  reachable L → syncWithCache mc L = Some L' →
  (∀ S T s t,
     nameToId L' !! S = Some s → nameToId L' !! T = Some t →
     linked L' s t ↔ (linked L s t ∨ pairIn mc S T) ∧ stale mc S T = false)
  ∧ (∀ S T s t,
       nameToId L' !! S = Some s → nameToId L' !! T = Some t →
       T ≠ "" → JS.inherited T = false →
       linked L' s t ↔
       ∃ w, JS.spread_get (JS.get_or_empty (resolvedLinks mc) S)
                          (JS.get_or_empty (unresolvedLinks mc) S) T = Some w
            ∧ w ≠ 0%Z)
  ∧ (∀ l, l ∈ links (graph L) →
       linked L' (fromId l) (toId l) → l ∈ links (graph L')).
Proof.
  intros HL%reachable_wf Hsync.
  destruct (fromMetadataCache_spec mc L HL) as (HF & HeF & _).
  destruct (syncWithCache_spec mc L HL) as (L'' & Hsync' & HL' & Hsame & Hlinks & _).
  assert (L'' = L') as -> by congruence.
  set (F := fromMetadataCache mc L) in *.
  assert (∀ S T s t,
     nameToId L' !! S = Some s → nameToId L' !! T = Some t →
     linked L' s t ↔ (linked L s t ∨ pairIn mc S T) ∧ stale mc S T = false) as Hchar.
  { intros S T s t HS HT. rewrite (same_names _ _ Hsame) in HS, HT.
    rewrite <-(fromMetadataCache_linked mc L S T s t HL HS HT).
    pose proof (proj1 (wf_names _ HF _ _) HS) as HlS.
    pose proof (proj1 (wf_names _ HF _ _) HT) as HlT.
    unfold linked. rewrite !getLink_is_Some, Hlinks, !list_elem_of_fmap. split.
    - intros (l & Hends & [Hk Hl]%list_elem_of_filter).
      inversion Hends; subst. split; [eauto|]. by apply (kept_stale mc F l S T).
    - intros [(l & Hends & Hl) Hst]. exists l. split; [done|].
      apply list_elem_of_filter. split; [|done].
      inversion Hends; subst. by apply (kept_stale mc F l S T). }
  split; [done|]. split.
  - intros S T s t HS HT Hne Hinh. rewrite (Hchar S T s t HS HT).
    unfold stale, JS.spread_truthy, JS.truthy_string, JS.truthy_number.
    rewrite bool_decide_eq_false_2 by done. simpl.
    set (rt := JS.get_or_empty (resolvedLinks mc) S).
    set (ut := JS.get_or_empty (unresolvedLinks mc) S).
    destruct (JS.spread_get rt ut T) as [w|] eqn:Hget.
    + split.
      * intros [_ Hw]. exists w. split; [done|].
        apply negb_false_iff, negb_true_iff, Z.eqb_neq in Hw. done.
      * intros (w' & [= <-] & Hw). split.
        -- right. unfold JS.spread_get in Hget.
           destruct (JS.get ut T) as [w'|] eqn:Hut.
           ++ destruct (JS.get (unresolvedLinks mc) S) as [ts|] eqn:E.
              ** exists ts. split; [right; by apply JS_get_Some|].
                 unfold ut, JS.get_or_empty in Hut. rewrite E in Hut. simpl in Hut.
                 apply JS_get_Some in Hut. by apply (list_elem_of_fmap_2 fst) in Hut.
              ** unfold ut, JS.get_or_empty in Hut. by rewrite E in Hut.
           ++ destruct (JS.get (resolvedLinks mc) S) as [ts|] eqn:E.
              ** exists ts. split; [left; by apply JS_get_Some|].
                 unfold rt, JS.get_or_empty in Hget. rewrite E in Hget. simpl in Hget.
                 apply JS_get_Some in Hget. by apply (list_elem_of_fmap_2 fst) in Hget.
              ** unfold rt, JS.get_or_empty in Hget. by rewrite E in Hget.
        -- apply negb_false_iff, negb_true_iff, Z.eqb_neq. done.
    + rewrite Hinh. split; [by intros [_ ?]|by intros (w & ? & _)].
  - intros l Hl [l' [Hl' Hends]%getLink_Some].
    assert (l ∈ links (graph F)) as HlF.
    { destruct (ext_links _ _ _ _ HeF) as (R & -> & _). apply elem_of_app. by left. }
    assert (l' ∈ links (graph F)) as Hl'F.
    { rewrite Hlinks in Hl'. by apply list_elem_of_filter in Hl' as [_ ?]. }
    by rewrite (NoDup_fmap_inj_in ends _ l l' (wf_nodup _ HF) HlF Hl'F).
Qed.

Lemma pruning_correct_witness :
  (∀ S T s t,
     nameToId Examples.layoutAC !! S = Some s →
     nameToId Examples.layoutAC !! T = Some t →
     linked Examples.layoutAC s t ↔
     (linked Examples.layoutAB s t ∨ pairIn Examples.snapAC S T)
     ∧ stale Examples.snapAC S T = false)
  ∧ (∀ S T s t,
       nameToId Examples.layoutAC !! S = Some s →
       nameToId Examples.layoutAC !! T = Some t →
       T ≠ "" → JS.inherited T = false →
       linked Examples.layoutAC s t ↔
       ∃ w, JS.spread_get (JS.get_or_empty (resolvedLinks Examples.snapAC) S)
                          (JS.get_or_empty (unresolvedLinks Examples.snapAC) S) T
            = Some w
            ∧ w ≠ 0%Z)
  ∧ (∀ l, l ∈ links (graph Examples.layoutAB) →
       linked Examples.layoutAC (fromId l) (toId l) →
       l ∈ links (graph Examples.layoutAC)).
Proof.
  apply (pruning_correct Examples.snapAC Examples.layoutAB).
  - apply rtc_once, step_fromMetadataCache.
  - vm_compute. reflexivity.
Defined.

(** C3 fails on the code: a link to a target that the snapshot no longer
    lists is kept when the label of the target is a name that every object
    inherits from [Object.prototype].  [A] has a link to [constructor] in
    [layoutCtor]; the snapshot [snapNone] lists no target for [A], resolved
    or unresolved; [syncWithCache] returns and the link is still in the
    graph, because [allTargets["constructor"]] reads the inherited property,
    which is truthy.  The same call on [layoutAB] removes the link from [A]
    to [B]. *)
Lemma inherited_name_link_kept :
  JS.keys (JS.get_or_empty (resolvedLinks Examples.snapNone) "A") = []
  ∧ JS.keys (JS.get_or_empty (unresolvedLinks Examples.snapNone) "A") = []
  ∧ graph Examples.layoutCtor
    = mkGraph [ mkNode 0 (Some (mkGraphNode "A" true));
                mkNode 1 (Some (mkGraphNode "constructor" false)) ]
              [ mkLink 0 1 0 ]
  ∧ graph <$> syncWithCache Examples.snapNone Examples.layoutCtor
    = Some (mkGraph [ mkNode 0 (Some (mkGraphNode "A" true));
                      mkNode 1 (Some (mkGraphNode "constructor" false)) ]
                    [ mkLink 0 1 0 ])
  ∧ stale Examples.snapNone "A" "constructor" = false
  ∧ links (graph Examples.layoutAB) = [ mkLink 0 1 0 ]
  ∧ (links ∘ graph) <$> syncWithCache Examples.snapNone Examples.layoutAB = Some []
  ∧ stale Examples.snapNone "A" "B" = true.
Proof. repeat split; vm_compute; reflexivity. Qed.

(** C5 fails on the code: a link is given twice the link count as its slot,
    and the count drops when a link is removed.  After three
    synchronizations ([A] links to [B] and [C]; then to [C] only; then to [C]
    and [D]) the two live links of [A] have the same slot 2. *)
Lemma slot_collision :
  graph <$> (L1 ← syncWithCache Examples.snapABC Layout.empty;
             L2 ← syncWithCache Examples.snapAC L1;
             syncWithCache Examples.snapACD L2)
  = Some (mkGraph
            [ mkNode 0 (Some (mkGraphNode "A" true));
              mkNode 1 (Some (mkGraphNode "B" true));
              mkNode 2 (Some (mkGraphNode "C" true));
              mkNode 3 (Some (mkGraphNode "D" true)) ]
            [ mkLink 0 2 2; mkLink 0 3 2 ]).
Proof. vm_compute. reflexivity. Qed.

End synchronizer.

(** ** The renderer: facts and claims *)

Section renderer_facts.
Context {P M C : Type}.
Context (origin : P) (identity : M) (white : C) (makeTranslation : P → M).
Implicit Types (r : Graph3DRenderer P M C) (layout : ForceLayout P).
Implicit Types (mesh : InstancedMesh M C) (lm : LineSegments P).

Lemma length_attributeSet {A} (source target : list A) :
  length source ≤ length target →
  length (attributeSet source target) = length target.
Proof. intros H. unfold attributeSet. rewrite length_app, length_drop. lia. Qed.

Lemma lookup_attributeSet {A} (source target : list A) i x :
  source !! i = Some x → attributeSet source target !! i = Some x.
Proof. intros H. unfold attributeSet. by apply lookup_app_l_Some. Qed.

(** The growth step of the instance buffer: the capacity doubles, every
    matrix of the old buffer is at its index in the new one, and the new mesh
    has no colour attribute. *)
Lemma growSpheres_spec mesh :
  length (instanceMatrix (growSpheres identity mesh)) = 2 * length (instanceMatrix mesh)
  ∧ (∀ i m, instanceMatrix mesh !! i = Some m →
            instanceMatrix (growSpheres identity mesh) !! i = Some m)
  ∧ instanceColor (growSpheres identity mesh) = None.
Proof.
  unfold growSpheres. simpl. split; [|split].
  - rewrite length_attributeSet; rewrite length_replicate; lia.
  - intros i m. apply lookup_attributeSet.
  - by destruct (instanceColor mesh).
Qed.

(** The growth step of the link buffer: the capacity doubles and every vertex
    of the old buffer is at its index in the new one. *)
Lemma growLinks_spec lm :
  length (position lm) = 2 * linkBufferCapacity lm →
  linkBufferCapacity (growLinks origin lm) = 2 * linkBufferCapacity lm
  ∧ length (position (growLinks origin lm)) = 2 * linkBufferCapacity (growLinks origin lm)
  ∧ ∀ i p, position lm !! i = Some p → position (growLinks origin lm) !! i = Some p.
Proof.
  intros Heven. set (c := linkBufferCapacity lm) in *.
  assert (position (growLinks origin lm)
          = attributeSet (position lm) (replicate (2 * (2 * c)) origin)) as Hpos by done.
  assert (length (position (growLinks origin lm)) = 2 * c * 2) as Hlen.
  { rewrite Hpos, length_attributeSet; rewrite length_replicate; lia. }
  assert (linkBufferCapacity (growLinks origin lm) = 2 * c) as Hcap.
  { unfold linkBufferCapacity at 1. rewrite Hlen. by apply Nat.div_mul. }
  split; [done|]. split; [rewrite Hcap; lia|].
  intros i p. rewrite Hpos. apply lookup_attributeSet.
Qed.

Lemma setNodePosition_frame r body :
  let r' := setNodePosition makeTranslation r body in
  length (instanceMatrix (instancedSpheres r')) = length (instanceMatrix (instancedSpheres r))
  ∧ instanceColor (instancedSpheres r') = instanceColor (instancedSpheres r)
  ∧ count (instancedSpheres r') = count (instancedSpheres r)
  ∧ linkMesh r' = linkMesh r.
Proof. destruct body as [nodeId pos]. simpl. by rewrite length_insert. Qed.

Lemma setNodePositions_frame r bs :
  let r' := foldl (setNodePosition makeTranslation) r bs in
  length (instanceMatrix (instancedSpheres r')) = length (instanceMatrix (instancedSpheres r))
  ∧ instanceColor (instancedSpheres r') = instanceColor (instancedSpheres r)
  ∧ count (instancedSpheres r') = count (instancedSpheres r)
  ∧ linkMesh r' = linkMesh r.
Proof.
  revert r. induction bs as [|b bs IH]; intros r; simpl; [done|].
  destruct (IH (setNodePosition makeTranslation r b)) as (H1 & H2 & H3 & H4).
  destruct (setNodePosition_frame r b) as (H1' & H2' & H3' & H4').
  simpl in *. split; [congruence|]. split; [congruence|]. split; congruence.
Qed.

(** The capacity of the instance buffer after [updateNodePositions]: doubled
    once when the graph had outgrown it, unchanged otherwise. *)
Lemma updateNodePositions_capacity layout r :
  length (instanceMatrix
            (instancedSpheres (updateNodePositions identity makeTranslation layout r)))
  = if decide (length (instanceMatrix (instancedSpheres r)) < getNodeCount (lgraph layout))
    then 2 * length (instanceMatrix (instancedSpheres r))
    else length (instanceMatrix (instancedSpheres r)).
Proof.
  unfold updateNodePositions. simpl.
  match goal with |- context [foldl _ ?r0 _] =>
    destruct (setNodePositions_frame r0 (bodies layout)) as (-> & _) end.
  case_decide; simpl; [|done]. apply growSpheres_spec.
Qed.

Lemma setNodePositions_matrices r bs i m :
  i ∉ bs.*1 →
  instanceMatrix (instancedSpheres r) !! i = Some m →
  instanceMatrix (instancedSpheres (foldl (setNodePosition makeTranslation) r bs)) !! i
  = Some m.
Proof.
  revert r. induction bs as [|[nodeId pos] bs IH]; intros r Hi Hm; simpl; [done|].
  apply IH.
  - intros Hin. apply Hi. simpl. apply elem_of_cons. by right.
  - simpl. rewrite list_lookup_insert_ne; [done|].
    intros ->. apply Hi. simpl. apply elem_of_cons. by left.
Qed.

(** What [updateNodePositions] keeps of the instance buffer, grown or not: the
    matrix of every index for which the layout has no body. *)
Lemma updateNodePositions_matrices layout r i m :
  i ∉ (bodies layout).*1 →
  instanceMatrix (instancedSpheres r) !! i = Some m →
  instanceMatrix
    (instancedSpheres (updateNodePositions identity makeTranslation layout r)) !! i
  = Some m.
Proof.
  intros Hi Hm. unfold updateNodePositions. simpl.
  apply setNodePositions_matrices; [done|].
  case_decide; simpl; [|done]. by apply growSpheres_spec.
Qed.

Lemma length_setLinkPositions (getPos : Link → P * P) (ps : list P) (ls : list Link) :
  length (foldl (setLinkPosition getPos) ps ls) = length ps.
Proof.
  revert ps. induction ls as [|l ls IH]; intros ps; simpl; [done|].
  rewrite IH. unfold setLinkPosition. destruct (getPos l). by rewrite !length_insert.
Qed.

(** The capacity of the link buffer after [updateLinkPositions]: doubled once
    when the graph had outgrown it, unchanged otherwise. *)
Lemma updateLinkPositions_capacity layout r :
  length (position (linkMesh r)) = 2 * linkBufferCapacity (linkMesh r) →
  linkBufferCapacity (linkMesh (updateLinkPositions origin layout r))
  = if decide (linkBufferCapacity (linkMesh r) < getLinkCount (lgraph layout))
    then 2 * linkBufferCapacity (linkMesh r)
    else linkBufferCapacity (linkMesh r).
Proof.
  intros Heven. unfold updateLinkPositions, linkBufferCapacity at 1. simpl.
  rewrite length_setLinkPositions. case_decide; [|done].
  by apply growLinks_spec.
Qed.

(** C8. The draw range follows the count, not the capacity: after
    [updateNodePositions] the instance count of the spheres is the node count
    of the graph, and after [updateLinkPositions] the draw range of the links
    is the first [2 * link count] vertices; so when a tick draws a graph and
    a later tick draws it with [m] more nodes and [k] more links, the instance
    count has grown by [m] and the draw range covers [k] more links, whatever
    the buffers did. *)
Theorem draw_range_tracks_count layout layout' r r' (m k : nat) :
  getNodeCount (lgraph layout') = getNodeCount (lgraph layout) + m →
  getLinkCount (lgraph layout') = getLinkCount (lgraph layout) + k →
  let tick lay r0 :=
    updateLinkPositions origin lay (updateNodePositions identity makeTranslation lay r0) in
  count (instancedSpheres (updateNodePositions identity makeTranslation layout r))
    = getNodeCount (lgraph layout)
  ∧ drawRange (linkMesh (updateLinkPositions origin layout r))
    = Some (0, 2 * getLinkCount (lgraph layout))
  ∧ count (instancedSpheres (tick layout' r'))
    = count (instancedSpheres (tick layout r)) + m
  ∧ drawRange (linkMesh (tick layout' r'))
    = Some (0, 2 * (getLinkCount (lgraph layout) + k)).
Proof.
  intros Hm Hk. simpl. rewrite Hm, Hk. done.
Qed.

(** C9, as the code has it.  When the host gives no 2D context, [setText]
    reports the error and leaves the label as it is; [setNodeLabel] for a node
    without a label still creates the label (without text, with the canvas and
    the sprite as they are made), registers it and adds its sprite to the
    scene; a node that has a label keeps it and nothing is reported.  In both
    cases the two buffers and the labels of the other nodes are untouched,
    and no exception is raised: the functions are total. *)
Theorem rasterization_failure h nodeId (labelText : string) r :
  getContext h = false →
  let r' := setNodeLabel origin h nodeId labelText r in
  instancedSpheres r' = instancedSpheres r
  ∧ linkMesh r' = linkMesh r
  ∧ (∀ j, j ≠ nodeId → nodesData r' !! j = nodesData r !! j)
  ∧ (nodesData r !! nodeId = None →
       nodesData r' !! nodeId = Some (mkNodeLabel None 300 150 (100, 100) origin)
       ∧ sceneSprites r' = sceneSprites r ++ [nodeId]
       ∧ console r' = console r ++ [contextError])
  ∧ (∀ lbl, nodesData r !! nodeId = Some lbl →
       nodesData r' !! nodeId = Some lbl
       ∧ sceneSprites r' = sceneSprites r
       ∧ console r' = console r)
  ∧ (∀ (lbl : NodeLabel P) logged, text lbl ≠ Some labelText →
       setText h labelText lbl logged = (lbl, logged ++ [contextError])).
Proof.
  intros Hctx. unfold setNodeLabel, newNodeLabel, setText. rewrite Hctx.
  destruct (nodesData r !! nodeId) as [lbl0|] eqn:E; simpl.
  - split; [done|]. split; [done|]. split; [|split; [done|split]].
    + intros j Hj. by rewrite lookup_insert_ne.
    + intros lbl [= <-]. by rewrite lookup_insert_eq.
    + intros lbl logged Hne. by rewrite decide_False.
  - split; [done|]. split; [done|]. split; [|split; [|split]].
    + intros j Hj. by rewrite lookup_insert_ne.
    + intros _. by rewrite lookup_insert_eq.
    + intros lbl [=].
    + intros lbl logged Hne. by rewrite decide_False.
Qed.

End renderer_facts.

Lemma draw_range_tracks_count_witness :
  let tick (lay : ForceLayout nat) (rd : Graph3DRenderer nat nat nat) :=
    updateLinkPositions 0 lay (updateNodePositions 1 (λ p : nat, p) lay rd) in
  count (instancedSpheres (updateNodePositions 1 (λ p : nat, p)
                             Examples.forcesAB Examples.rendererOne))
    = getNodeCount (lgraph Examples.forcesAB)
  ∧ drawRange (linkMesh (updateLinkPositions 0 Examples.forcesAB Examples.rendererOne))
    = Some (0, 2 * getLinkCount (lgraph Examples.forcesAB))
  ∧ count (instancedSpheres (tick Examples.forcesABC (tick Examples.forcesAB Examples.rendererOne)))
    = count (instancedSpheres (tick Examples.forcesAB Examples.rendererOne)) + 1
  ∧ drawRange (linkMesh (tick Examples.forcesABC (tick Examples.forcesAB Examples.rendererOne)))
    = Some (0, 2 * (getLinkCount (lgraph Examples.forcesAB) + 1)).
Proof.
  apply (draw_range_tracks_count 0 1 (λ p : nat, p)
           Examples.forcesAB Examples.forcesABC Examples.rendererOne
           (updateLinkPositions 0 Examples.forcesAB
              (updateNodePositions 1 (λ p : nat, p) Examples.forcesAB Examples.rendererOne))
           1 1); reflexivity.
Defined.

(** C6 fails on the code: the mesh [new THREE.InstancedMesh] returns has no
    colour attribute, so the guard of the colour copy in [updateNodePositions]
    is never true.  [rendererOne] has the colour 64 for node 0; after
    [updateNodePositions] has grown its buffer for the two nodes of
    [forcesAB], the mesh has no colours at all. *)
Lemma growth_drops_colors :
  instanceColor (instancedSpheres Examples.rendererOne) = Some [64]
  ∧ length (instanceMatrix (instancedSpheres Examples.rendererOne)) = 1
  ∧ getNodeCount (lgraph Examples.forcesAB) = 2
  ∧ instanceColor
      (instancedSpheres
         (updateNodePositions 1 (λ p : nat, p) Examples.forcesAB Examples.rendererOne))
    = None.
Proof. vm_compute. done. Qed.

(** C7 fails on the code: the buffer is doubled once, whatever the count.
    [rendererOne] has room for one node; after [updateNodePositions] for the
    three nodes of [forcesABC] it has room for two.  A renderer initialized
    for an empty graph has room for none, and twice none is none. *)
Lemma growth_insufficient :
  length (instanceMatrix (instancedSpheres Examples.rendererOne)) = 1
  ∧ getNodeCount (lgraph Examples.forcesABC) = 3
  ∧ length (instanceMatrix
              (instancedSpheres
                 (updateNodePositions 1 (λ p : nat, p)
                    Examples.forcesABC Examples.rendererOne)))
    = 2
  ∧ length (instanceMatrix
              (instancedSpheres
                 (updateNodePositions 1 (λ p : nat, p)
                    Examples.forcesABC (initializeBuffers 0 1 0 0 Examples.blank))))
    = 0.
Proof. vm_compute. done. Qed.

Lemma rasterization_failure_witness :
  let r' := setNodeLabel 0 Examples.noContext 0 "A" Examples.rendererOne in
  instancedSpheres r' = instancedSpheres Examples.rendererOne
  ∧ linkMesh r' = linkMesh Examples.rendererOne
  ∧ (∀ j, j ≠ 0 → nodesData r' !! j = nodesData Examples.rendererOne !! j)
  ∧ (nodesData Examples.rendererOne !! 0 = None →
       nodesData r' !! 0 = Some (mkNodeLabel None 300 150 (100, 100) 0)
       ∧ sceneSprites r' = sceneSprites Examples.rendererOne ++ [0]
       ∧ console r' = console Examples.rendererOne ++ [contextError])
  ∧ (∀ lbl, nodesData Examples.rendererOne !! 0 = Some lbl →
       nodesData r' !! 0 = Some lbl
       ∧ sceneSprites r' = sceneSprites Examples.rendererOne
       ∧ console r' = console Examples.rendererOne)
  ∧ (∀ (lbl : NodeLabel nat) logged, text lbl ≠ Some "A" →
       setText Examples.noContext "A" lbl logged = (lbl, logged ++ [contextError])).
Proof.
  apply (rasterization_failure 0 Examples.noContext 0 "A" Examples.rendererOne).
  reflexivity.
Defined.

(** C9 as stated fails: with no 2D context, [setNodeLabel] on a node without
    a label leaves the node with a label, whose sprite is in the scene. *)
Lemma label_created_counterexample :
  getContext Examples.noContext = false
  ∧ nodesData Examples.rendererOne !! 0 = None
  ∧ sceneSprites Examples.rendererOne = []
  ∧ nodesData (setNodeLabel 0 Examples.noContext 0 "A" Examples.rendererOne) !! 0
    = Some (mkNodeLabel None 300 150 (100, 100) 0)
  ∧ sceneSprites (setNodeLabel 0 Examples.noContext 0 "A" Examples.rendererOne) = [0].
Proof. vm_compute. done. Qed.

(** ** Further properties of the synchronizer *)

Section synchronizer_more.
Implicit Types (L : Graph3DLayout) (mc : MetadataCache) (i j a b s t : nat).
Implicit Types (S T lbl : string).

(** X1. After [fromMetadataCache] on a layout built from the empty one, every
    source and every target of the snapshot has a handle, and for every pair
    the snapshot lists there is a link between the two handles; after
    [syncWithCache] the labels have their handles too. *)
Theorem fromMetadataCache_complete mc L :
  reachable L →
  (∀ lbl, labelIn mc lbl → is_Some (nameToId (fromMetadataCache mc L) !! lbl))
  ∧ (∀ S T, pairIn mc S T →
       ∃ s t l, nameToId (fromMetadataCache mc L) !! S = Some s
         ∧ nameToId (fromMetadataCache mc L) !! T = Some t
         ∧ l ∈ links (graph (fromMetadataCache mc L))
         ∧ fromId l = s ∧ toId l = t)
  ∧ (∀ L' lbl, syncWithCache mc L = Some L' → labelIn mc lbl →
       is_Some (nameToId L' !! lbl)).
Proof.
  intros HL%reachable_wf.
  destruct (fromMetadataCache_spec mc L HL) as (_ & _ & Hpres & Hpairs & _).
  split; [done|]. split.
  - intros S T HP. destruct (Hpairs S T HP) as (s & t & Hs & Ht & [l Hl]).
    apply getLink_Some in Hl as [Hl Hends]. inversion Hends.
    exists s, t, l. done.
  - intros L' lbl Hsync Hlbl.
    destruct (syncWithCache_spec mc L HL) as (L'' & Hsync' & _ & Hsame & _).
    assert (L'' = L') as -> by congruence.
    rewrite (same_names _ _ Hsame). by apply Hpres.
Qed.

Lemma fromMetadataCache_complete_witness :
  (∀ lbl, labelIn Examples.snapABC lbl →
     is_Some (nameToId (fromMetadataCache Examples.snapABC Examples.layoutAB) !! lbl))
  ∧ (∀ S T, pairIn Examples.snapABC S T →
       ∃ s t l,
         nameToId (fromMetadataCache Examples.snapABC Examples.layoutAB) !! S = Some s
         ∧ nameToId (fromMetadataCache Examples.snapABC Examples.layoutAB) !! T = Some t
         ∧ l ∈ links (graph (fromMetadataCache Examples.snapABC Examples.layoutAB))
         ∧ fromId l = s ∧ toId l = t)
  ∧ (∀ L' lbl, syncWithCache Examples.snapABC Examples.layoutAB = Some L' →
       labelIn Examples.snapABC lbl → is_Some (nameToId L' !! lbl)).
Proof.
  apply fromMetadataCache_complete. apply rtc_once, step_fromMetadataCache.
Defined.

(** X2. The full rebuild is idempotent on the structure: on a layout built from
    the empty one, a second [fromMetadataCache] with the same snapshot adds no
    handle, no node and no link. *)
Theorem fromMetadataCache_idempotent mc L :
  reachable L →
  nameToId (fromMetadataCache mc (fromMetadataCache mc L))
  = nameToId (fromMetadataCache mc L)
  ∧ id <$> nodes (graph (fromMetadataCache mc (fromMetadataCache mc L)))
    = id <$> nodes (graph (fromMetadataCache mc L))
  ∧ (∀ i, labelOf (fromMetadataCache mc (fromMetadataCache mc L)) i
          = labelOf (fromMetadataCache mc L) i)
  ∧ links (graph (fromMetadataCache mc (fromMetadataCache mc L)))
    = links (graph (fromMetadataCache mc L)).
Proof.
  intros HL%reachable_wf.
  destruct (fromMetadataCache_spec mc L HL) as (HF & _ & Hpres & Hpairs & _).
  set (F := fromMetadataCache mc L) in *.
  destruct (fromMetadataCache_spec mc F HF) as (HF2 & He2 & _).
  set (F2 := fromMetadataCache mc F) in *.
  pose proof (ext_stable _ _ _ _ He2 Hpres) as Hsame.
  split; [apply Hsame|]. split; [apply Hsame|]. split; [apply Hsame|].
  destruct (ext_links _ _ _ _ He2) as (R & HR & HRpairs).
  destruct R as [|r R]; [by rewrite HR, app_nil_r|]. exfalso.
  destruct (HRpairs r) as [_ (S & T & HP & HS & HT)]; [apply elem_of_cons; by left|].
  destruct (Hpairs S T HP) as (s & t & Hs & Ht & [l [Hl Hends]%getLink_Some]).
  rewrite (same_names _ _ Hsame) in HS, HT.
  pose proof (wf_nodup _ HF2) as Hnd. rewrite HR, fmap_app in Hnd.
  apply NoDup_app in Hnd as (_ & Hdisj & _).
  apply (Hdisj (ends l)); [by apply list_elem_of_fmap_2|].
  simpl. apply elem_of_cons. left. unfold ends at 2. congruence.
Qed.

Lemma fromMetadataCache_idempotent_witness :
  nameToId (fromMetadataCache Examples.snapABC
              (fromMetadataCache Examples.snapABC Examples.layoutAB))
  = nameToId (fromMetadataCache Examples.snapABC Examples.layoutAB)
  ∧ id <$> nodes (graph (fromMetadataCache Examples.snapABC
                           (fromMetadataCache Examples.snapABC Examples.layoutAB)))
    = id <$> nodes (graph (fromMetadataCache Examples.snapABC Examples.layoutAB))
  ∧ (∀ i, labelOf (fromMetadataCache Examples.snapABC
                     (fromMetadataCache Examples.snapABC Examples.layoutAB)) i
          = labelOf (fromMetadataCache Examples.snapABC Examples.layoutAB) i)
  ∧ links (graph (fromMetadataCache Examples.snapABC
                    (fromMetadataCache Examples.snapABC Examples.layoutAB)))
    = links (graph (fromMetadataCache Examples.snapABC Examples.layoutAB)).
Proof.
  apply fromMetadataCache_idempotent. apply rtc_once, step_fromMetadataCache.
Defined.

(** X3. On every layout built from the empty one the handles are [0], [1], ... in
    the order of allocation, every node carries its data, and the map from
    labels to handles and the labels of the nodes are inverse to each other. *)
Theorem handles_dense L :
  reachable L →
  id <$> nodes (graph L) = seq 0 (getNodeCount (graph L))
  ∧ (∀ lbl i, nameToId L !! lbl = Some i ↔ labelOf L i = Some lbl)
  ∧ (∀ i, i < getNodeCount (graph L) →
       ∃ lbl, labelOf L i = Some lbl ∧ nameToId L !! lbl = Some i)
  ∧ (∀ lbl i, nameToId L !! lbl = Some i → i < getNodeCount (graph L)).
Proof.
  intros HL%reachable_wf. split; [apply (wf_ids _ HL)|]. split; [apply (wf_names _ HL)|].
  split.
  - intros i Hi. destruct (wf_data _ HL i Hi) as [lbl Hlbl].
    exists lbl. split; [done|]. by apply (wf_names _ HL).
  - intros lbl i. by apply wf_name_lt.
Qed.

Lemma handles_dense_witness :
  id <$> nodes (graph Examples.layoutABC) = seq 0 (getNodeCount (graph Examples.layoutABC))
  ∧ (∀ lbl i, nameToId Examples.layoutABC !! lbl = Some i
              ↔ labelOf Examples.layoutABC i = Some lbl)
  ∧ (∀ i, i < getNodeCount (graph Examples.layoutABC) →
       ∃ lbl, labelOf Examples.layoutABC i = Some lbl
              ∧ nameToId Examples.layoutABC !! lbl = Some i)
  ∧ (∀ lbl i, nameToId Examples.layoutABC !! lbl = Some i
              → i < getNodeCount (graph Examples.layoutABC)).
Proof. apply handles_dense. apply rtc_once, step_fromMetadataCache. Defined.

(** X4. On every layout built from the empty one each link joins two nodes of
    the graph, and no two links have the same end points: [link] never
    duplicates a link. *)
Theorem links_well_formed L :
  reachable L →
  (∀ l, l ∈ links (graph L) →
     is_Some (getNode (graph L) (fromId l)) ∧ is_Some (getNode (graph L) (toId l)))
  ∧ NoDup (ends <$> links (graph L))
  ∧ (∀ l l', l ∈ links (graph L) → l' ∈ links (graph L) → ends l = ends l' → l = l').
Proof.
  intros HL%reachable_wf. split; [|split; [apply (wf_nodup _ HL)|]].
  - intros l Hl. rewrite !wf_getNode by done. by apply (wf_closed _ HL).
  - intros l l' Hl Hl'. by apply (NoDup_fmap_inj_in ends _ l l' (wf_nodup _ HL)).
Qed.

Lemma links_well_formed_witness :
  (∀ l, l ∈ links (graph Examples.layoutAC) →
     is_Some (getNode (graph Examples.layoutAC) (fromId l))
     ∧ is_Some (getNode (graph Examples.layoutAC) (toId l)))
  ∧ NoDup (ends <$> links (graph Examples.layoutAC))
  ∧ (∀ l l', l ∈ links (graph Examples.layoutAC) → l' ∈ links (graph Examples.layoutAC) →
       ends l = ends l' → l = l').
Proof.
  apply links_well_formed.
  eapply rtc_l; [apply (step_fromMetadataCache Examples.snapAB)|].
  apply rtc_once, (step_syncWithCache Examples.snapAC). vm_compute. reflexivity.
Defined.

(** *** Links and slots, without well-formedness *)

Lemma links_ensureNode (g : Graph) i : links (ensureNode g i) = links g.
Proof. unfold ensureNode. destruct (getNode g i); [done|apply links_addNode]. Qed.

(** [link] appends at most one link, with twice the link count as its slot,
    and touches no other link; this needs no assumption on the layout. *)
Lemma links_link a b L :
  links (graph (link a b L)) =
  links (graph L) ++
  (if getLink (graph L) a b is Some _ then []
   else [mkLink a b (2 * getLinkCount (graph L))]).
Proof.
  unfold link, hasLink. destruct (getLink (graph L) a b) eqn:E; simpl.
  - by rewrite app_nil_r.
  - unfold addLink.
    assert (getLink (ensureNode (ensureNode (graph L) a) b) a b = None) as ->.
    { unfold getLink in *. by rewrite !links_ensureNode. }
    simpl. by rewrite !links_ensureNode.
Qed.

Lemma foldl_preserves {A B} (P : A → Prop) (f : A → B → A) (xs : list B) (x : A) :
  (∀ y z, P y → P (f y z)) → P x → P (foldl f x xs).
Proof. intros Hf. revert x. induction xs as [|z xs IH]; simpl; auto. Qed.

Lemma slotsInOrder_link a b L : slotsInOrder L → slotsInOrder (link a b L).
Proof.
  intros HL i l. rewrite links_link.
  destruct (getLink (graph L) a b); [rewrite app_nil_r; apply HL|].
  intros [Hl|[Hi Hl]]%lookup_app_Some; [by apply HL|].
  apply list_lookup_singleton_Some in Hl as [Hi' <-]. simpl.
  unfold getLinkCount. lia.
Qed.

Lemma slotsInOrder_addOrGetNode node L :
  slotsInOrder L → slotsInOrder (addOrGetNode node L).2.
Proof. unfold slotsInOrder. by rewrite links_addOrGetNode. Qed.

Lemma slotsInOrder_fromMetadataCache mc L :
  slotsInOrder L → slotsInOrder (fromMetadataCache mc L).
Proof.
  assert (∀ r lnks L0, slotsInOrder L0 → slotsInOrder (addLinks lnks r L0)) as Hadd.
  { intros r lnks L0. unfold addLinks. apply foldl_preserves.
    intros L1 [S ts] HL1.
    change (addSource r L1 (S, ts)) with
      (foldl (addTarget r (addOrGetNode (mkGraphNode S true) L1).1)
             (addOrGetNode (mkGraphNode S true) L1).2 (JS.keys ts)).
    apply foldl_preserves; [|by apply slotsInOrder_addOrGetNode].
    intros L2 T HL2.
    change (addTarget r (addOrGetNode (mkGraphNode S true) L1).1 L2 T) with
      (link (addOrGetNode (mkGraphNode S true) L1).1
            (addOrGetNode (mkGraphNode T r) L2).1 (addOrGetNode (mkGraphNode T r) L2).2).
    by apply slotsInOrder_link, slotsInOrder_addOrGetNode. }
  intros HL. unfold fromMetadataCache. by apply Hadd, Hadd.
Qed.

(** X5. As long as no link has been removed (the layout is built from the empty
    one by [addOrGetNode], [link] and [fromMetadataCache] only), the slots
    are handed out in order: the link at place [i] has the slot [2 * i].  So
    the slots are pairwise distinct, and both vertices of every link lie in
    the first [2 * link count] vertices, the range the renderer draws. *)
Theorem slots_in_order L :
  rtc growStep Layout.empty L →
  slotsInOrder L
  ∧ NoDup (ldata <$> links (graph L))
  ∧ (∀ l, l ∈ links (graph L) → ldata l + 1 < 2 * getLinkCount (graph L)).
Proof.
  intros Hsteps.
  assert (slotsInOrder L) as HL.
  { revert L Hsteps. apply rtc_ind_r.
    - intros i l. simpl. by rewrite lookup_nil.
    - intros L1 L2 _ Hstep IH. destruct Hstep.
      + by apply slotsInOrder_addOrGetNode.
      + by apply slotsInOrder_link.
      + by apply slotsInOrder_fromMetadataCache. }
  split; [done|]. split.
  - apply NoDup_alt. intros i j x.
    rewrite !list_lookup_fmap.
    destruct (links (graph L) !! i) as [li|] eqn:Ei; [|done].
    destruct (links (graph L) !! j) as [lj|] eqn:Ej; [|done].
    simpl. intros [= <-] [= Hx]. rewrite (HL i li Ei), (HL j lj Ej) in Hx. lia.
  - intros l (i & Hi)%list_elem_of_lookup.
    rewrite (HL i l Hi). apply lookup_lt_Some in Hi. unfold getLinkCount. lia.
Qed.

Lemma slots_in_order_witness :
  slotsInOrder Examples.layoutABC
  ∧ NoDup (ldata <$> links (graph Examples.layoutABC))
  ∧ (∀ l, l ∈ links (graph Examples.layoutABC) →
       ldata l + 1 < 2 * getLinkCount (graph Examples.layoutABC)).
Proof. apply slots_in_order. apply rtc_once, growStep_fromMetadataCache. Defined.

(** X6. [link] is idempotent, on any layout: a second [link] of the same two
    handles changes nothing, and the first one leaves the links that were
    there where they are and adds at most one. *)
Theorem link_idempotent a b L :
  link a b (link a b L) = link a b L
  ∧ linked (link a b L) a b
  ∧ links (graph L) `prefix_of` links (graph (link a b L))
  ∧ getLinkCount (graph (link a b L)) ≤ S (getLinkCount (graph L)).
Proof.
  assert (linked (link a b L) a b) as Hlk.
  { unfold linked. apply getLink_is_Some. rewrite links_link.
    destruct (getLink (graph L) a b) as [l|] eqn:E.
    - rewrite app_nil_r. apply getLink_is_Some. by rewrite E.
    - rewrite fmap_app. apply elem_of_app. right. by apply list_elem_of_singleton. }
  split; [|split; [done|split]].
  - destruct Hlk as [l Hl]. unfold link at 1, hasLink. by rewrite Hl.
  - rewrite links_link. by apply prefix_app_r.
  - unfold getLinkCount. rewrite links_link, length_app.
    destruct (getLink (graph L) a b); simpl; lia.
Qed.

Lemma addOrGetNode_fst node L :
  (addOrGetNode node L).1 = default (getNodeCount (graph L)) (nameToId L !! label node).
Proof. unfold addOrGetNode. simpl. by destruct (nameToId L !! label node). Qed.

Lemma getNodeCount_addOrGetNode_any node L :
  getNodeCount (graph (addOrGetNode node L).2) =
  if getNode (graph L) (addOrGetNode node L).1 is Some _
  then getNodeCount (graph L) else S (getNodeCount (graph L)).
Proof. unfold addOrGetNode. simpl. apply getNodeCount_addNode. Qed.

(** X7. [addOrGetNode] and the two maps, on any layout: the label is mapped to
    the handle returned, the node with that handle carries the data passed,
    no link changes, and a further call with the same label returns the same
    handle, adds no node and replaces the data. *)
Theorem addOrGetNode_lookup node L :
  nameToId (addOrGetNode node L).2 !! label node = Some (addOrGetNode node L).1
  ∧ getNode (graph (addOrGetNode node L).2) (addOrGetNode node L).1
    = Some (mkNode (addOrGetNode node L).1 (Some node))
  ∧ links (graph (addOrGetNode node L).2) = links (graph L)
  ∧ (∀ node', label node' = label node →
       (addOrGetNode node' (addOrGetNode node L).2).1 = (addOrGetNode node L).1
       ∧ getNodeCount (graph (addOrGetNode node' (addOrGetNode node L).2).2)
         = getNodeCount (graph (addOrGetNode node L).2)
       ∧ getNode (graph (addOrGetNode node' (addOrGetNode node L).2).2)
                 (addOrGetNode node L).1
         = Some (mkNode (addOrGetNode node L).1 (Some node'))).
Proof.
  assert (∀ n0 L0, nameToId (addOrGetNode n0 L0).2 !! label n0 = Some (addOrGetNode n0 L0).1)
    as Hname by (intros; rewrite nameToId_addOrGetNode; apply lookup_insert_eq).
  assert (∀ n0 L0, getNode (graph (addOrGetNode n0 L0).2) (addOrGetNode n0 L0).1
                   = Some (mkNode (addOrGetNode n0 L0).1 (Some n0))) as Hnode.
  { intros n0 L0. unfold addOrGetNode at 1. simpl.
    rewrite getNode_addNode. by rewrite decide_True. }
  split; [done|]. split; [done|]. split; [apply links_addOrGetNode|].
  intros node' Hlbl. set (L1 := (addOrGetNode node L).2).
  assert ((addOrGetNode node' L1).1 = (addOrGetNode node L).1) as Hfst.
  { rewrite addOrGetNode_fst, Hlbl. unfold L1. by rewrite Hname. }
  split; [done|]. split.
  - rewrite getNodeCount_addOrGetNode_any, Hfst. unfold L1. by rewrite Hnode.
  - rewrite <-Hfst. apply Hnode.
Qed.

(** X8. [syncWithCache] and the full rebuild: on a layout built from the empty
    one, [syncWithCache] leaves the handles, the nodes and the labels that
    [fromMetadataCache] leaves, and its links are links that
    [fromMetadataCache] leaves, in the same order. *)
Theorem sync_refines_rebuild mc L L' :
  reachable L → syncWithCache mc L = Some L' →
  nameToId L' = nameToId (fromMetadataCache mc L)
  ∧ id <$> nodes (graph L') = id <$> nodes (graph (fromMetadataCache mc L))
  ∧ (∀ i, labelOf L' i = labelOf (fromMetadataCache mc L) i)
  ∧ links (graph L') `sublist_of` links (graph (fromMetadataCache mc L))
  ∧ links (graph L) `sublist_of` links (graph (fromMetadataCache mc L)).
Proof.
  intros HL%reachable_wf Hsync.
  destruct (syncWithCache_spec mc L HL) as (L'' & Hsync' & _ & Hsame & Hlinks & _).
  assert (L'' = L') as -> by congruence.
  destruct (fromMetadataCache_spec mc L HL) as (_ & He & _).
  split; [apply Hsame|]. split; [apply Hsame|]. split; [apply Hsame|]. split.
  - rewrite Hlinks. apply sublist_filter.
  - destruct (ext_links _ _ _ _ He) as (R & -> & _). by apply sublist_inserts_r.
Qed.

Lemma sync_refines_rebuild_witness :
  nameToId Examples.layoutAC = nameToId (fromMetadataCache Examples.snapAC Examples.layoutAB)
  ∧ id <$> nodes (graph Examples.layoutAC)
    = id <$> nodes (graph (fromMetadataCache Examples.snapAC Examples.layoutAB))
  ∧ (∀ i, labelOf Examples.layoutAC i
          = labelOf (fromMetadataCache Examples.snapAC Examples.layoutAB) i)
  ∧ links (graph Examples.layoutAC)
    `sublist_of` links (graph (fromMetadataCache Examples.snapAC Examples.layoutAB))
  ∧ links (graph Examples.layoutAB)
    `sublist_of` links (graph (fromMetadataCache Examples.snapAC Examples.layoutAB)).
Proof.
  apply sync_refines_rebuild.
  - apply rtc_once, step_fromMetadataCache.
  - vm_compute. reflexivity.
Defined.

(** *** The flag of the last write *)

Lemma flagged_addOrGetNode fl node L lbl :
  wf L → resolved node = fl ∨ label node ≠ lbl →
  flagged fl L lbl ∨ label node = lbl →
  flagged fl (addOrGetNode node L).2 lbl.
Proof.
  intros HL Hok Hm. destruct (decide (label node = lbl)) as [<-|Hne].
  - destruct Hok as [Hr|?]; [|done]. exists (addOrGetNode node L).1. split.
    + rewrite nameToId_addOrGetNode. apply lookup_insert_eq.
    + rewrite resolvedOf_addOrGetNode, decide_True by done. by rewrite Hr.
  - destruct Hm as [(i & Hi & Hr)|?]; [|done]. exists i. split.
    + rewrite nameToId_addOrGetNode. by rewrite lookup_insert_ne.
    + rewrite resolvedOf_addOrGetNode. case_decide as Hfst; [|done]. exfalso.
      destruct (nameToId L !! label node) as [j|] eqn:Hj.
      * destruct (addOrGetNode_present _ _ _ HL Hj) as [Hj' _].
        apply Hne. eapply wf_name_inj; [done..|]. congruence.
      * rewrite (addOrGetNode_absent _ _ Hj) in Hfst.
        pose proof (wf_name_lt _ _ _ HL Hi). lia.
Qed.

Lemma flagged_same_graph fl L L' lbl :
  nameToId L' = nameToId L → nodes (graph L') = nodes (graph L) →
  flagged fl L lbl → flagged fl L' lbl.
Proof.
  intros Hn Hg (i & Hi & Hr). exists i. rewrite Hn. split; [done|].
  unfold resolvedOf, getNode in *. by rewrite Hg.
Qed.

Lemma flagged_addTarget fl r s L S T lbl :
  wf L → nameToId L !! S = Some s →
  r = fl ∨ T ≠ lbl → flagged fl L lbl ∨ T = lbl →
  flagged fl (addTarget r s L T) lbl.
Proof.
  intros HL HS Hok Hm.
  change (addTarget r s L T) with
    (link s (addOrGetNode (mkGraphNode T r) L).1 (addOrGetNode (mkGraphNode T r) L).2).
  set (node := mkGraphNode T r).
  pose proof (addOrGetNode_wf node L HL) as HL1.
  pose proof (addOrGetNode_ext node L HL) as He1.
  assert (nameToId (addOrGetNode node L).2 !! S = Some s) as HS1
    by (eapply lookup_weaken; [done|apply He1]).
  assert (nameToId (addOrGetNode node L).2 !! T = Some (addOrGetNode node L).1) as HT1
    by (rewrite nameToId_addOrGetNode; apply lookup_insert_eq).
  pose proof (wf_name_lt _ _ _ HL1 HS1) as Hs. pose proof (wf_name_lt _ _ _ HL1 HT1) as Ht.
  rewrite link_spec by done.
  assert (flagged fl (addOrGetNode node L).2 lbl) as Hf
    by (by apply flagged_addOrGetNode).
  destruct (getLink _ s _); [done|]. by apply (flagged_same_graph fl (addOrGetNode node L).2).
Qed.

Lemma flagged_addTargets fl r s S Ts L lbl :
  wf L → nameToId L !! S = Some s →
  r = fl ∨ lbl ∉ Ts → flagged fl L lbl ∨ lbl ∈ Ts →
  flagged fl (foldl (addTarget r s) L Ts) lbl.
Proof.
  revert L. induction Ts as [|T Ts IH]; intros L HL HS Hok Hm; simpl.
  - destruct Hm as [?|Hin]; [done|]. by apply elem_of_nil in Hin.
  - destruct (addTarget_spec r s L S T HL HS) as (HL1 & He1 & _).
    assert (nameToId (addTarget r s L T) !! S = Some s) as HS1
      by (eapply lookup_weaken; [done|apply He1]).
    apply IH; [done..| |].
    + destruct Hok as [?|Hnot]; [by left|]. right. intros ?. apply Hnot, elem_of_cons. by right.
    + destruct (decide (lbl ∈ Ts)) as [?|Hnot']; [by right|]. left.
      apply (flagged_addTarget fl r s L S T); [done..| |].
      * destruct Hok as [?|Hnot]; [by left|]. right. intros ->. apply Hnot, elem_of_cons. by left.
      * destruct Hm as [?|[->|?]%elem_of_cons]; [by left|by right|done].
Qed.

Lemma flagged_addSource fl r L S ts lbl :
  wf L →
  fl = true ∨ S ≠ lbl → r = fl ∨ lbl ∉ JS.keys ts →
  flagged fl L lbl ∨ lbl = S ∨ lbl ∈ JS.keys ts →
  flagged fl (addSource r L (S, ts)) lbl.
Proof.
  intros HL HokS HokT Hm.
  change (addSource r L (S, ts)) with
    (foldl (addTarget r (addOrGetNode (mkGraphNode S true) L).1)
           (addOrGetNode (mkGraphNode S true) L).2 (JS.keys ts)).
  set (node := mkGraphNode S true).
  pose proof (addOrGetNode_wf node L HL) as HL1.
  assert (nameToId (addOrGetNode node L).2 !! S = Some (addOrGetNode node L).1) as HS1
    by (rewrite nameToId_addOrGetNode; apply lookup_insert_eq).
  apply (flagged_addTargets fl r _ S); [done..|].
  destruct (decide (lbl ∈ JS.keys ts)) as [?|Hnot]; [by right|]. left.
  apply flagged_addOrGetNode; [done| |].
  - simpl. destruct HokS as [->|?]; [by left|by right].
  - simpl. destruct Hm as [?|[->|?]]; [by left|by right|done].
Qed.

Lemma flagged_addLinks fl r lnks L lbl :
  wf L →
  (fl = true ∨ ∀ S ts, (S, ts) ∈ lnks → S ≠ lbl) →
  (r = fl ∨ ∀ S ts, (S, ts) ∈ lnks → lbl ∉ JS.keys ts) →
  (flagged fl L lbl ∨ ∃ S ts, (S, ts) ∈ lnks ∧ (lbl = S ∨ lbl ∈ JS.keys ts)) →
  flagged fl (addLinks lnks r L) lbl.
Proof.
  unfold addLinks. revert L.
  induction lnks as [|[S0 ts0] lnks IH]; intros L HL HokS HokT Hm; simpl.
  - destruct Hm as [?|(S & ts & Hin & _)]; [done|]. by apply elem_of_nil in Hin.
  - destruct (addSource_spec r L S0 ts0 HL) as (HL1 & _).
    apply IH; [done| | |].
    + destruct HokS as [?|Hnot]; [by left|].
      right. intros S ts Hin. apply (Hnot S ts), elem_of_cons. by right.
    + destruct HokT as [?|Hnot]; [by left|].
      right. intros S ts Hin. apply (Hnot S ts), elem_of_cons. by right.
    + destruct Hm as [Hm|(S & ts & [[= -> ->]|Hin]%elem_of_cons & Hlbl)];
        [| |right; eauto]; left; apply flagged_addSource; try done.
      * destruct HokS as [?|Hnot]; [by left|]. right. apply (Hnot S0 ts0), elem_of_cons. by left.
      * destruct HokT as [?|Hnot]; [by left|]. right. apply (Hnot S0 ts0), elem_of_cons. by left.
      * by left.
      * destruct HokS as [?|Hnot]; [by left|]. right. apply (Hnot S0 ts0), elem_of_cons. by left.
      * destruct HokT as [?|Hnot]; [by left|]. right. apply (Hnot S0 ts0), elem_of_cons. by left.
      * by right.
Qed.

Lemma flagged_syncTargets fl r s Ts L lbl :
  wf L → (∀ T, T ∈ Ts → ∃ t, nameToId L !! T = Some t ∧ linked L s t) →
  r = fl ∨ lbl ∉ Ts → flagged fl L lbl →
  flagged fl (foldl (syncTarget r s) L Ts) lbl.
Proof.
  revert L. induction Ts as [|T Ts IH]; intros L HL HTs Hok Hm; simpl; [done|].
  destruct (HTs T) as (t & HT & Hlk); [apply elem_of_cons; by left|].
  rewrite (syncTarget_present r s L T t) by done.
  set (node := mkGraphNode T r).
  destruct (addOrGetNode_present node L t HL HT) as [_ Hsame].
  apply IH.
  - by apply addOrGetNode_wf.
  - intros T' HT'. destruct (HTs T') as (t' & Ht' & Hlk'); [apply elem_of_cons; by right|].
    exists t'. rewrite (same_names _ _ Hsame). split; [done|].
    unfold linked. by rewrite getLink_addOrGetNode.
  - destruct Hok as [?|Hnot]; [by left|]. right. intros ?. apply Hnot, elem_of_cons. by right.
  - apply flagged_addOrGetNode; [done| |by left].
    destruct Hok as [?|Hnot]; [by left|]. right. simpl. intros ->.
    apply Hnot, elem_of_cons. by left.
Qed.

Lemma flagged_syncLoop mc L1 todo visited L L' lbl :
  wf L1 → (∀ S T, pairIn mc S T → linkedNames L1 S T) →
  loopInv mc L1 visited L → NoDup todo →
  (∀ s, s ∈ todo → s < getNodeCount (graph L1) ∧ s ∉ visited) →
  forEachM (syncNode mc) L todo = Some L' →
  ¬ resolvedTargetIn mc lbl → flagged false L lbl → flagged false L' lbl.
Proof.
  intros HL1 Hpairs. revert visited L.
  induction todo as [|s todo IH]; intros visited L Hinv Hnd Htodo Hrun Hres Hf; simpl in Hrun.
  - by injection Hrun as <-.
  - apply NoDup_cons in Hnd as [Hs Hnd].
    destruct (Htodo s) as [Hlt Hnew]; [apply elem_of_cons; by left|].
    destruct (syncNode_step mc L1 HL1 Hpairs visited L s Hinv Hlt Hnew) as (La & HLa & Hinv_a).
    rewrite HLa in Hrun. simpl in Hrun.
    apply (IH (s :: visited) La); [done|done| |done|done|].
    { intros s' Hs'. destruct (Htodo s') as [? ?]; [apply elem_of_cons; by right|].
      split; [done|]. intros [->|?]%elem_of_cons; done. }
    destruct Hinv as (HL & Hsame & Hlinks & _).
    destruct (wf_data _ HL1 s Hlt) as [S HS].
    assert (labelOf L s = Some S) as HSL by (by rewrite (same_labels _ _ Hsame)).
    destruct (proj1 (labelOf_Some _ _ _) HSL) as (source & d & Hsrc & Hd & Hlbl).
    destruct (getNode_Some _ _ _ Hsrc) as [_ Hid].
    unfold syncNode in HLa. rewrite Hsrc in HLa. simpl in HLa. rewrite Hd in HLa.
    simpl in HLa. rewrite Hlbl, Hid in HLa.
    set (rt := JS.get_or_empty (resolvedLinks mc) S) in *.
    set (ut := JS.get_or_empty (unresolvedLinks mc) S) in *.
    assert (∀ L0 T, sameNodes L1 L0 → links (graph L0) = links (graph L) →
              T ∈ JS.keys rt ∨ T ∈ JS.keys ut →
              ∃ t, nameToId L0 !! T = Some t ∧ linked L0 s t) as Hpresent.
    { intros L0 T Hsame0 Hlinks0 HT.
      assert (pairIn mc S T) as HP.
      { destruct HT as [(ts & ? & ?)%JS_get_or_empty_keys|(ts & ? & ?)%JS_get_or_empty_keys];
          exists ts; auto. }
      destruct (Hpairs S T HP) as (s' & t & Hs' & Ht & Hlk).
      assert (s' = s) as -> by (apply (wf_names _ HL1) in HS; congruence).
      exists t. rewrite (same_names _ _ Hsame0). split; [done|].
      unfold linked in *. apply getLink_is_Some. rewrite Hlinks0, Hlinks.
      destruct Hlk as [l [Hl Hends]%getLink_Some].
      apply list_elem_of_fmap. exists l. split; [done|].
      apply list_elem_of_filter. split; [|done].
      intros Hin. inversion Hends. congruence. }
    destruct (syncTargets_present true s (JS.keys rt) L HL) as (HLx & Hsx & Hlx & _).
    { intros T HT. apply Hpresent; auto. }
    assert (flagged false (foldl (syncTarget true s) L (JS.keys rt)) lbl) as Hfx.
    { apply flagged_syncTargets; [done| | |done].
      - intros T HT. apply Hpresent; auto.
      - right. intros (ts & Hin & HT)%JS_get_or_empty_keys. apply Hres. by exists S, ts. }
    set (Lx := foldl (syncTarget true s) L (JS.keys rt)) in *.
    assert (flagged false (foldl (syncTarget false s) Lx (JS.keys ut)) lbl) as Hfy.
    { apply flagged_syncTargets; [done| |by left|done].
      intros T HT. apply Hpresent; [by eapply sameNodes_trans|done|auto]. }
    destruct (syncTargets_present false s (JS.keys ut) Lx HLx) as (HLy & Hsy & Hly & _).
    { intros T HT. apply Hpresent; [by eapply sameNodes_trans|done|auto]. }
    set (Ly := foldl (syncTarget false s) Lx (JS.keys ut)) in *.
    assert (sameNodes L1 Ly) as Hsame_y
      by (eapply sameNodes_trans; [|done]; by eapply sameNodes_trans).
    destruct (removal_spec rt ut (labelOf L1) (outgoing (graph Ly) s) Ly)
      as (Lz & Hrunz & Hn & Hg & _).
    { intros i. apply (same_labels _ _ Hsame_y). }
    { intros x [_ Hx]%list_elem_of_filter. apply (wf_data _ HL1).
      rewrite <-(sameNodes_count _ _ Hsame_y). by apply (wf_closed _ HLy). }
    assert (Lz = La) as -> by congruence.
    by apply (flagged_same_graph false Ly).
Qed.

(** X9. The flag of an unresolved target.  On a layout built from the empty one,
    a label that is an unresolved target of the snapshot and not a source of
    its unresolved links has a node marked unresolved after
    [fromMetadataCache], whatever the resolved links say of it; and after
    [syncWithCache] as well when it is nowhere a resolved target. *)
Theorem unresolved_flag mc L lbl :
  reachable L →
  unresolvedTargetIn mc lbl → ¬ unresolvedSourceIn mc lbl →
  flagged false (fromMetadataCache mc L) lbl
  ∧ (∀ L', ¬ resolvedTargetIn mc lbl → syncWithCache mc L = Some L' →
       flagged false L' lbl).
Proof.
  intros HL%reachable_wf (S & ts & Hin & HT) Hsrc.
  assert (flagged false (fromMetadataCache mc L) lbl) as Hf.
  { unfold fromMetadataCache.
    destruct (addLinks_spec true (resolvedLinks mc) L HL) as (HLr & _).
    apply flagged_addLinks; [done| |by left|].
    - right. intros S' ts' Hin' ->. apply Hsrc. by exists ts'.
    - right. exists S, ts. auto. }
  split; [done|]. intros L' Hres Hsync.
  destruct (fromMetadataCache_spec mc L HL) as (HF & _ & _ & Hpairs & _).
  unfold syncWithCache in Hsync.
  eapply (flagged_syncLoop mc (fromMetadataCache mc L)); [done|done| | | |done|done|done].
  - split; [done|]. split; [apply sameNodes_refl|]. split; [|done].
    rewrite (filter_ext_in _ (λ _, True)).
    + induction (links (graph (fromMetadataCache mc L))) as [|l ls IHl]; [done|].
      by rewrite filter_cons_True, <-IHl.
    + intros l _. split; [done|]. intros _ Hin'. by apply elem_of_nil in Hin'.
  - rewrite (wf_ids _ HF). apply NoDup_seq.
  - intros s. rewrite (wf_ids _ HF), elem_of_seq, elem_of_nil. lia.
Qed.

Lemma unresolved_flag_witness :
  flagged false (fromMetadataCache Examples.snapApart Layout.empty) "B"
  ∧ (∀ L', ¬ resolvedTargetIn Examples.snapApart "B" →
       syncWithCache Examples.snapApart Layout.empty = Some L' →
       flagged false L' "B").
Proof.
  apply unresolved_flag.
  - apply rtc_refl.
  - exists "C", [("B", 1%Z)]. split; apply elem_of_cons; by left.
  - intros (ts & Hin). apply list_elem_of_singleton in Hin. discriminate.
Defined.

End synchronizer_more.

(** ** Further properties of the renderer *)

Section renderer_more.
Context {P M C : Type}.
Context (origin : P) (identity : M) (white : C) (makeTranslation : P → M).
Implicit Types (r : Graph3DRenderer P M C) (layout : ForceLayout P).
Implicit Types (mesh : InstancedMesh M C) (lm : LineSegments P).

Lemma updateNodePositions_linkMesh layout r :
  linkMesh (updateNodePositions identity makeTranslation layout r) = linkMesh r.
Proof.
  unfold updateNodePositions. simpl.
  match goal with |- context [foldl _ ?r0 _] =>
    destruct (setNodePositions_frame makeTranslation r0 (bodies layout))
      as (_ & _ & _ & ->) end.
  by case_decide.
Qed.

Lemma updateLinkPositions_even layout r :
  length (position (linkMesh r)) = 2 * linkBufferCapacity (linkMesh r) →
  length (position (linkMesh (updateLinkPositions origin layout r)))
  = 2 * linkBufferCapacity (linkMesh (updateLinkPositions origin layout r)).
Proof.
  intros Heven. rewrite updateLinkPositions_capacity by done.
  unfold updateLinkPositions. cbn [linkMesh position].
  rewrite length_setLinkPositions.
  destruct (growLinks_spec origin (linkMesh r) Heven) as (Hcap & Hlen & _).
  case_decide; [|done]. by rewrite Hlen, Hcap.
Qed.

(** One frame: each of the two capacities is kept or doubled, and the link
    buffer keeps two vertices per link of capacity. *)
Lemma frame_capacity layout r :
  length (position (linkMesh r)) = 2 * linkBufferCapacity (linkMesh r) →
  let r' := frame origin identity makeTranslation r layout in
  (length (instanceMatrix (instancedSpheres r'))
   = if decide (length (instanceMatrix (instancedSpheres r)) < getNodeCount (lgraph layout))
     then 2 * length (instanceMatrix (instancedSpheres r))
     else length (instanceMatrix (instancedSpheres r)))
  ∧ (linkBufferCapacity (linkMesh r')
     = if decide (linkBufferCapacity (linkMesh r) < getLinkCount (lgraph layout))
       then 2 * linkBufferCapacity (linkMesh r)
       else linkBufferCapacity (linkMesh r))
  ∧ length (position (linkMesh r')) = 2 * linkBufferCapacity (linkMesh r').
Proof.
  intros Heven r'. unfold r', frame.
  set (r1 := updateNodePositions identity makeTranslation layout r).
  assert (linkMesh r1 = linkMesh r) as Hlm by apply updateNodePositions_linkMesh.
  split; [|split].
  - change (instancedSpheres (updateLinkPositions origin layout r1))
      with (instancedSpheres r1).
    apply updateNodePositions_capacity.
  - rewrite updateLinkPositions_capacity; rewrite Hlm; done.
  - apply updateLinkPositions_even. by rewrite Hlm.
Qed.

(** X13. The capacities are multiples of the initial sizes by a power of two:
    after [initializeBuffers(n0, l0)] and any number of frames, whatever the
    graphs drawn, the instance buffer has room for [n0 * 2 ^ j] nodes and the
    link buffer for [l0 * 2 ^ k] links, with two vertices each; [j] and [k]
    are at most the number of frames.  Buffers never shrink, and a buffer
    initialized for an empty graph stays empty. *)
Theorem buffers_power_of_two n0 l0 r0 (layouts : list (ForceLayout P)) :
  let r := animate origin identity makeTranslation layouts
             (initializeBuffers origin identity n0 l0 r0) in
  ∃ j k,
    j ≤ length layouts ∧ k ≤ length layouts
    ∧ length (instanceMatrix (instancedSpheres r)) = n0 * 2 ^ j
    ∧ linkBufferCapacity (linkMesh r) = l0 * 2 ^ k
    ∧ length (position (linkMesh r)) = 2 * (l0 * 2 ^ k).
Proof.
  induction layouts as [|layout layouts IH] using rev_ind; cbv zeta.
  - exists 0, 0. unfold animate, linkBufferCapacity, initializeBuffers.
    cbn [foldl instancedSpheres linkMesh createSphereMesh createLinkMesh
         instanceMatrix position length].
    rewrite !length_replicate, (Nat.mul_comm 2 l0), Nat.div_mul by done.
    rewrite Nat.pow_0_r. repeat split; lia.
  - unfold animate in *. rewrite foldl_app. cbn [foldl].
    destruct IH as (j & k & Hj & Hk & Hn & Hl & Hp).
    set (r := foldl (frame origin identity makeTranslation)
                (initializeBuffers origin identity n0 l0 r0) layouts) in *.
    assert (length (position (linkMesh r)) = 2 * linkBufferCapacity (linkMesh r)) as Heven
      by (by rewrite Hl).
    destruct (frame_capacity layout r Heven) as (Hn' & Hl' & Hp').
    rewrite length_app. cbn [length].
    rewrite Hp', Hn', Hl'.
    destruct (decide (length (instanceMatrix (instancedSpheres r))
                      < getNodeCount (lgraph layout))) as [Hgn|Hgn];
      destruct (decide (linkBufferCapacity (linkMesh r) < getLinkCount (lgraph layout)))
        as [Hgl|Hgl].
    + exists (S j), (S k). rewrite !Nat.pow_succ_r'. repeat split; lia.
    + exists (S j), k. rewrite !Nat.pow_succ_r'. repeat split; lia.
    + exists j, (S k). rewrite !Nat.pow_succ_r'. repeat split; lia.
    + exists j, k. repeat split; lia.
Qed.

Lemma frames_capacity layout r k :
  length (position (linkMesh r)) = 2 * linkBufferCapacity (linkMesh r) →
  let r' := Nat.iter k (λ r1, frame origin identity makeTranslation r1 layout) r in
  length (position (linkMesh r')) = 2 * linkBufferCapacity (linkMesh r')
  ∧ (getNodeCount (lgraph layout) ≤ length (instanceMatrix (instancedSpheres r'))
     ∨ length (instanceMatrix (instancedSpheres r'))
       = length (instanceMatrix (instancedSpheres r)) * 2 ^ k)
  ∧ (getLinkCount (lgraph layout) ≤ linkBufferCapacity (linkMesh r')
     ∨ linkBufferCapacity (linkMesh r') = linkBufferCapacity (linkMesh r) * 2 ^ k)
  ∧ length (instanceMatrix (instancedSpheres r))
    ≤ length (instanceMatrix (instancedSpheres r'))
  ∧ linkBufferCapacity (linkMesh r) ≤ linkBufferCapacity (linkMesh r').
Proof.
  intros Heven. induction k as [|k IH]; cbv zeta.
  - simpl. split; [done|]. split; [right; lia|]. split; [right; lia|]. done.
  - rewrite Nat.iter_succ. destruct IH as (Hev & Hn & Hl & Hmn & Hml).
    set (rk := Nat.iter k (λ r1, frame origin identity makeTranslation r1 layout) r) in *.
    destruct (frame_capacity layout rk Hev) as (Hn' & Hl' & Hp').
    split; [done|]. rewrite Hn', Hl'. rewrite Nat.pow_succ_r'.
    destruct (decide (length (instanceMatrix (instancedSpheres rk))
                      < getNodeCount (lgraph layout))) as [Hgn|Hgn];
      destruct (decide (linkBufferCapacity (linkMesh rk) < getLinkCount (lgraph layout)))
        as [Hgl|Hgl].
    all: split; [|split; [|split; lia]].
    all: try (left; lia).
    all: try (destruct Hn as [Hx|Hx]; [lia|right; rewrite Hx in *; lia]).
    all: try (destruct Hl as [Hx|Hx]; [lia|right; rewrite Hx in *; lia]).
Qed.

(** X14. The buffers catch up with a graph that stays the same: when both
    capacities are positive, after as many frames as the graph has nodes and
    links each buffer has room for the whole graph. *)
Theorem growth_catches_up layout r k :
  length (position (linkMesh r)) = 2 * linkBufferCapacity (linkMesh r) →
  0 < length (instanceMatrix (instancedSpheres r)) →
  0 < linkBufferCapacity (linkMesh r) →
  getNodeCount (lgraph layout) ≤ k → getLinkCount (lgraph layout) ≤ k →
  let r' := Nat.iter k (λ r1, frame origin identity makeTranslation r1 layout) r in
  getNodeCount (lgraph layout) ≤ length (instanceMatrix (instancedSpheres r'))
  ∧ getLinkCount (lgraph layout) ≤ linkBufferCapacity (linkMesh r').
Proof.
  intros Heven Hn0 Hl0 Hnk Hlk.
  destruct (frames_capacity layout r k Heven) as (_ & Hn & Hl & _).
  pose proof (Nat.pow_gt_lin_r 2 k ltac:(lia)) as Hpow.
  split.
  - destruct Hn as [Hx|Hx]; [done|]. rewrite Hx. nia.
  - destruct Hl as [Hx|Hx]; [done|]. rewrite Hx. nia.
Qed.

Lemma setNodePosition_other r body i :
  i ≠ body.1 →
  instanceMatrix (instancedSpheres (setNodePosition makeTranslation r body)) !! i
  = instanceMatrix (instancedSpheres r) !! i
  ∧ nodesData (setNodePosition makeTranslation r body) !! i = nodesData r !! i.
Proof.
  destruct body as [nodeId pos]. simpl. intros Hne. split.
  - by rewrite list_lookup_insert_ne.
  - destruct (nodesData r !! nodeId); [|done]. by rewrite lookup_insert_ne.
Qed.

Lemma setNodePositions_other r bs i :
  i ∉ bs.*1 →
  instanceMatrix (instancedSpheres (foldl (setNodePosition makeTranslation) r bs)) !! i
  = instanceMatrix (instancedSpheres r) !! i
  ∧ nodesData (foldl (setNodePosition makeTranslation) r bs) !! i = nodesData r !! i.
Proof.
  revert r. induction bs as [|z bs IH]; intros r Hi; [done|].
  apply not_elem_of_cons in Hi as [Hne Hi]. cbn [foldl].
  destruct (IH (setNodePosition makeTranslation r z) Hi) as [-> ->].
  by apply setNodePosition_other.
Qed.

Lemma setNodePosition_here r nodeId pos :
  instanceMatrix (instancedSpheres (setNodePosition makeTranslation r (nodeId, pos)))
    !! nodeId
  = (if decide (nodeId < length (instanceMatrix (instancedSpheres r)))
     then Some (makeTranslation pos) else None)
  ∧ nodesData (setNodePosition makeTranslation r (nodeId, pos)) !! nodeId
    = movedTo pos <$> nodesData r !! nodeId.
Proof.
  simpl. split.
  - case_decide.
    + by apply list_lookup_insert_eq.
    + apply lookup_ge_None_2. rewrite length_insert. lia.
  - destruct (nodesData r !! nodeId) as [lbl|] eqn:E; simpl.
    + by rewrite lookup_insert_eq.
    + done.
Qed.

Lemma setNodePositions_writes r bs nodeId pos :
  NoDup bs.*1 → (nodeId, pos) ∈ bs →
  instanceMatrix (instancedSpheres (foldl (setNodePosition makeTranslation) r bs))
    !! nodeId
  = (if decide (nodeId < length (instanceMatrix (instancedSpheres r)))
     then Some (makeTranslation pos) else None)
  ∧ nodesData (foldl (setNodePosition makeTranslation) r bs) !! nodeId
    = movedTo pos <$> nodesData r !! nodeId.
Proof.
  revert r. induction bs as [|[n0 p0] bs IH]; intros r Hnd Hin;
    [by apply elem_of_nil in Hin|].
  rewrite fmap_cons in Hnd. apply NoDup_cons in Hnd as [Hn0 Hnd]. cbn [foldl].
  apply elem_of_cons in Hin as [Heq|Hin].
  - injection Heq as -> ->.
    destruct (setNodePositions_other (setNodePosition makeTranslation r (n0, p0)) bs n0 Hn0)
      as [-> ->].
    apply setNodePosition_here.
  - assert (nodeId ≠ n0) as Hne.
    { intros ->. apply Hn0. apply list_elem_of_fmap. by exists (n0, pos). }
    destruct (IH (setNodePosition makeTranslation r (n0, p0)) Hnd Hin) as [-> ->].
    destruct (setNodePosition_frame makeTranslation r (n0, p0)) as (-> & _).
    by destruct (setNodePosition_other r (n0, p0) nodeId Hne) as [_ ->].
Qed.

Lemma updateNodePositions_matrix layout r nodeId pos :
  NoDup (bodies layout).*1 → (nodeId, pos) ∈ bodies layout →
  instanceMatrix (instancedSpheres (updateNodePositions identity makeTranslation layout r))
    !! nodeId
  = (if decide (nodeId < length (instanceMatrix (instancedSpheres
                   (updateNodePositions identity makeTranslation layout r))))
     then Some (makeTranslation pos) else None).
Proof.
  intros Hnd Hin. unfold updateNodePositions. cbn [instancedSpheres instanceMatrix].
  match goal with |- context [foldl _ ?r0 _] => set (r1 := r0) end.
  destruct (setNodePositions_frame makeTranslation r1 (bodies layout)) as (-> & _).
  by destruct (setNodePositions_writes r1 (bodies layout) nodeId pos Hnd Hin) as [-> _].
Qed.

(** X15. What one [updateNodePositions] writes, when the layout has one body
    for a node: the translation to the body's position is in the instance
    buffer at the node's handle when the handle is below the capacity (the
    capacity after the doubling, if there was one), and dropped when it is
    not; the sprite of the node's label is moved to the position in both
    cases; and the label of a node for which the layout has no body is left
    as it is. *)
Theorem bodies_written layout r nodeId pos :
  NoDup (bodies layout).*1 → (nodeId, pos) ∈ bodies layout →
  let r' := updateNodePositions identity makeTranslation layout r in
  instanceMatrix (instancedSpheres r') !! nodeId
  = (if decide (nodeId < length (instanceMatrix (instancedSpheres r')))
     then Some (makeTranslation pos) else None)
  ∧ nodesData r' !! nodeId = movedTo pos <$> nodesData r !! nodeId
  ∧ ∀ i, i ∉ (bodies layout).*1 → nodesData r' !! i = nodesData r !! i.
Proof.
  intros Hnd Hin. cbv zeta. split; [by apply updateNodePositions_matrix|].
  unfold updateNodePositions. cbn [nodesData].
  match goal with |- context [foldl _ ?r0 _] => set (r1 := r0) end.
  assert (nodesData r1 = nodesData r) as Hdata by (unfold r1; by case_decide).
  destruct (setNodePositions_writes r1 (bodies layout) nodeId pos Hnd Hin) as [_ ->].
  rewrite Hdata. split; [done|].
  intros i Hi. destruct (setNodePositions_other r1 (bodies layout) i Hi) as [_ ->].
  by rewrite Hdata.
Qed.

Lemma setLinkPositions_writes (getPos : Link → P * P) (ps : list P) (ls : list Link) :
  (∀ i l, ls !! i = Some l → ldata l = 2 * i) →
  ∀ i l, ls !! i = Some l →
    foldl (setLinkPosition getPos) ps ls !! (2 * i)
    = (if decide (2 * i < length ps) then Some (getPos l).1 else None)
    ∧ foldl (setLinkPosition getPos) ps ls !! (2 * i + 1)
      = (if decide (2 * i + 1 < length ps) then Some (getPos l).2 else None).
Proof.
  induction ls as [|x ls IH] using rev_ind; intros Hslots i l Hl;
    [by rewrite lookup_nil in Hl|].
  rewrite foldl_app. cbn [foldl].
  pose proof (length_setLinkPositions getPos ps ls) as Hlen.
  set (ps' := foldl (setLinkPosition getPos) ps ls) in *.
  assert (ldata x = 2 * length ls) as Hx.
  { apply Hslots. rewrite lookup_app_r by done. by rewrite Nat.sub_diag. }
  unfold setLinkPosition. destruct (getPos x) as [from to] eqn:Hpos. rewrite Hx.
  apply lookup_app_Some in Hl as [Hl|[Hge Hl]].
  - pose proof (lookup_lt_Some _ _ _ Hl) as Hlt.
    rewrite !list_lookup_insert_ne by lia.
    apply IH; [|done]. intros j l' Hj. apply Hslots. by apply lookup_app_l_Some.
  - apply list_lookup_singleton_Some in Hl as [Hi <-].
    assert (i = length ls) as -> by lia.
    rewrite Hpos. cbn [fst snd]. split.
    + rewrite list_lookup_insert_ne by lia.
      case_decide.
      * rewrite list_lookup_insert_eq; [done|lia].
      * apply lookup_ge_None_2. rewrite length_insert. lia.
    + case_decide.
      * rewrite list_lookup_insert_eq; [done|]. rewrite length_insert. lia.
      * apply lookup_ge_None_2. rewrite !length_insert. lia.
Qed.

Lemma updateLinkPositions_vertices layout r i l :
  (∀ j l', links (lgraph layout) !! j = Some l' → ldata l' = 2 * j) →
  length (position (linkMesh r)) = 2 * linkBufferCapacity (linkMesh r) →
  links (lgraph layout) !! i = Some l →
  let r' := updateLinkPositions origin layout r in
  if decide (i < linkBufferCapacity (linkMesh r'))
  then position (linkMesh r') !! ldata l = Some (getLinkPosition layout l).1
       ∧ position (linkMesh r') !! (ldata l + 1) = Some (getLinkPosition layout l).2
  else position (linkMesh r') !! ldata l = None
       ∧ position (linkMesh r') !! (ldata l + 1) = None.
Proof.
  intros Hslots Heven Hl. cbv zeta.
  pose proof (updateLinkPositions_even layout r Heven) as Heven'.
  set (c := linkBufferCapacity (linkMesh (updateLinkPositions origin layout r))) in *.
  rewrite (Hslots i l Hl).
  revert Heven'. unfold updateLinkPositions. cbn [linkMesh position].
  match goal with |- context [foldl _ ?ps0 _] => set (ps := ps0) end.
  rewrite length_setLinkPositions. intros Heven'.
  destruct (setLinkPositions_writes (getLinkPosition layout) ps
              (links (lgraph layout)) Hslots i l Hl) as [-> ->].
  rewrite Heven'. repeat case_decide; try lia; done.
Qed.

(** X16. What one [updateLinkPositions] writes, when the slots of the graph
    are in order: the two end points of the link at place [i] are at the
    vertices [2 * i] and [2 * i + 1] when the link is below the capacity
    (the capacity after the doubling, if there was one) and are dropped when
    it is not; the draw range covers the two vertices in both cases. *)
Theorem links_written layout r i l :
  (∀ j l', links (lgraph layout) !! j = Some l' → ldata l' = 2 * j) →
  length (position (linkMesh r)) = 2 * linkBufferCapacity (linkMesh r) →
  links (lgraph layout) !! i = Some l →
  let r' := updateLinkPositions origin layout r in
  (if decide (i < linkBufferCapacity (linkMesh r'))
   then position (linkMesh r') !! ldata l = Some (getLinkPosition layout l).1
        ∧ position (linkMesh r') !! (ldata l + 1) = Some (getLinkPosition layout l).2
   else position (linkMesh r') !! ldata l = None
        ∧ position (linkMesh r') !! (ldata l + 1) = None)
  ∧ ∃ n, drawRange (linkMesh r') = Some (0, n) ∧ ldata l + 1 < n.
Proof.
  intros Hslots Heven Hl. cbv zeta. split.
  - by apply updateLinkPositions_vertices.
  - eexists. split; [reflexivity|].
    rewrite (Hslots i l Hl). apply lookup_lt_Some in Hl. unfold getLinkCount. lia.
Qed.

Lemma growSteps_slotsInOrder L : rtc growStep Layout.empty L → slotsInOrder L.
Proof.
  revert L. apply rtc_ind_r.
  - intros i l. simpl. by rewrite lookup_nil.
  - intros L1 L2 _ Hstep IH. destruct Hstep.
    + by apply slotsInOrder_addOrGetNode.
    + by apply slotsInOrder_link.
    + by apply slotsInOrder_fromMetadataCache.
Qed.

(** X17. The first frame of a view ([onOpen]): the layout is built without a
    removal, the buffers are initialized with its node and link counts, and
    one frame is drawn.  Neither buffer grows, the instance count and the
    draw range are the two counts, the translation of every body of a node
    of the graph is at the node's handle, and the two end points of every
    link are at the link's slot and the one after it. *)
Theorem first_frame L layout r0 :
  rtc growStep Layout.empty L →
  lgraph layout = graph L →
  NoDup (bodies layout).*1 →
  let r := frame origin identity makeTranslation
             (initializeBuffers origin identity (getNodeCount (graph L))
                                (getLinkCount (graph L)) r0) layout in
  length (instanceMatrix (instancedSpheres r)) = getNodeCount (graph L)
  ∧ count (instancedSpheres r) = getNodeCount (graph L)
  ∧ length (position (linkMesh r)) = 2 * getLinkCount (graph L)
  ∧ drawRange (linkMesh r) = Some (0, 2 * getLinkCount (graph L))
  ∧ (∀ nodeId pos, (nodeId, pos) ∈ bodies layout → nodeId < getNodeCount (graph L) →
       instanceMatrix (instancedSpheres r) !! nodeId = Some (makeTranslation pos))
  ∧ (∀ l, l ∈ links (graph L) →
       position (linkMesh r) !! ldata l = Some (getLinkPosition layout l).1
       ∧ position (linkMesh r) !! (ldata l + 1) = Some (getLinkPosition layout l).2).
Proof.
  intros Hsteps Hg Hnd. cbv zeta.
  pose proof (growSteps_slotsInOrder L Hsteps) as Hslots.
  set (rI := initializeBuffers origin identity (getNodeCount (graph L))
               (getLinkCount (graph L)) r0).
  assert (length (instanceMatrix (instancedSpheres rI)) = getNodeCount (graph L)) as HnI.
  { unfold rI. simpl. by rewrite length_replicate. }
  assert (length (position (linkMesh rI)) = 2 * getLinkCount (graph L)) as HpI.
  { unfold rI, initializeBuffers, createLinkMesh. cbn [linkMesh position].
    by rewrite length_replicate. }
  assert (linkBufferCapacity (linkMesh rI) = getLinkCount (graph L)) as HlI.
  { unfold linkBufferCapacity. rewrite HpI, Nat.mul_comm. by apply Nat.div_mul. }
  assert (length (position (linkMesh rI)) = 2 * linkBufferCapacity (linkMesh rI)) as Heven
    by (by rewrite HlI).
  destruct (frame_capacity layout rI Heven) as (Hn & Hl & Hp).
  rewrite HnI, Hg in Hn. rewrite HlI, Hg in Hl.
  rewrite decide_False in Hn by lia. rewrite decide_False in Hl by lia.
  rewrite Hl in Hp. unfold frame in *.
  set (r1 := updateNodePositions identity makeTranslation layout rI) in *.
  assert (linkMesh r1 = linkMesh rI) as Hlm by apply updateNodePositions_linkMesh.
  split; [done|]. split.
  { change (count (instancedSpheres (updateLinkPositions origin layout r1)))
      with (getNodeCount (lgraph layout)). by rewrite Hg. }
  split; [done|]. split.
  { change (drawRange (linkMesh (updateLinkPositions origin layout r1)))
      with (Some (0, 2 * getLinkCount (lgraph layout))). by rewrite Hg. }
  split.
  - intros nodeId pos Hin Hlt.
    change (instancedSpheres (updateLinkPositions origin layout r1))
      with (instancedSpheres r1) in *.
    pose proof (updateNodePositions_matrix layout rI nodeId pos Hnd Hin) as Hm.
    fold r1 in Hm. rewrite Hm, Hn. by rewrite decide_True.
  - intros l (i & Hi)%list_elem_of_lookup.
    assert (length (position (linkMesh r1)) = 2 * linkBufferCapacity (linkMesh r1)) as Hev1
      by (by rewrite Hlm).
    rewrite <- Hg in Hi.
    pose proof (updateLinkPositions_vertices layout r1 i l) as Hw.
    cbv zeta in Hw. rewrite Hl in Hw. rewrite Hg in Hw. specialize (Hw Hslots Hev1).
    rewrite <- Hg in Hw. specialize (Hw Hi). rewrite decide_True in Hw; [done|].
    apply lookup_lt_Some in Hi. by unfold getLinkCount.
Qed.

Lemma movedTo_movedTo (pos pos' : P) (lbl : NodeLabel P) :
  movedTo pos' (movedTo pos lbl) = movedTo pos' lbl.
Proof. done. Qed.

Lemma movedTo_spritePosition (lbl : NodeLabel P) : movedTo (spritePosition lbl) lbl = lbl.
Proof. by destruct lbl. Qed.

Lemma labelShape_movedTo (pos : P) (lbl : NodeLabel P) :
  labelShape lbl → labelShape (movedTo pos lbl).
Proof. done. Qed.

Lemma setNodeLabel_has h nodeId (t : string) r lbl :
  nodesData r !! nodeId = Some lbl → setNodeLabel origin h nodeId t r = r.
Proof.
  intros Hl. unfold setNodeLabel. rewrite Hl, (insert_id _ _ _ Hl). by destruct r.
Qed.

Lemma setNodeLabel_is_Some h nodeId (t : string) r :
  is_Some (nodesData (setNodeLabel origin h nodeId t r) !! nodeId).
Proof.
  unfold setNodeLabel. destruct (nodesData r !! nodeId) as [lbl|]; simpl.
  - rewrite lookup_insert_eq. by eexists.
  - destruct (newNodeLabel origin h t (console r)) as [lbl c]. simpl.
    rewrite lookup_insert_eq. by eexists.
Qed.

(** X18. A label is drawn once: a second [setNodeLabel] for the same node
    changes nothing, whatever its text and whatever the host answers; the
    text of the first call stays, also when its canvas had no context. *)
Theorem label_never_redrawn h h' nodeId (t t' : string) r :
  setNodeLabel origin h' nodeId t' (setNodeLabel origin h nodeId t r)
  = setNodeLabel origin h nodeId t r.
Proof.
  destruct (setNodeLabel_is_Some h nodeId t r) as [lbl Hl].
  by apply (setNodeLabel_has h' nodeId t' _ lbl).
Qed.

Lemma newNodeLabel_spec h (t : string) (c : list string) :
  labelShape (newNodeLabel origin h t c).1
  ∧ c `prefix_of` (newNodeLabel origin h t c).2.
Proof.
  unfold newNodeLabel, setText. cbn [text]. rewrite decide_False by done.
  destruct (getContext h); cbn [fst snd].
  - split; [|done]. unfold labelShape. cbn. split; [lia|done].
  - split; [done|]. by apply prefix_app_r.
Qed.

Lemma setNodePositions_data r bs :
  sceneSprites (foldl (setNodePosition makeTranslation) r bs) = sceneSprites r
  ∧ console (foldl (setNodePosition makeTranslation) r bs) = console r
  ∧ ∀ i, ∃ f : NodeLabel P → NodeLabel P,
      nodesData (foldl (setNodePosition makeTranslation) r bs) !! i
      = f <$> nodesData r !! i
      ∧ ∀ lbl, ∃ pos, f lbl = movedTo pos lbl.
Proof.
  revert r. induction bs as [|[n0 p0] bs IH]; intros r.
  - cbn [foldl]. split; [done|]. split; [done|]. intros i. exists (λ lbl, lbl). split.
    + by destruct (nodesData r !! i).
    + intros lbl. exists (spritePosition lbl). by rewrite movedTo_spritePosition.
  - cbn [foldl]. destruct (IH (setNodePosition makeTranslation r (n0, p0)))
      as (-> & -> & Hdata).
    split; [done|]. split; [done|]. intros i.
    destruct (Hdata i) as (f & -> & Hf).
    destruct (decide (i = n0)) as [->|Hne].
    + destruct (setNodePosition_here r n0 p0) as [_ ->].
      exists (λ lbl, f (movedTo p0 lbl)). split.
      * by destruct (nodesData r !! n0).
      * intros lbl. destruct (Hf (movedTo p0 lbl)) as [pos ->]. by exists pos.
    + destruct (setNodePosition_other r (n0, p0) i Hne) as [_ ->]. by exists f.
Qed.

Lemma updateNodePositions_data layout r :
  sceneSprites (updateNodePositions identity makeTranslation layout r) = sceneSprites r
  ∧ console (updateNodePositions identity makeTranslation layout r) = console r
  ∧ ∀ i, ∃ f : NodeLabel P → NodeLabel P,
      nodesData (updateNodePositions identity makeTranslation layout r) !! i
      = f <$> nodesData r !! i
      ∧ ∀ lbl, ∃ pos, f lbl = movedTo pos lbl.
Proof.
  unfold updateNodePositions. cbn [sceneSprites console nodesData].
  match goal with |- context [foldl _ ?r0 _] => set (r1 := r0) end.
  assert (nodesData r1 = nodesData r ∧ sceneSprites r1 = sceneSprites r
          ∧ console r1 = console r) as (Hd & Hs & Hc) by (unfold r1; by case_decide).
  destruct (setNodePositions_data r1 (bodies layout)) as (-> & -> & Hdata).
  rewrite Hs, Hc. split; [done|]. split; [done|]. intros i.
  destruct (Hdata i) as (f & -> & Hf). rewrite Hd. by exists f.
Qed.

(** What one call of the renderer does to the label of a node: it moves its
    sprite, or it creates the label when there was none. *)
Lemma renderStep_data r r' i :
  renderStep origin identity white makeTranslation r r' →
  (∃ f : NodeLabel P → NodeLabel P,
     nodesData r' !! i = f <$> nodesData r !! i ∧ ∀ lbl, ∃ pos, f lbl = movedTo pos lbl)
  ∨ (nodesData r !! i = None ∧ ∃ lbl, nodesData r' !! i = Some lbl ∧ labelShape lbl).
Proof.
  assert (∃ f : NodeLabel P → NodeLabel P,
            nodesData r !! i = f <$> nodesData r !! i
            ∧ ∀ lbl, ∃ pos, f lbl = movedTo pos lbl) as Hid.
  { exists (λ lbl, lbl). split; [by destruct (nodesData r !! i)|].
    intros lbl. exists (spritePosition lbl). by rewrite movedTo_spritePosition. }
  intros Hstep. destruct Hstep as [h nodeId t r| | |].
  - destruct (nodesData r !! nodeId) as [lbl|] eqn:Hl.
    + left. by rewrite (setNodeLabel_has h nodeId t r lbl Hl).
    + unfold setNodeLabel. rewrite Hl.
      pose proof (newNodeLabel_spec h t (console r)) as [Hshape _].
      destruct (newNodeLabel origin h t (console r)) as [lbl c]. cbn [nodesData].
      destruct (decide (i = nodeId)) as [->|Hne].
      * right. split; [done|]. exists lbl. by rewrite lookup_insert_eq.
      * left. by rewrite lookup_insert_ne.
  - by left.
  - left. by destruct (updateNodePositions_data layout r) as (_ & _ & Hdata).
  - by left.
Qed.

Lemma renderStep_spritesOnce r r' :
  renderStep origin identity white makeTranslation r r' →
  (spritesOnce r → spritesOnce r')
  ∧ sceneSprites r `prefix_of` sceneSprites r'
  ∧ console r `prefix_of` console r'.
Proof.
  intros Hstep. destruct Hstep as [h nodeId t r| | |].
  - destruct (nodesData r !! nodeId) as [lbl|] eqn:Hl.
    + by rewrite (setNodeLabel_has h nodeId t r lbl Hl).
    + unfold setNodeLabel. rewrite Hl.
      pose proof (newNodeLabel_spec h t (console r)) as [_ Hc].
      destruct (newNodeLabel origin h t (console r)) as [lbl c].
      cbn [nodesData sceneSprites console]. split; [|split; [by apply prefix_app_r|done]].
      intros [Hnd Hin]. unfold spritesOnce. cbn [nodesData sceneSprites]. split.
      * apply NoDup_app. split; [done|]. split; [|apply NoDup_singleton].
        intros j Hj ->%list_elem_of_singleton. apply Hin in Hj. rewrite Hl in Hj.
        by destruct Hj.
      * intros j. rewrite elem_of_app, list_elem_of_singleton, Hin.
        destruct (decide (j = nodeId)) as [->|Hne].
        -- rewrite lookup_insert_eq. split; [by eexists|by right].
        -- rewrite lookup_insert_ne by done. split; [by intros [?|?]|by left].
  - done.
  - destruct (updateNodePositions_data layout r) as (Hs & Hc & Hdata).
    rewrite Hs, Hc. split; [|done]. intros [Hnd Hin]. split; [by rewrite Hs|].
    intros j. rewrite Hs, Hin. destruct (Hdata j) as (f & -> & _).
    by rewrite fmap_is_Some.
  - done.
Qed.

(** X19. Labels are kept: over any sequence of calls of the renderer a label
    stays the label of its node, with its text, its canvas and its scale; all
    that changes is the position of its sprite. *)
Theorem labels_persist r r' i (lbl : NodeLabel P) :
  rtc (renderStep origin identity white makeTranslation) r r' →
  nodesData r !! i = Some lbl →
  ∃ pos, nodesData r' !! i = Some (movedTo pos lbl).
Proof.
  intros Hsteps Hl. revert r' Hsteps. apply rtc_ind_r.
  - exists (spritePosition lbl). by rewrite movedTo_spritePosition.
  - intros r1 r2 _ Hstep [pos Hpos].
    destruct (renderStep_data r1 r2 i Hstep) as [(f & -> & Hf)|[Hnone _]];
      [|by rewrite Hpos in Hnone].
    rewrite Hpos. cbn. destruct (Hf (movedTo pos lbl)) as [pos' ->]. by exists pos'.
Qed.

(** X20. One sprite per label: when the scene holds exactly one label sprite
    for every node that has a label, it still does after any sequence of
    calls of the renderer; sprites are only added, at the end, and the
    console is only appended to. *)
Theorem sprites_once r r' :
  spritesOnce r →
  rtc (renderStep origin identity white makeTranslation) r r' →
  spritesOnce r'
  ∧ sceneSprites r `prefix_of` sceneSprites r'
  ∧ console r `prefix_of` console r'.
Proof.
  intros Hr Hsteps. revert r' Hsteps. apply rtc_ind_r; [done|].
  intros r1 r2 _ Hstep (H1 & Hs & Hc).
  destruct (renderStep_spritesOnce r1 r2 Hstep) as (H2 & Hs' & Hc').
  split; [by apply H2|]. split; by etrans.
Qed.

(** X21. Every label is drawn or blank: after [initializeBuffers] and any
    sequence of calls of the renderer, a label either has a text, a canvas 68
    pixels high and at least 20 wide and a sprite of a hundredth of the
    canvas's size, or has no text, the canvas of 300 x 150 and the scale 1. *)
Theorem labels_drawn_or_blank n0 l0 r0 r' i (lbl : NodeLabel P) :
  rtc (renderStep origin identity white makeTranslation)
      (initializeBuffers origin identity n0 l0 r0) r' →
  nodesData r' !! i = Some lbl →
  labelShape lbl.
Proof.
  intros Hsteps. revert lbl. revert r' Hsteps.
  apply (rtc_ind_r (λ r', ∀ lbl, nodesData r' !! i = Some lbl → labelShape lbl)).
  - intros lbl. cbn [initializeBuffers nodesData]. by rewrite lookup_empty.
  - intros r1 r2 _ Hstep IH lbl Hl.
    destruct (renderStep_data r1 r2 i Hstep) as [(f & Hf & Hmv)|(_ & lbl' & Hl' & Hshape)].
    + rewrite Hl in Hf. destruct (nodesData r1 !! i) as [lbl1|] eqn:Hl1; [|done].
      injection Hf as ->. destruct (Hmv lbl1) as [pos ->].
      by apply labelShape_movedTo, IH.
    + rewrite Hl in Hl'. by injection Hl' as <-.
Qed.

Lemma colorsOf_setNodeColor nodeId (c : C) r :
  colorsOf white (instancedSpheres (setNodeColor white nodeId c r))
  = <[nodeId := c]> (colorsOf white (instancedSpheres r))
  ∧ instanceColor (instancedSpheres (setNodeColor white nodeId c r))
    = Some (colorsOf white (instancedSpheres (setNodeColor white nodeId c r)))
  ∧ instanceMatrix (instancedSpheres (setNodeColor white nodeId c r))
    = instanceMatrix (instancedSpheres r).
Proof. done. Qed.

Lemma updateNodeColorsFrom_spec (draw : nat → C) (grey : C) (ns : list Node) k r :
  (∀ n, n ∈ ns → is_Some (data n)) →
  NoDup (id <$> ns) →
  ∃ r', updateNodeColorsFrom white draw grey k ns r = Some r'
    ∧ instanceMatrix (instancedSpheres r') = instanceMatrix (instancedSpheres r)
    ∧ length (colorsOf white (instancedSpheres r'))
      = length (colorsOf white (instancedSpheres r))
    ∧ (ns ≠ [] → instanceColor (instancedSpheres r')
                 = Some (colorsOf white (instancedSpheres r')))
    ∧ (∀ j n d, ns !! j = Some n → data n = Some d →
         id n < length (colorsOf white (instancedSpheres r)) →
         colorsOf white (instancedSpheres r') !! id n
         = Some (if resolved d then draw (k + j) else grey))
    ∧ (∀ i, i ∉ id <$> ns →
         colorsOf white (instancedSpheres r') !! i
         = colorsOf white (instancedSpheres r) !! i).
Proof.
  revert k r. induction ns as [|n ns IH]; intros k r Hdata Hnd.
  - exists r. split; [done|]. split; [done|]. split; [done|]. split; [done|].
    split; [|done]. intros j n d Hj. by rewrite lookup_nil in Hj.
  - rewrite fmap_cons in Hnd. apply NoDup_cons in Hnd as [Hn Hnd].
    destruct (Hdata n) as [d Hd]; [by left|].
    cbn [updateNodeColorsFrom]. rewrite Hd. cbn.
    set (c := if resolved d then draw k else grey).
    destruct (colorsOf_setNodeColor (id n) c r) as (Hcs & Hic & Hm).
    destruct (IH (S k) (setNodeColor white (id n) c r)) as
      (r' & Hrun & Hm' & Hlen' & Hsome' & Hin' & Hout'); [|done|].
    { intros n' Hn'. apply Hdata. by right. }
    rewrite Hcs in Hlen', Hin', Hout'. rewrite length_insert in Hlen', Hin'.
    exists r'. split; [done|]. split; [by rewrite Hm'|]. split; [done|]. split.
    { intros _. destruct ns as [|n' ns']; [|by apply Hsome'].
      cbn [updateNodeColorsFrom] in Hrun. by injection Hrun as <-. }
    split.
    + intros [|j] n' d' Hj Hd' Hlt.
      * injection Hj as <-. rewrite Hd in Hd'. injection Hd' as <-.
        rewrite (Hout' (id n) Hn), Nat.add_0_r. by apply list_lookup_insert_eq.
      * rewrite (Hin' j n' d' Hj Hd' Hlt). by replace (S k + j) with (k + S j) by lia.
    + intros i [Hne Hi]%not_elem_of_cons. rewrite (Hout' i Hi).
      by apply list_lookup_insert_ne.
Qed.

(** X22. The colours [updateNodeColors] gives, on a well-formed layout: it
    ends without an exception and leaves the matrices alone; the colour
    attribute exists as soon as the graph has a node; within the capacity a
    node that is not marked resolved is grey and a resolved one has the colour
    drawn for it; and the colours past the node count are the ones before the
    call. *)
Theorem node_colors (draw : nat → C) (grey : C) L r :
  wf L →
  ∃ r', updateNodeColors white draw grey (graph L) r = Some r'
    ∧ instanceMatrix (instancedSpheres r') = instanceMatrix (instancedSpheres r)
    ∧ length (colorsOf white (instancedSpheres r'))
      = length (colorsOf white (instancedSpheres r))
    ∧ (∀ i fl, resolvedOf L i = Some fl →
         instanceColor (instancedSpheres r') = Some (colorsOf white (instancedSpheres r'))
         ∧ (i < length (colorsOf white (instancedSpheres r)) →
            colorsOf white (instancedSpheres r') !! i
            = Some (if fl then draw i else grey)))
    ∧ (∀ i, getNodeCount (graph L) ≤ i →
         colorsOf white (instancedSpheres r') !! i
         = colorsOf white (instancedSpheres r) !! i).
Proof.
  intros HL. pose proof (wf_ids L HL) as Hids.
  destruct (updateNodeColorsFrom_spec draw grey (nodes (graph L)) 0 r) as
    (r' & Hrun & Hm & Hlen & Hsome & Hin & Hout).
  { intros n Hn. destruct (wf_data L HL (id n)) as [lbl Hlbl].
    - apply (list_elem_of_fmap_2 id) in Hn. rewrite Hids in Hn.
      apply elem_of_seq in Hn. lia.
    - unfold labelOf in Hlbl. destruct (getNode (graph L) (id n)) as [n'|] eqn:Hn'; [|done].
      apply getNode_Some in Hn' as [Hin' Hid'].
      assert (n' = n) as ->.
      { apply (NoDup_fmap_inj_in id (nodes (graph L))); [|done..].
        rewrite Hids. apply NoDup_seq. }
      simpl in Hlbl. by destruct (data n); [eexists|]. }
  { rewrite Hids. apply NoDup_seq. }
  exists r'. split; [done|]. split; [done|]. split; [done|]. split.
  - intros i fl Hfl. unfold resolvedOf in Hfl.
    destruct (getNode (graph L) i) as [n|] eqn:Hn; [|done]. simpl in Hfl.
    destruct (data n) as [d|] eqn:Hd; [|done]. injection Hfl as <-.
    apply getNode_Some in Hn as [Hn <-].
    apply list_elem_of_lookup in Hn as [j Hj].
    assert (id n = j) as Hidj.
    { assert ((id <$> nodes (graph L)) !! j = Some (id n)) as Hj'
        by (by rewrite list_lookup_fmap, Hj).
      rewrite Hids in Hj'. apply lookup_seq in Hj'. lia. }
    split.
    + apply Hsome. intros Hnil. by rewrite Hnil in Hj.
    + intros Hlt. rewrite (Hin j n d Hj Hd Hlt). by rewrite Hidj.
  - intros i Hi. apply Hout. rewrite Hids. rewrite elem_of_seq. lia.
Qed.

End renderer_more.

Lemma growth_catches_up_witness :
  let r' := Nat.iter 3 (λ r1, frame 0 1 (λ p : nat, p) r1 Examples.forcesABC)
              Examples.rendererOne in
  getNodeCount (lgraph Examples.forcesABC) ≤ length (instanceMatrix (instancedSpheres r'))
  ∧ getLinkCount (lgraph Examples.forcesABC) ≤ linkBufferCapacity (linkMesh r').
Proof.
  apply (growth_catches_up 0 1 (λ p : nat, p) Examples.forcesABC Examples.rendererOne 3);
    vm_compute; lia.
Defined.

Lemma bodies_written_witness :
  let r := setNodeLabel 0 Examples.okHost 1 "B" Examples.rendererOne in
  let r' := updateNodePositions 1 (λ p : nat, p) Examples.forcesABC r in
  instanceMatrix (instancedSpheres r') !! 1
  = (if decide (1 < length (instanceMatrix (instancedSpheres r'))) then Some 11 else None)
  ∧ nodesData r' !! 1 = movedTo 11 <$> nodesData r !! 1
  ∧ ∀ i, i ∉ (bodies Examples.forcesABC).*1 → nodesData r' !! i = nodesData r !! i.
Proof.
  apply (bodies_written 1 (λ p : nat, p) Examples.forcesABC
           (setNodeLabel 0 Examples.okHost 1 "B" Examples.rendererOne) 1 11).
  - refine (bool_decide_unpack _ _); vm_compute; exact I.
  - refine (bool_decide_unpack _ _); vm_compute; exact I.
Defined.

Lemma links_written_witness :
  let r' := updateLinkPositions 0 Examples.forcesABC Examples.rendererOne in
  (if decide (1 < linkBufferCapacity (linkMesh r'))
   then position (linkMesh r') !! 2 = Some 10 ∧ position (linkMesh r') !! (2 + 1) = Some 12
   else position (linkMesh r') !! 2 = None ∧ position (linkMesh r') !! (2 + 1) = None)
  ∧ ∃ n, drawRange (linkMesh r') = Some (0, n) ∧ 2 + 1 < n.
Proof.
  apply (links_written 0 Examples.forcesABC Examples.rendererOne 1 (mkLink 0 2 2)).
  - intros j l' Hj. destruct j as [|[|j]]; vm_compute in Hj.
    + by injection Hj as <-.
    + by injection Hj as <-.
    + discriminate Hj.
  - reflexivity.
  - reflexivity.
Defined.

Lemma first_frame_witness :
  let r := frame 0 1 (λ p : nat, p)
             (initializeBuffers 0 1 (getNodeCount (graph Examples.layoutABC))
                                (getLinkCount (graph Examples.layoutABC)) Examples.blank)
             Examples.forcesABC in
  length (instanceMatrix (instancedSpheres r)) = getNodeCount (graph Examples.layoutABC)
  ∧ count (instancedSpheres r) = getNodeCount (graph Examples.layoutABC)
  ∧ length (position (linkMesh r)) = 2 * getLinkCount (graph Examples.layoutABC)
  ∧ drawRange (linkMesh r) = Some (0, 2 * getLinkCount (graph Examples.layoutABC))
  ∧ (∀ nodeId pos, (nodeId, pos) ∈ bodies Examples.forcesABC →
       nodeId < getNodeCount (graph Examples.layoutABC) →
       instanceMatrix (instancedSpheres r) !! nodeId = Some pos)
  ∧ (∀ l, l ∈ links (graph Examples.layoutABC) →
       position (linkMesh r) !! ldata l = Some (getLinkPosition Examples.forcesABC l).1
       ∧ position (linkMesh r) !! (ldata l + 1)
         = Some (getLinkPosition Examples.forcesABC l).2).
Proof.
  apply (first_frame 0 1 (λ p : nat, p) Examples.layoutABC Examples.forcesABC
           Examples.blank).
  - apply rtc_once, (growStep_fromMetadataCache Examples.snapABC).
  - reflexivity.
  - refine (bool_decide_unpack _ _); vm_compute; exact I.
Defined.

Lemma labels_persist_witness :
  ∃ pos,
    nodesData (updateNodePositions 1 (λ p : nat, p) Examples.forcesABC
                 (setNodeLabel 0 Examples.okHost 1 "B" Examples.rendererABC)) !! 1
    = Some (movedTo pos (mkNodeLabel (Some "B") 44 68 (44, 68) 0)).
Proof.
  apply (labels_persist 0 1 255 (λ p : nat, p)
           (setNodeLabel 0 Examples.okHost 1 "B" Examples.rendererABC)).
  - apply rtc_once, renderStep_updateNodePositions.
  - vm_compute. reflexivity.
Defined.

Lemma sprites_once_witness :
  let r' := setNodeLabel 0 Examples.okHost 1 "B" Examples.rendererABC in
  spritesOnce r'
  ∧ sceneSprites Examples.rendererABC `prefix_of` sceneSprites r'
  ∧ console Examples.rendererABC `prefix_of` console r'.
Proof.
  apply (sprites_once 0 1 255 (λ p : nat, p)).
  - split; [constructor|]. intros i. cbn. rewrite lookup_empty.
    split; [by intros ?%elem_of_nil|by intros [? ?]].
  - apply rtc_once, renderStep_setNodeLabel.
Defined.

Lemma labels_drawn_or_blank_witness :
  labelShape (mkNodeLabel None 300 150 (100, 100) 0).
Proof.
  apply (labels_drawn_or_blank 0 1 255 (λ p : nat, p) 3 2 Examples.blank
           (setNodeLabel 0 Examples.noContext 0 "A" (initializeBuffers 0 1 3 2 Examples.blank))
           0).
  - apply rtc_once, renderStep_setNodeLabel.
  - vm_compute. reflexivity.
Defined.

Lemma node_colors_witness :
  ∃ r', updateNodeColors 255 (λ k, 100 + k) 64 (graph Examples.layoutCtor)
          Examples.rendererABC = Some r'
    ∧ instanceMatrix (instancedSpheres r') = instanceMatrix (instancedSpheres Examples.rendererABC)
    ∧ length (colorsOf 255 (instancedSpheres r'))
      = length (colorsOf 255 (instancedSpheres Examples.rendererABC))
    ∧ (∀ i fl, resolvedOf Examples.layoutCtor i = Some fl →
         instanceColor (instancedSpheres r') = Some (colorsOf 255 (instancedSpheres r'))
         ∧ (i < length (colorsOf 255 (instancedSpheres Examples.rendererABC)) →
            colorsOf 255 (instancedSpheres r') !! i
            = Some (if fl then 100 + i else 64)))
    ∧ (∀ i, getNodeCount (graph Examples.layoutCtor) ≤ i →
         colorsOf 255 (instancedSpheres r') !! i
         = colorsOf 255 (instancedSpheres Examples.rendererABC) !! i).
Proof.
  apply (node_colors 255 (λ k, 100 + k) 64 Examples.layoutCtor Examples.rendererABC).
  apply reachable_wf. apply rtc_once, (step_fromMetadataCache Examples.snapCtor).
Defined.

(** ** The first renderer and the view *)

Section view_facts.
Context {P M C : Type}.
Context (origin : P) (identity : M) (white : C) (makeTranslation : P → M).
Context (grey : C).
Implicit Types (r : Graph3DRenderer P M C) (v : View.Graph3DView P M C).
Implicit Types (h : nat → Host) (draw : nat → C).
Implicit Types (layout : ForceLayout P).

Lemma wf_nodes_NoDup L : wf L → NoDup (id <$> nodes (graph L)).
Proof. intros HL. rewrite (wf_ids L HL). apply NoDup_seq. Qed.

Lemma wf_getNode_mem L n : wf L → n ∈ nodes (graph L) → getNode (graph L) (id n) = Some n.
Proof.
  intros HL Hn.
  destruct (proj2 (getNode_is_Some (graph L) (id n))) as [n' Hn'];
    [by apply list_elem_of_fmap_2|].
  rewrite Hn'. f_equal. apply getNode_Some in Hn' as [Hin Hid].
  apply (NoDup_fmap_inj_in id (nodes (graph L))); [by apply wf_nodes_NoDup|done..].
Qed.

Lemma wf_nodes_data L n : wf L → n ∈ nodes (graph L) → is_Some (data n).
Proof.
  intros HL Hn. pose proof (wf_getNode_mem L n HL Hn) as Hg.
  destruct (wf_data L HL (id n)) as [lbl Hlbl].
  - apply (wf_getNode L (id n) HL). by eexists.
  - unfold labelOf in Hlbl. rewrite Hg in Hlbl. simpl in Hlbl.
    destruct (data n); [by eexists|done].
Qed.

Lemma wf_node_at L i n : wf L → getNode (graph L) i = Some n → nodes (graph L) !! i = Some n.
Proof.
  intros HL Hn. apply getNode_Some in Hn as [Hin <-].
  apply list_elem_of_lookup in Hin as [j Hj].
  assert ((id <$> nodes (graph L)) !! j = Some (id n)) as Hj'
    by (by rewrite list_lookup_fmap, Hj).
  rewrite (wf_ids L HL) in Hj'. apply lookup_seq in Hj' as [-> _]. done.
Qed.

Lemma updateNodeColorsFrom_frame draw (ns : list Node) k r r' :
  updateNodeColorsFrom white draw grey k ns r = Some r' →
  linkMesh r' = linkMesh r ∧ nodesData r' = nodesData r
  ∧ sceneSprites r' = sceneSprites r ∧ console r' = console r.
Proof.
  revert k r. induction ns as [|n ns IH]; intros k r; cbn [updateNodeColorsFrom].
  - by intros [= <-].
  - destruct (data n) as [d|]; [|done]. cbn. intros Hrun.
    by destruct (IH _ _ Hrun) as (-> & -> & -> & ->).
Qed.

Lemma createNodeLabels_spec h (ns : list Node) r :
  (∀ n, n ∈ ns → is_Some (data n)) →
  NoDup (id <$> ns) →
  ∃ r', forEachM (RendererV1.createNodeLabel origin h) r ns = Some r'
    ∧ instancedSpheres r' = instancedSpheres r
    ∧ linkMesh r' = linkMesh r
    ∧ sceneSprites r' = sceneSprites r ++ (id <$> ns)
    ∧ console r `prefix_of` console r'
    ∧ (∀ i, i ∉ id <$> ns → nodesData r' !! i = nodesData r !! i)
    ∧ (∀ n d, n ∈ ns → data n = Some d →
         nodesData r' !! id n = Some (labelV1 origin (h (id n)) (label d))).
Proof.
  revert r. induction ns as [|n ns IH]; intros r Hdata Hnd.
  - exists r. cbn [forEachM]. split; [done|]. split; [done|]. split; [done|].
    split; [by rewrite app_nil_r|]. split; [done|]. split; [done|].
    intros n d Hn. by apply elem_of_nil in Hn.
  - rewrite fmap_cons in Hnd. apply NoDup_cons in Hnd as [Hn Hnd].
    destruct (Hdata n) as [d Hd]; [by left|].
    set (r1 := mkRenderer (instancedSpheres r) (linkMesh r)
                 (<[id n := labelV1 origin (h (id n)) (label d)]> (nodesData r))
                 (sceneSprites r ++ [id n])
                 (if getContext (h (id n)) then console r
                  else console r ++ [RendererV1.canvasError])).
    assert (RendererV1.createNodeLabel origin h r n = Some r1) as Hstep.
    { unfold RendererV1.createNodeLabel, RendererV1.makeLabelCanvas,
        RendererV1.createLabelMesh, r1, labelV1. rewrite Hd. cbn.
      by destruct (getContext (h (id n))). }
    destruct (IH r1) as (r' & Hrun & Hs & Hl & Hsp & Hc & Hout & Hin); [|done|].
    { intros n' Hn'. apply Hdata. by right. }
    exists r'. cbn [forEachM]. rewrite Hstep. cbn. split; [done|].
    split; [by rewrite Hs|]. split; [by rewrite Hl|]. split.
    { rewrite Hsp. unfold r1. cbn [sceneSprites]. by rewrite <- app_assoc. }
    split.
    { etrans; [|exact Hc]. unfold r1. cbn [console].
      destruct (getContext (h (id n))); [done|by apply prefix_app_r]. }
    split.
    + intros i [Hne Hi]%not_elem_of_cons. rewrite (Hout i Hi). unfold r1.
      cbn [nodesData]. by apply lookup_insert_ne.
    + intros n' d' [->|Hn']%elem_of_cons Hd'.
      * rewrite Hd in Hd'. injection Hd' as <-. rewrite (Hout (id n) Hn).
        unfold r1. cbn [nodesData]. by apply lookup_insert_eq.
      * by apply Hin.
Qed.

(** X23. [createNodeLabels] on a well-formed layout: it ends without an
    exception, leaves the meshes alone, adds one sprite to the scene for every
    node of the graph, in the order of the handles and whatever the scene
    holds already, and gives every node the entry made for its label; the
    entries past the node count are left as they are. *)
Theorem createNodeLabels_all h L r :
  wf L →
  ∃ r', RendererV1.createNodeLabels origin h (graph L) r = Some r'
    ∧ instancedSpheres r' = instancedSpheres r
    ∧ linkMesh r' = linkMesh r
    ∧ sceneSprites r' = sceneSprites r ++ seq 0 (getNodeCount (graph L))
    ∧ console r `prefix_of` console r'
    ∧ (∀ i lbl, labelOf L i = Some lbl →
         nodesData r' !! i = Some (labelV1 origin (h i) lbl))
    ∧ (∀ i, getNodeCount (graph L) ≤ i → nodesData r' !! i = nodesData r !! i).
Proof.
  intros HL.
  destruct (createNodeLabels_spec h (nodes (graph L)) r) as
    (r' & Hrun & Hs & Hl & Hsp & Hc & Hout & Hin);
    [intros n; by apply wf_nodes_data|by apply wf_nodes_NoDup|].
  exists r'. split; [done|]. split; [done|]. split; [done|].
  split; [by rewrite Hsp, (wf_ids L HL)|]. split; [done|]. split.
  - intros i lbl Hlbl. unfold labelOf in Hlbl.
    destruct (getNode (graph L) i) as [n|] eqn:Hn; [|done]. simpl in Hlbl.
    destruct (data n) as [d|] eqn:Hd; [|done]. injection Hlbl as <-.
    apply getNode_Some in Hn as [Hn <-]. by apply Hin.
  - intros i Hi. apply Hout. rewrite (wf_ids L HL), elem_of_seq. lia.
Qed.

(** What [setup] does on a well-formed layout: colours, then labels. *)
Lemma setup_spec h draw L r :
  wf L →
  ∃ v, View.setup origin white grey h draw L r = Some v
    ∧ View.layout v = L
    ∧ instanceMatrix (instancedSpheres (View.renderer v))
      = instanceMatrix (instancedSpheres r)
    ∧ linkMesh (View.renderer v) = linkMesh r
    ∧ sceneSprites (View.renderer v) = sceneSprites r ++ seq 0 (getNodeCount (graph L))
    ∧ (∀ i lbl, labelOf L i = Some lbl →
         nodesData (View.renderer v) !! i = Some (labelV1 origin (h i) lbl))
    ∧ (∀ i fl, resolvedOf L i = Some fl →
         i < length (colorsOf white (instancedSpheres r)) →
         colorsOf white (instancedSpheres (View.renderer v)) !! i
         = Some (if fl then draw i else grey)).
Proof.
  intros HL.
  destruct (updateNodeColorsFrom_spec white draw grey (nodes (graph L)) 0 r) as
    (r1 & Hrun1 & Hm1 & Hlen1 & _ & Hin1 & _);
    [intros n; by apply wf_nodes_data|by apply wf_nodes_NoDup|].
  destruct (updateNodeColorsFrom_frame _ _ _ _ _ Hrun1) as (Hl1 & Hd1 & Hs1 & Hc1).
  destruct (createNodeLabels_spec h (nodes (graph L)) r1) as
    (r2 & Hrun2 & Hs2 & Hl2 & Hsp2 & _ & _ & Hin2);
    [intros n; by apply wf_nodes_data|by apply wf_nodes_NoDup|].
  exists (View.mkView L r2). unfold View.setup, updateNodeColors, RendererV1.createNodeLabels.
  rewrite Hrun1. cbn. rewrite Hrun2. cbn. split; [done|]. split; [done|].
  split; [by rewrite Hs2|]. split; [by rewrite Hl2|].
  split; [by rewrite Hsp2, Hs1, (wf_ids L HL)|]. split.
  - intros i lbl Hlbl. unfold labelOf in Hlbl.
    destruct (getNode (graph L) i) as [n|] eqn:Hn; [|done]. simpl in Hlbl.
    destruct (data n) as [d|] eqn:Hd; [|done]. injection Hlbl as <-.
    apply getNode_Some in Hn as [Hn <-]. by apply Hin2.
  - intros i fl Hfl Hlt. unfold resolvedOf in Hfl.
    destruct (getNode (graph L) i) as [n|] eqn:Hn; [|done]. simpl in Hfl.
    destruct (data n) as [d|] eqn:Hd; [|done]. injection Hfl as <-.
    pose proof (wf_node_at L i n HL Hn) as Hat.
    apply getNode_Some in Hn as [_ <-].
    rewrite Hs2. by rewrite (Hin1 (id n) n d Hat Hd Hlt).
Qed.

Lemma spritesOf_seq i (a n : nat) :
  length (filter (λ j, j = i) (seq a n)) = if decide (a ≤ i < a + n) then 1 else 0.
Proof.
  revert a. induction n as [|n IH]; intros a; cbn [seq].
  - rewrite decide_False by lia. done.
  - destruct (decide (a = i)) as [->|Hne].
    + rewrite filter_cons_True by done. cbn [length]. rewrite IH.
      rewrite decide_False by lia. rewrite decide_True by lia. done.
    + rewrite filter_cons_False by done. rewrite IH.
      destruct (decide (S a ≤ i < S a + n)); [rewrite decide_True by lia|
                                                rewrite decide_False by lia]; done.
Qed.

Lemma animate_spec (bodies : list (nat * P)) (getPos : Link → P * P) v :
  View.layout (View.animate origin identity makeTranslation bodies getPos v) = View.layout v
  ∧ sceneSprites (View.renderer (View.animate origin identity makeTranslation bodies getPos v))
    = sceneSprites (View.renderer v)
  ∧ ∀ i, is_Some (nodesData (View.renderer v) !! i) →
      is_Some (nodesData (View.renderer
                 (View.animate origin identity makeTranslation bodies getPos v)) !! i).
Proof.
  unfold View.animate, RendererV1.updateLinkPositions, RendererV1.updateNodePositions.
  cbn [View.layout View.renderer sceneSprites nodesData lgraph Renderer.bodies].
  match goal with |- context [foldl (setNodePosition _) ?r0 _] => set (r1 := r0) end.
  assert (nodesData r1 = nodesData (View.renderer v)
          ∧ sceneSprites r1 = sceneSprites (View.renderer v)) as [Hd Hs]
    by (unfold r1; by case_decide).
  destruct (setNodePositions_data makeTranslation r1 bodies) as (-> & _ & Hdata).
  split; [done|]. split; [done|]. intros i Hi.
  destruct (Hdata i) as (f & -> & _). rewrite Hd. by apply fmap_is_Some.
Qed.

(** The state of an open view after [k] events ["resolved"], for a node [i]
    of the graph. *)
Lemma run_spec i (es : list (View.Event P C)) v k :
  reachable (View.layout v) →
  i < getNodeCount (graph (View.layout v)) →
  spritesOf i (View.renderer v) = k →
  is_Some (nodesData (View.renderer v) !! i) →
  ∃ v', View.run origin identity white makeTranslation grey es v = Some v'
    ∧ reachable (View.layout v')
    ∧ i < getNodeCount (graph (View.layout v'))
    ∧ spritesOf i (View.renderer v') = k + View.resolvedEvents es
    ∧ is_Some (nodesData (View.renderer v') !! i).
Proof.
  revert v k. induction es as [|e es IH]; intros v k HL Hi Hk Hd.
  - exists v. cbn. by rewrite Nat.add_0_r.
  - unfold View.run in *. cbn [forEachM].
    assert (∀ mc, ∃ L', syncWithCache mc (View.layout v) = Some L'
              ∧ reachable L' ∧ i < getNodeCount (graph L')) as Hsync.
    { intros mc.
      destruct (syncWithCache_spec mc (View.layout v) (reachable_wf _ HL))
        as (L' & Hrun & _).
      exists L'. split; [done|].
      assert (step (View.layout v) L') as Hstep by (by apply (step_syncWithCache mc)).
      split; [by eapply rtc_r|].
      destruct (step_spec _ _ (reachable_wf _ HL) Hstep) as (_ & _ & Hle). lia. }
    destruct e as [mc h draw|mc|bodies getPos]; cbn [View.handle View.resolvedEvents].
    + destruct (Hsync mc) as (L' & Hrun & HL' & Hi').
      destruct (setup_spec h draw L' (View.renderer v) (reachable_wf _ HL'))
        as (v1 & Hsetup & Hlay & _ & _ & Hsp & Hlbl & _).
      unfold View.onResolved. rewrite Hrun. cbn. rewrite Hsetup. cbn.
      destruct (IH v1 (S k)) as (v' & Hrun' & HL'' & Hi'' & Hk'' & Hd'').
      * by rewrite Hlay.
      * by rewrite Hlay.
      * unfold spritesOf in *. rewrite Hsp, filter_app, length_app, Hk, spritesOf_seq.
        rewrite decide_True by lia. lia.
      * destruct (wf_data L' (reachable_wf _ HL') i Hi') as [lbl Hl].
        rewrite (Hlbl i lbl Hl). by eexists.
      * exists v'. split; [done|]. split; [done|]. split; [done|].
        split; [rewrite Hk''; lia|done].
    + destruct (Hsync mc) as (L' & Hrun & HL' & Hi').
      unfold View.onResolve. rewrite Hrun. cbn.
      by apply (IH (View.mkView L' (View.renderer v)) k).
    + cbn. destruct (animate_spec bodies getPos v) as (Hlay & Hsp & Hdata).
      apply IH.
      * by rewrite Hlay.
      * by rewrite Hlay.
      * unfold spritesOf in *. by rewrite Hsp.
      * by apply Hdata.
Qed.

(** X24. What [onOpen] leaves, for a renderer fresh from its constructor: no
    exception; the layout of the snapshot; buffers with room for exactly the
    nodes and the links of the graph; for every node a colour (grey when it
    is not marked resolved), the entry made for its label, and one sprite in
    the scene. *)
Theorem open_view mc h draw r :
  sceneSprites r = [] →
  ∃ v, View.onOpen origin identity white grey mc h draw r = Some v
    ∧ View.layout v = fromMetadataCache mc Layout.empty
    ∧ length (instanceMatrix (instancedSpheres (View.renderer v)))
      = getNodeCount (graph (View.layout v))
    ∧ length (position (linkMesh (View.renderer v)))
      = 2 * getLinkCount (graph (View.layout v))
    ∧ sceneSprites (View.renderer v) = seq 0 (getNodeCount (graph (View.layout v)))
    ∧ (∀ i lbl, labelOf (View.layout v) i = Some lbl →
         nodesData (View.renderer v) !! i = Some (labelV1 origin (h i) lbl))
    ∧ (∀ i fl, resolvedOf (View.layout v) i = Some fl →
         colorsOf white (instancedSpheres (View.renderer v)) !! i
         = Some (if fl then draw i else grey)).
Proof.
  intros Hfresh. set (L := fromMetadataCache mc Layout.empty).
  assert (reachable L) as HL by apply rtc_once, step_fromMetadataCache.
  pose proof (reachable_wf L HL) as Hwf.
  set (r1 := RendererV1.initializeMeshes origin identity (getNodeCount (graph L))
               (getLinkCount (graph L)) r).
  destruct (setup_spec h draw L r1 Hwf)
    as (v & Hsetup & Hlay & Hm & Hl & Hsp & Hlbl & Hcol).
  exists v. split; [done|]. split; [done|]. rewrite Hlay, Hm, Hl, Hsp.
  unfold r1 at 1 2 3. cbn [RendererV1.initializeMeshes instancedSpheres linkMesh
    RendererV1.createNodeMesh RendererV1.createLinkGeometry instanceMatrix position
    sceneSprites].
  rewrite !length_replicate, Hfresh. split; [done|]. split; [done|]. split; [done|].
  split; [done|]. intros i fl Hfl. apply Hcol; [done|].
  unfold r1, colorsOf. cbn. rewrite !length_replicate.
  unfold resolvedOf in Hfl. destruct (getNode (graph L) i) as [n|] eqn:Hn; [|done].
  apply (wf_getNode L i Hwf). by eexists.
Qed.

(** X25. The sprites of the labels pile up: an open view handles every
    sequence of events without an exception, and after it the scene holds,
    for every node of the graph of [onOpen], one label sprite and one more for
    each event ["resolved"]; [nodesData] refers to one of them. *)
Theorem view_sprites_accumulate mc h draw r (es : list (View.Event P C)) i :
  sceneSprites r = [] →
  i < getNodeCount (graph (fromMetadataCache mc Layout.empty)) →
  ∃ v0 v, View.onOpen origin identity white grey mc h draw r = Some v0
    ∧ View.run origin identity white makeTranslation grey es v0 = Some v
    ∧ reachable (View.layout v)
    ∧ i < getNodeCount (graph (View.layout v))
    ∧ spritesOf i (View.renderer v) = 1 + View.resolvedEvents es
    ∧ is_Some (nodesData (View.renderer v) !! i).
Proof.
  intros Hfresh Hi. set (L := fromMetadataCache mc Layout.empty) in *.
  assert (reachable L) as HL by apply rtc_once, step_fromMetadataCache.
  pose proof (reachable_wf L HL) as Hwf.
  set (r1 := RendererV1.initializeMeshes origin identity (getNodeCount (graph L))
               (getLinkCount (graph L)) r).
  destruct (setup_spec h draw L r1 Hwf) as (v0 & Hsetup & Hlay & _ & _ & Hsp & Hlbl & _).
  destruct (run_spec i es v0 1) as (v & Hrun & Hv).
  - by rewrite Hlay.
  - by rewrite Hlay.
  - unfold spritesOf. rewrite Hsp. unfold r1. cbn [RendererV1.initializeMeshes sceneSprites].
    rewrite Hfresh, app_nil_l, spritesOf_seq. by rewrite decide_True by lia.
  - destruct (wf_data L Hwf i Hi) as [lbl Hl]. rewrite (Hlbl i lbl Hl). by eexists.
  - by exists v0, v.
Qed.

End view_facts.

(** ** The two renderers compared *)

Section renderer_versions.
Context {P M C : Type}.
Context (origin : P) (identity : M) (makeTranslation : P → M).
Implicit Types (r : Graph3DRenderer P M C) (layout : ForceLayout P).

Lemma setNodePositions_agree r1 r2 (bs : list (nat * P)) i :
  length (instanceMatrix (instancedSpheres r1))
  = length (instanceMatrix (instancedSpheres r2)) →
  i ∈ bs.*1
  ∨ instanceMatrix (instancedSpheres r1) !! i = instanceMatrix (instancedSpheres r2) !! i →
  instanceMatrix (instancedSpheres (foldl (setNodePosition makeTranslation) r1 bs)) !! i
  = instanceMatrix (instancedSpheres (foldl (setNodePosition makeTranslation) r2 bs)) !! i.
Proof.
  revert r1 r2. induction bs as [|[n0 p0] bs IH]; intros r1 r2 Hlen Hi; cbn [foldl].
  - destruct Hi as [Hi|Hi]; [by apply elem_of_nil in Hi|done].
  - apply IH; [simpl; by rewrite !length_insert|].
    destruct (decide (i ∈ bs.*1)) as [Hin|Hout]; [by left|right]. simpl.
    rewrite !list_lookup_insert, Hlen.
    destruct (decide (n0 = i ∧ n0 < length (instanceMatrix (instancedSpheres r2))))
      as [_|Hno]; [done|].
    destruct Hi as [Hi|Hi]; [|done].
    rewrite fmap_cons in Hi. apply elem_of_cons in Hi as [->|Hi]; [|done].
    cbn [fst] in *. rewrite !lookup_ge_None_2; [done|lia..].
Qed.

Lemma setNodePositions_nodesData r1 r2 (bs : list (nat * P)) :
  nodesData r1 = nodesData r2 →
  nodesData (foldl (setNodePosition makeTranslation) r1 bs)
  = nodesData (foldl (setNodePosition makeTranslation) r2 bs).
Proof.
  revert r1 r2. induction bs as [|[n0 p0] bs IH]; intros r1 r2 Heq; cbn [foldl]; [done|].
  apply IH. simpl. by rewrite Heq.
Qed.

(** X26. The two [updateNodePositions] compared.  After the call the two
    renderers have the same capacity, the same instance count, no colours
    when the buffer grew and the colours of before when it did not, and the
    same labels; the matrix of every node for which the layout has a body is
    the same.  They differ only when the buffer grew, for a node without a
    body: the first renderer has the identity where the second has the
    matrix of before. *)
Theorem node_versions_agree layout r :
  let r1 := RendererV1.updateNodePositions identity makeTranslation layout r in
  let r2 := updateNodePositions identity makeTranslation layout r in
  length (instanceMatrix (instancedSpheres r1)) = length (instanceMatrix (instancedSpheres r2))
  ∧ count (instancedSpheres r1) = count (instancedSpheres r2)
  ∧ instanceColor (instancedSpheres r1) = instanceColor (instancedSpheres r2)
  ∧ linkMesh r1 = linkMesh r2 ∧ nodesData r1 = nodesData r2
  ∧ sceneSprites r1 = sceneSprites r2 ∧ console r1 = console r2
  ∧ (∀ i, i ∈ (bodies layout).*1
          ∨ ¬ length (instanceMatrix (instancedSpheres r)) < getNodeCount (lgraph layout)
          ∨ length (instanceMatrix (instancedSpheres r)) ≤ i →
       instanceMatrix (instancedSpheres r1) !! i = instanceMatrix (instancedSpheres r2) !! i)
  ∧ (∀ i m, i ∉ (bodies layout).*1 →
       length (instanceMatrix (instancedSpheres r)) < getNodeCount (lgraph layout) →
       instanceMatrix (instancedSpheres r) !! i = Some m →
       instanceMatrix (instancedSpheres r1) !! i = Some identity
       ∧ instanceMatrix (instancedSpheres r2) !! i = Some m).
Proof.
  cbv zeta. unfold RendererV1.updateNodePositions, updateNodePositions.
  cbn [instancedSpheres instanceMatrix instanceColor count linkMesh nodesData
       sceneSprites console].
  set (cap := length (instanceMatrix (instancedSpheres r))).
  set (a1 := if decide (cap < getNodeCount (lgraph layout))
             then mkRenderer (RendererV1.createNodeMesh identity (2 * cap)) (linkMesh r)
                             (nodesData r) (sceneSprites r) (console r)
             else r).
  set (a2 := if decide (cap < getNodeCount (lgraph layout))
             then mkRenderer (growSpheres identity (instancedSpheres r)) (linkMesh r)
                             (nodesData r) (sceneSprites r) (console r)
             else r).
  destruct (growSpheres_spec identity (instancedSpheres r)) as (Hglen & Hgkeep & Hgcol).
  assert (length (instanceMatrix (instancedSpheres a1))
          = length (instanceMatrix (instancedSpheres a2))) as Hlen.
  { unfold a1, a2. case_decide; [|done]. cbn [instancedSpheres].
    rewrite Hglen. cbn. by rewrite length_replicate. }
  assert (instanceColor (instancedSpheres a1) = instanceColor (instancedSpheres a2)) as Hcol.
  { unfold a1, a2. case_decide; [|done]. cbn [instancedSpheres]. by rewrite Hgcol. }
  assert (linkMesh a1 = linkMesh a2 ∧ nodesData a1 = nodesData a2
          ∧ sceneSprites a1 = sceneSprites a2 ∧ console a1 = console a2)
    as (Hlm & Hnd & Hsp & Hco) by (unfold a1, a2; by case_decide).
  destruct (setNodePositions_frame makeTranslation a1 (bodies layout)) as (-> & -> & _ & ->).
  destruct (setNodePositions_frame makeTranslation a2 (bodies layout)) as (-> & -> & _ & ->).
  destruct (setNodePositions_data makeTranslation a1 (bodies layout)) as (-> & -> & _).
  destruct (setNodePositions_data makeTranslation a2 (bodies layout)) as (-> & -> & _).
  split; [done|]. split; [done|]. split; [done|]. split; [done|].
  split; [by apply setNodePositions_nodesData|]. split; [done|]. split; [done|]. split.
  - intros i Hi. apply setNodePositions_agree; [done|].
    destruct Hi as [Hi|Hi]; [by left|right]. unfold a1, a2.
    case_decide as Hgrow; [|done]. destruct Hi as [Hi|Hi]; [done|].
    cbn [instancedSpheres instanceMatrix RendererV1.createNodeMesh growSpheres
         createSphereMesh]. unfold attributeSet.
    rewrite lookup_app_r by done. rewrite lookup_drop. fold cap.
    by replace (cap + (i - cap)) with i by lia.
  - intros i m Hi Hgrow Hm.
    destruct (setNodePositions_other makeTranslation a1 (bodies layout) i Hi) as [-> _].
    destruct (setNodePositions_other makeTranslation a2 (bodies layout) i Hi) as [-> _].
    unfold a1, a2. rewrite !decide_True by done. cbn [instancedSpheres]. split.
    + cbn. apply lookup_replicate_2. apply lookup_lt_Some in Hm. fold cap in Hm. lia.
    + by apply Hgkeep.
Qed.

Lemma setLinkPositions_other (getPos : Link → P * P) (ps : list P) (ls : list Link) j :
  j ∉ slotsOf ls → foldl (setLinkPosition getPos) ps ls !! j = ps !! j.
Proof.
  revert ps. induction ls as [|l ls IH]; intros ps Hj; cbn [foldl]; [done|].
  unfold slotsOf in Hj. rewrite bind_cons in Hj.
  apply not_elem_of_app in Hj as [Hl Hj]. rewrite (IH _ Hj).
  unfold setLinkPosition. destruct (getPos l) as [from to].
  apply not_elem_of_cons in Hl as [Hl1 Hl2].
  apply not_elem_of_cons in Hl2 as [Hl2 _].
  by rewrite !list_lookup_insert_ne.
Qed.

Lemma setLinkPositions_agree (getPos : Link → P * P) (ps1 ps2 : list P) (ls : list Link) j :
  length ps1 = length ps2 →
  j ∈ slotsOf ls ∨ ps1 !! j = ps2 !! j →
  foldl (setLinkPosition getPos) ps1 ls !! j = foldl (setLinkPosition getPos) ps2 ls !! j.
Proof.
  revert ps1 ps2. induction ls as [|l ls IH]; intros ps1 ps2 Hlen Hj; cbn [foldl].
  - destruct Hj as [Hj|Hj]; [by apply elem_of_nil in Hj|done].
  - unfold setLinkPosition at 2 4. destruct (getPos l) as [from to].
    apply IH; [by rewrite !length_insert|].
    destruct (decide (j ∈ slotsOf ls)) as [Hin|Hout]; [by left|right].
    rewrite !list_lookup_insert, !length_insert, Hlen.
    destruct (decide (ldata l + 1 = j ∧ ldata l + 1 < length ps2)) as [_|Hno1]; [done|].
    destruct (decide (ldata l = j ∧ ldata l < length ps2)) as [_|Hno2]; [done|].
    destruct Hj as [Hj|Hj]; [|done].
    unfold slotsOf in Hj. rewrite bind_cons in Hj.
    apply elem_of_app in Hj as [Hj|Hj]; [|done].
    rewrite !lookup_ge_None_2; [done|..];
      apply elem_of_cons in Hj as [->|Hj]; try lia;
      apply list_elem_of_singleton in Hj as ->; lia.
Qed.

(** X27. The two [updateLinkPositions] compared, for a link buffer with two
    vertices for each link of capacity.  After the call the two renderers
    have the same capacity and the same draw range, and every vertex that
    belongs to a link of the graph is the same.  They differ only when the
    buffer grew, at a vertex of no link: the first renderer has the origin
    where the second has the vertex of before. *)
Theorem link_versions_agree layout r :
  length (position (linkMesh r)) = 2 * linkBufferCapacity (linkMesh r) →
  let r1 := RendererV1.updateLinkPositions origin layout r in
  let r2 := updateLinkPositions origin layout r in
  length (position (linkMesh r1)) = length (position (linkMesh r2))
  ∧ drawRange (linkMesh r1) = drawRange (linkMesh r2)
  ∧ instancedSpheres r1 = instancedSpheres r2 ∧ nodesData r1 = nodesData r2
  ∧ sceneSprites r1 = sceneSprites r2 ∧ console r1 = console r2
  ∧ (∀ j, j ∈ slotsOf (links (lgraph layout))
          ∨ ¬ linkBufferCapacity (linkMesh r) < getLinkCount (lgraph layout)
          ∨ length (position (linkMesh r)) ≤ j →
       position (linkMesh r1) !! j = position (linkMesh r2) !! j)
  ∧ (∀ j p, j ∉ slotsOf (links (lgraph layout)) →
       linkBufferCapacity (linkMesh r) < getLinkCount (lgraph layout) →
       position (linkMesh r) !! j = Some p →
       position (linkMesh r1) !! j = Some origin
       ∧ position (linkMesh r2) !! j = Some p).
Proof.
  intros Heven. cbv zeta. unfold RendererV1.updateLinkPositions, updateLinkPositions.
  cbn [instancedSpheres linkMesh position drawRange nodesData sceneSprites console].
  set (cap := linkBufferCapacity (linkMesh r)) in *.
  set (a1 := if decide (cap < getLinkCount (lgraph layout))
             then RendererV1.createLinkGeometry origin (2 * cap) else linkMesh r).
  set (a2 := if decide (cap < getLinkCount (lgraph layout))
             then growLinks origin (linkMesh r) else linkMesh r).
  destruct (growLinks_spec origin (linkMesh r) Heven) as (Hgcap & Hglen & Hgkeep).
  fold cap in Hgcap, Hglen. rewrite Hgcap in Hglen.
  assert (length (position a1) = length (position a2)) as Hlen.
  { unfold a1, a2. case_decide; [|done]. rewrite Hglen. cbn.
    by rewrite length_replicate. }
  rewrite !length_setLinkPositions.
  split; [done|]. split; [done|]. split; [done|]. split; [done|].
  split; [done|]. split; [done|]. split.
  - intros j Hj. apply setLinkPositions_agree; [done|].
    destruct Hj as [Hj|Hj]; [by left|right]. unfold a1, a2.
    case_decide as Hgrow; [|done]. destruct Hj as [Hj|Hj]; [done|].
    cbn [position RendererV1.createLinkGeometry growLinks createLinkMesh].
    unfold attributeSet. rewrite lookup_app_r by done. rewrite lookup_drop.
    fold cap. by replace (length (position (linkMesh r)) + (j - length (position (linkMesh r))))
      with j by lia.
  - intros j p Hj Hgrow Hp.
    rewrite !setLinkPositions_other by done.
    unfold a1, a2. rewrite !decide_True by done. split.
    + cbn [position RendererV1.createLinkGeometry]. apply lookup_replicate_2.
      apply lookup_lt_Some in Hp. lia.
    + by apply Hgkeep.
Qed.

End renderer_versions.

Lemma slots_even_witness : Nat.Even (ldata (mkLink 0 2 2)).
Proof.
  apply (slots_even Examples.layoutABC (mkLink 0 2 2)).
  - apply rtc_once, (step_fromMetadataCache Examples.snapABC).
  - apply list_elem_of_lookup. by exists 1.
Defined.

Lemma createNodeLabels_all_witness :
  ∃ r', RendererV1.createNodeLabels 0 Examples.hostOfTwo (graph Examples.layoutAB)
          Examples.rendererABC = Some r'
    ∧ instancedSpheres r' = instancedSpheres Examples.rendererABC
    ∧ linkMesh r' = linkMesh Examples.rendererABC
    ∧ sceneSprites r'
      = sceneSprites Examples.rendererABC ++ seq 0 (getNodeCount (graph Examples.layoutAB))
    ∧ console Examples.rendererABC `prefix_of` console r'
    ∧ (∀ i lbl, labelOf Examples.layoutAB i = Some lbl →
         nodesData r' !! i = Some (labelV1 0 (Examples.hostOfTwo i) lbl))
    ∧ (∀ i, getNodeCount (graph Examples.layoutAB) ≤ i →
         nodesData r' !! i = nodesData Examples.rendererABC !! i).
Proof.
  apply (createNodeLabels_all 0 Examples.hostOfTwo Examples.layoutAB Examples.rendererABC).
  apply reachable_wf. apply rtc_once, (step_fromMetadataCache Examples.snapAB).
Defined.

Lemma open_view_witness :
  ∃ v, View.onOpen 0 1 255 64 Examples.snapCtor Examples.hostOfTwo (λ k, 100 + k)
         Examples.blank = Some v
    ∧ View.layout v = fromMetadataCache Examples.snapCtor Layout.empty
    ∧ length (instanceMatrix (instancedSpheres (View.renderer v)))
      = getNodeCount (graph (View.layout v))
    ∧ length (position (linkMesh (View.renderer v)))
      = 2 * getLinkCount (graph (View.layout v))
    ∧ sceneSprites (View.renderer v) = seq 0 (getNodeCount (graph (View.layout v)))
    ∧ (∀ i lbl, labelOf (View.layout v) i = Some lbl →
         nodesData (View.renderer v) !! i = Some (labelV1 0 (Examples.hostOfTwo i) lbl))
    ∧ (∀ i fl, resolvedOf (View.layout v) i = Some fl →
         colorsOf 255 (instancedSpheres (View.renderer v)) !! i
         = Some (if fl then 100 + i else 64)).
Proof.
  apply (open_view 0 1 255 64 Examples.snapCtor Examples.hostOfTwo (λ k, 100 + k)
           Examples.blank).
  reflexivity.
Defined.

Lemma view_sprites_accumulate_witness :
  let es := [View.Resolved Examples.snapABC Examples.hostOfTwo (λ k, 200 + k);
             View.Frame [(0, 10); (1, 11)] (λ l, (0, 0));
             View.Resolve Examples.snapAC;
             View.Resolved Examples.snapAC (λ _, Examples.noContext) (λ k, 300 + k)] in
  ∃ v0 v, View.onOpen 0 1 255 64 Examples.snapAB Examples.hostOfTwo (λ k, 100 + k)
            Examples.blank = Some v0
    ∧ View.run 0 1 255 (λ p : nat, p) 64 es v0 = Some v
    ∧ reachable (View.layout v)
    ∧ 1 < getNodeCount (graph (View.layout v))
    ∧ spritesOf 1 (View.renderer v) = 1 + View.resolvedEvents es
    ∧ is_Some (nodesData (View.renderer v) !! 1).
Proof.
  apply (view_sprites_accumulate 0 1 255 (λ p : nat, p) 64
           Examples.snapAB Examples.hostOfTwo (λ k, 100 + k) Examples.blank).
  - reflexivity.
  - vm_compute. lia.
Defined.

Lemma link_versions_agree_witness :
  let r1 := RendererV1.updateLinkPositions 0 Examples.forcesABC Examples.rendererOne in
  let r2 := updateLinkPositions 0 Examples.forcesABC Examples.rendererOne in
  length (position (linkMesh r1)) = length (position (linkMesh r2))
  ∧ drawRange (linkMesh r1) = drawRange (linkMesh r2)
  ∧ instancedSpheres r1 = instancedSpheres r2 ∧ nodesData r1 = nodesData r2
  ∧ sceneSprites r1 = sceneSprites r2 ∧ console r1 = console r2
  ∧ (∀ j, j ∈ slotsOf (links (lgraph Examples.forcesABC))
          ∨ ¬ linkBufferCapacity (linkMesh Examples.rendererOne)
              < getLinkCount (lgraph Examples.forcesABC)
          ∨ length (position (linkMesh Examples.rendererOne)) ≤ j →
       position (linkMesh r1) !! j = position (linkMesh r2) !! j)
  ∧ (∀ j p, j ∉ slotsOf (links (lgraph Examples.forcesABC)) →
       linkBufferCapacity (linkMesh Examples.rendererOne)
       < getLinkCount (lgraph Examples.forcesABC) →
       position (linkMesh Examples.rendererOne) !! j = Some p →
       position (linkMesh r1) !! j = Some 0
       ∧ position (linkMesh r2) !! j = Some p).
Proof.
  apply (link_versions_agree 0 Examples.forcesABC Examples.rendererOne). reflexivity.
Defined.

(** ** The random graph *)

Section random_graph.
Context {U : Type} (random : nat → U) (below : U → bool) (scaled : U → nat).

Lemma wf_node_lt L n : wf L → n ∈ nodes (graph L) → id n < getNodeCount (graph L).
Proof.
  intros HL Hn. apply (list_elem_of_fmap_2 id) in Hn.
  rewrite (wf_ids L HL) in Hn. apply elem_of_seq in Hn. lia.
Qed.

Lemma linksAdded_refl L0 : reachable L0 → linksAdded L0 L0.
Proof.
  intros HL. split; [done|]. split; [done|]. split; [done|]. split; [done|].
  exists []. split; [by rewrite app_nil_r|]. intros l Hl. by apply elem_of_nil in Hl.
Qed.

Lemma linksAdded_link L0 L a b :
  linksAdded L0 L → a ≠ b →
  a < getNodeCount (graph L0) → b < getNodeCount (graph L0) →
  linksAdded L0 (link a b L).
Proof.
  intros (HL & Hgrow & Hnodes & Hnames & R & Hlinks & HR) Hne Ha Hb.
  pose proof (reachable_wf L HL) as Hwf.
  assert (getNodeCount (graph L) = getNodeCount (graph L0)) as Hcount
    by (unfold getNodeCount; by rewrite Hnodes).
  rewrite <- Hcount in Ha, Hb.
  split; [eapply rtc_r; [exact HL|by apply step_link]|].
  split; [eapply rtc_r; [exact Hgrow|apply growStep_link]|].
  pose proof (link_links a b L Hwf Ha Hb) as Hl.
  rewrite (link_spec a b L Hwf Ha Hb) in *.
  destruct (getLink (graph L) a b).
  - split; [done|]. split; [done|]. exists R. split; [done|]. done.
  - cbn [graph nodes nameToId]. split; [done|]. split; [done|].
    exists (R ++ [mkLink a b (2 * getLinkCount (graph L))]).
    split; [cbn [links]; by rewrite Hlinks, app_assoc|].
    intros l [Hl' | ->%list_elem_of_singleton]%elem_of_app; [by apply HR|done].
Qed.

Lemma connect_spec L0 source (ts : list Node) st :
  wf L0 → source ∈ nodes (graph L0) → (∀ t, t ∈ ts → t ∈ nodes (graph L0)) →
  linksAdded L0 st.1 →
  linksAdded L0 (foldl (connect random below source) st ts).1.
Proof.
  intros Hwf Hs. revert st. induction ts as [|t ts IH]; intros [L k] Hts HL; [done|].
  cbn [foldl]. apply IH; [intros t' Ht'; apply Hts; by right|].
  unfold connect. destruct (decide (id source = id t)) as [Heq|Hne]; [done|].
  destruct (below (random k)); [|done]. cbn [fst].
  apply linksAdded_link; [done|done|by apply wf_node_lt|].
  apply wf_node_lt; [done|]. apply Hts. by left.
Qed.

Lemma connectSource_spec L0 allConnected source st :
  wf L0 → (∀ u, scaled u < getNodeCount (graph L0)) →
  source ∈ nodes (graph L0) →
  linksAdded L0 st.1 →
  linksAdded L0 (connectSource random below scaled allConnected st source).1.
Proof.
  intros Hwf Hscaled Hs HL. destruct st as [L k]. unfold connectSource.
  pose proof (connect_spec L0 source (nodes (graph L)) (L, k) Hwf Hs) as Hin.
  destruct (foldl (connect random below source) (L, k) (nodes (graph L))) as [L1 k1].
  cbn [fst] in *.
  assert (linksAdded L0 L1) as HL1.
  { apply Hin; [|done]. destruct HL as (_ & _ & -> & _). done. }
  destruct (allConnected && (getLinkCount (graph L1) - getLinkCount (graph L) =? 0));
    [|done].
  destruct (decide (id source = scaled (random k1))) as [Heq|Hne]; [done|].
  cbn [fst]. apply linksAdded_link; [done|done|by apply wf_node_lt|apply Hscaled].
Qed.

Lemma connectSources_spec L0 allConnected (ss : list Node) st :
  wf L0 → (∀ u, scaled u < getNodeCount (graph L0)) →
  (∀ s, s ∈ ss → s ∈ nodes (graph L0)) →
  linksAdded L0 st.1 →
  linksAdded L0 (foldl (connectSource random below scaled allConnected) st ss).1.
Proof.
  intros Hwf Hscaled. revert st. induction ss as [|s ss IH]; intros st Hss HL; [done|].
  cbn [foldl]. apply IH; [intros s' Hs'; apply Hss; by right|].
  apply connectSource_spec; [done..|apply Hss; by left|done].
Qed.

Lemma addIndexNodes_spec L n :
  reachable L →
  reachable (foldl addIndexNode L (seq 0 n))
  ∧ rtc growStep L (foldl addIndexNode L (seq 0 n))
  ∧ links (graph (foldl addIndexNode L (seq 0 n))) = links (graph L)
  ∧ getNodeCount (graph L) ≤ getNodeCount (graph (foldl addIndexNode L (seq 0 n)))
  ∧ ∀ i, i < n → flagged true (foldl addIndexNode L (seq 0 n)) (pretty i).
Proof.
  intros HL. induction n as [|n IH].
  - split; [done|]. split; [done|]. split; [done|]. split; [done|]. intros i Hi. lia.
  - rewrite seq_S, foldl_app. cbn [foldl plus].
    destruct IH as (Hr & Hg & Hl & Hc & Hf).
    set (Ln := foldl addIndexNode L (seq 0 n)) in *.
    pose proof (reachable_wf Ln Hr) as Hwf.
    assert (step Ln (addIndexNode Ln n)) as Hstep by apply step_addOrGetNode.
    split; [by eapply rtc_r|].
    split; [eapply rtc_r; [exact Hg|apply growStep_addOrGetNode]|].
    split; [unfold addIndexNode; by rewrite links_addOrGetNode|].
    split; [destruct (step_spec _ _ Hwf Hstep) as (_ & _ & Hle); lia|].
    intros i Hi. unfold addIndexNode. apply flagged_addOrGetNode; [done|by left|].
    destruct (decide (i = n)) as [->|Hne]; [by right|left; apply Hf; lia].
Qed.

Lemma handles_count L n :
  wf L → (∀ i, i < n → is_Some (nameToId L !! pretty i)) → n ≤ getNodeCount (graph L).
Proof.
  intros HL Hn.
  set (f := λ i : nat, default 0 (nameToId L !! pretty i)).
  assert (NoDup (f <$> seq 0 n)) as Hnd.
  { apply NoDup_fmap_2_strong; [|apply NoDup_seq].
    intros x y Hx%elem_of_seq Hy%elem_of_seq. unfold f.
    destruct (Hn x) as [hx Hhx]; [lia|]. destruct (Hn y) as [hy Hhy]; [lia|].
    rewrite Hhx, Hhy. simpl. intros ->.
    apply (wf_names L HL) in Hhx, Hhy. rewrite Hhx in Hhy.
    injection Hhy as Heq. by apply (inj pretty). }
  assert (length (f <$> seq 0 n) ≤ length (seq 0 (getNodeCount (graph L)))) as Hle.
  { apply submseteq_length, NoDup_submseteq; [done|].
    intros z (x & -> & Hx%elem_of_seq)%list_elem_of_fmap. unfold f.
    destruct (Hn x) as [hx Hhx]; [lia|]. rewrite Hhx. simpl.
    apply elem_of_seq. pose proof (wf_name_lt L hx (pretty x) HL Hhx). lia. }
  by rewrite length_fmap, !length_seq in Hle.
Qed.

Lemma addIndexNodes_empty n :
  getNodeCount (graph (foldl addIndexNode Layout.empty (seq 0 n))) = n
  ∧ (∀ i, i < n → nameToId (foldl addIndexNode Layout.empty (seq 0 n)) !! pretty i = Some i)
  ∧ (∀ lbl, is_Some (nameToId (foldl addIndexNode Layout.empty (seq 0 n)) !! lbl) →
       ∃ i, i < n ∧ lbl = pretty i).
Proof.
  induction n as [|n (Hc & Hh & Hdom)].
  - split; [done|]. split; [intros i Hi; lia|]. intros lbl [? Hl]. by cbn in Hl.
  - rewrite seq_S, foldl_app. cbn [foldl plus].
    destruct (addIndexNodes_spec Layout.empty n) as (Hr & _); [apply rtc_refl|].
    set (Ln := foldl addIndexNode Layout.empty (seq 0 n)) in *.
    pose proof (reachable_wf Ln Hr) as Hwf.
    assert (nameToId Ln !! pretty n = None) as Hfresh.
    { destruct (nameToId Ln !! pretty n) as [j|] eqn:Hj; [|done].
      destruct (Hdom (pretty n)) as (i & Hi & Heq); [by eexists|].
      apply (inj pretty) in Heq. lia. }
    assert ((addOrGetNode (mkGraphNode (pretty n) true) Ln).1 = n) as Hid.
    { rewrite addOrGetNode_fst. cbn [label]. by rewrite Hfresh. }
    unfold addIndexNode. split; [|split].
    + rewrite getNodeCount_addOrGetNode by done. cbn [label]. rewrite Hfresh. lia.
    + intros i Hi. rewrite nameToId_addOrGetNode, Hid. cbn [label].
      destruct (decide (i = n)) as [->|Hne]; [by rewrite lookup_insert_eq|].
      rewrite lookup_insert_ne; [apply Hh; lia|].
      intros Heq. apply (inj pretty) in Heq. lia.
    + intros lbl. rewrite nameToId_addOrGetNode. cbn [label].
      destruct (decide (lbl = pretty n)) as [->|Hne]; [intros _; exists n; split; [lia|done]|].
      rewrite lookup_insert_ne by done. intros (i & Hi & ->)%Hdom. exists i. split; [lia|done].
Qed.

(** X11. [createRandomGraph] only adds: on a layout built by the class, and
    when [Math.floor(Math.random() * numNodes)] is at most [numNodes - 1], the
    layout it leaves is built by [addOrGetNode] and [link] alone; it has at
    least [numNodes] nodes, a node marked resolved for each of the numerals
    below [numNodes], the links of before where they were, and no new link
    from a node to itself, whatever [Math.random] returns. *)
Theorem random_graph_grows numNodes allConnected L k :
  reachable L →
  (∀ u, scaled u ≤ numNodes - 1) →
  let L' := (createRandomGraph random below scaled numNodes allConnected L k).1 in
  reachable L' ∧ rtc growStep L L'
  ∧ numNodes ≤ getNodeCount (graph L')
  ∧ (∀ i, i < numNodes → flagged true L' (pretty i))
  ∧ ∃ R, links (graph L') = links (graph L) ++ R ∧ ∀ l, l ∈ R → fromId l ≠ toId l.
Proof.
  intros HL Hscaled. cbv zeta. unfold createRandomGraph.
  destruct (addIndexNodes_spec L numNodes HL) as (Hr0 & Hg0 & Hl0 & _ & Hf0).
  set (L0 := foldl addIndexNode L (seq 0 numNodes)) in *.
  pose proof (reachable_wf L0 Hr0) as Hwf0.
  assert (numNodes ≤ getNodeCount (graph L0)) as Hn0.
  { apply handles_count; [done|]. intros i Hi. destruct (Hf0 i Hi) as (j & Hj & _).
    by eexists. }
  destruct (nodes (graph L0)) as [|n0 ns] eqn:Hnodes.
  { cbn [foldl fst]. split; [done|]. split; [done|].
    split; [done|]. split; [done|]. exists []. rewrite app_nil_r. split; [done|].
    intros l Hl. by apply elem_of_nil in Hl. }
  rewrite <- Hnodes.
  destruct (connectSources_spec L0 allConnected (nodes (graph L0)) (L0, k))
    as (Hr & Hg & Hnd & Hnm & R & Hlinks & HR); [done| |done|by apply linksAdded_refl|].
  { intros u. specialize (Hscaled u). unfold getNodeCount in *. rewrite Hnodes in *.
    cbn [length] in *. lia. }
  set (L' := (foldl (connectSource random below scaled allConnected) (L0, k)
                (nodes (graph L0))).1) in *.
  split; [done|]. split; [by etrans|].
  split; [unfold getNodeCount in *; by rewrite Hnd|]. split.
  - intros i Hi. destruct (Hf0 i Hi) as (j & Hj & Hres). exists j.
    split; [by rewrite Hnm|]. unfold resolvedOf, getNode in *. by rewrite Hnd.
  - exists R. split; [by rewrite Hlinks, Hl0|done].
Qed.

(** X12. [createRandomGraph] on a new layout: the graph has exactly
    [numNodes] nodes, the numeral of [i] has the handle [i] and its node is
    marked resolved, every link joins two distinct nodes, and the slots are in
    order, whatever [Math.random] returns. *)
Theorem random_graph_new numNodes allConnected k :
  (∀ u, scaled u ≤ numNodes - 1) →
  let L' := (createRandomGraph random below scaled numNodes allConnected Layout.empty k).1 in
  getNodeCount (graph L') = numNodes
  ∧ (∀ i, i < numNodes →
       nameToId L' !! pretty i = Some i ∧ labelOf L' i = Some (pretty i)
       ∧ resolvedOf L' i = Some true)
  ∧ (∀ l, l ∈ links (graph L') →
       fromId l ≠ toId l ∧ fromId l < numNodes ∧ toId l < numNodes)
  ∧ slotsInOrder L'.
Proof.
  intros Hscaled. cbv zeta. unfold createRandomGraph.
  destruct (addIndexNodes_spec Layout.empty numNodes) as (Hr0 & Hg0 & Hl0 & _ & Hf0);
    [apply rtc_refl|].
  destruct (addIndexNodes_empty numNodes) as (Hc0 & Hh0 & _).
  set (L0 := foldl addIndexNode Layout.empty (seq 0 numNodes)) in *.
  pose proof (reachable_wf L0 Hr0) as Hwf0.
  assert (linksAdded L0 (foldl (connectSource random below scaled allConnected) (L0, k)
                           (nodes (graph L0))).1) as (Hr & Hg & Hnd & Hnm & R & Hlinks & HR).
  { destruct (nodes (graph L0)) as [|n0 ns] eqn:Hnodes; [by apply linksAdded_refl|].
    rewrite <- Hnodes. apply connectSources_spec; [done| |done|by apply linksAdded_refl].
    intros u. specialize (Hscaled u). unfold getNodeCount in *. rewrite Hnodes in *.
    cbn [length] in *. lia. }
  set (L' := (foldl (connectSource random below scaled allConnected) (L0, k)
                (nodes (graph L0))).1) in *.
  pose proof (reachable_wf L' Hr) as Hwf.
  assert (getNodeCount (graph L') = numNodes) as Hc
    by (unfold getNodeCount in *; by rewrite Hnd).
  split; [done|]. split; [|split].
  - intros i Hi. rewrite Hnm. split; [by apply Hh0|].
    split.
    + apply (wf_names L' Hwf). rewrite Hnm. by apply Hh0.
    + destruct (Hf0 i Hi) as (j & Hj & Hres). rewrite (Hh0 i Hi) in Hj.
      injection Hj as <-. unfold resolvedOf, getNode in *. by rewrite Hnd.
  - intros l Hl. rewrite <- Hc.
    split; [|by apply (wf_closed L' Hwf)].
    rewrite Hlinks, Hl0 in Hl. cbn [Layout.empty graph links createGraph] in Hl.
    apply HR. by rewrite app_nil_l in Hl.
  - apply growSteps_slotsInOrder. by etrans.
Qed.

End random_graph.

Lemma random_graph_grows_witness :
  let L' := (createRandomGraph (λ k : nat, k) Nat.even (λ u, u mod 3) 3 true
               Examples.layoutAB 0).1 in
  reachable L' ∧ rtc growStep Examples.layoutAB L'
  ∧ 3 ≤ getNodeCount (graph L')
  ∧ (∀ i, i < 3 → flagged true L' (pretty i))
  ∧ ∃ R, links (graph L') = links (graph Examples.layoutAB) ++ R
         ∧ ∀ l, l ∈ R → fromId l ≠ toId l.
Proof.
  apply (random_graph_grows (λ k : nat, k) Nat.even (λ u, u mod 3) 3 true
           Examples.layoutAB 0).
  - apply rtc_once, (step_fromMetadataCache Examples.snapAB).
  - intros u. pose proof (Nat.mod_upper_bound u 3). lia.
Defined.

Lemma random_graph_new_witness :
  let L' := (createRandomGraph (λ k : nat, k) Nat.even (λ u, u mod 3) 3 true
               Layout.empty 0).1 in
  getNodeCount (graph L') = 3
  ∧ (∀ i, i < 3 →
       nameToId L' !! pretty i = Some i ∧ labelOf L' i = Some (pretty i)
       ∧ resolvedOf L' i = Some true)
  ∧ (∀ l, l ∈ links (graph L') → fromId l ≠ toId l ∧ fromId l < 3 ∧ toId l < 3)
  ∧ slotsInOrder L'.
Proof.
  apply (random_graph_new (λ k : nat, k) Nat.even (λ u, u mod 3) 3 true 0).
  intros u. pose proof (Nat.mod_upper_bound u 3). lia.
Defined.
